(** * OpenVoronoi: [voronoidiagram.hpp]

    A shallow embedding of the declarations of [voronoidiagram.hpp]
    (namespace [ovd]) and of the behaviour its specification attaches to
    them, with the properties proved about each part.

    - [SplitPointError]: the functor handed to the root finder.
    - [VQueue]: [abs_comparison] and [VertexQueue].
    - [Arc]: arcs of a boundary cycle, for the predicate C4.
    - [Diagram]: the data members and inline accessors of
      [VoronoiDiagram], and the insertion state machine. *)

From Stdlib Require Import List Bool Arith Lia ZifyNat ZArith QArith Qabs.
From Stdlib Require Import Reals Lra Permutation FunctionalExtensionality.
From Stdlib Require Import Sorted.
Import ListNotations.

(** ** [SplitPointError]: signed distance to the pt1-pt2 line *)

Module SplitPointError.
Local Open Scope R_scope.

(** Modelled from the spec: [Point] of [point.hpp] is not part of this
    header; it is a planar vector with the usual [+], [-], scalar [*],
    [dot] and [norm].  A C++ [double] is idealised as a real number. *)
Record Point : Type := mkPoint { px : R; py : R }.

Definition padd (a b : Point) : Point := mkPoint (px a + px b) (py a + py b).
Definition psub (a b : Point) : Point := mkPoint (px a - px b) (py a - py b).
Definition pscale (k : R) (a : Point) : Point := mkPoint (k * px a) (k * py a).
Definition dot (a b : Point) : R := px a * px b + py a * py b.
Definition norm (a : Point) : R := sqrt (dot a a).

(** A point of the line through [p1] and [p2]: [p1 + u*(p2-p1)]. *)
Definition on_line (q p1 p2 : Point) : Prop :=
  exists u : R, q = padd p1 (pscale u (psub p2 p1)).

(** The result of a division the code performs without a guard:
    [None] when the divisor is zero. *)
Definition checked_div (a b : R) : option R :=
  if Req_dec_T b 0 then None else Some (a / b).

Section Functor.
(** [vd->g[edge].point(t)], the parametric curve of the split edge. *)
Variable edge_point : R -> Point.
(** [p.is_right(p1,p2)], the right-of-line test of [point.hpp]. *)
Variable is_right : Point -> Point -> Point -> bool.
(** The members [p1] and [p2] set by the constructor from [pt1], [pt2]. *)
Variables p1 p2 : Point.

Definition sign_of (p : Point) : R := if is_right p p1 p2 then 1 else -1.

(** The tail of [operator()] once [u] is known. *)
Definition signed_dist (p : Point) (u : R) : R :=
  let proj := padd p1 (pscale u (psub p2 p1)) in
  let dist := norm (psub proj p) in
  sign_of p * dist.

(** [double operator()(const double t)]. *)
Definition call (t : R) : R :=
  let p := edge_point t in
  let u := dot (psub p p1) (psub p2 p1) / dot (psub p2 p1) (psub p2 p1) in
  signed_dist p u.

(** The same body with the division checked. *)
Definition call_checked (t : R) : option R :=
  let p := edge_point t in
  match checked_div (dot (psub p p1) (psub p2 p1))
                    (dot (psub p2 p1) (psub p2 p1)) with
  | None => None
  | Some u => Some (signed_dist p u)
  end.
End Functor.

(** *** Facts on planar vectors *)

Lemma point_eq (a b : Point) : px a = px b -> py a = py b -> a = b.
Proof. destruct a, b; simpl; intros -> ->; reflexivity. Qed.

Lemma dot_self_nonneg (a : Point) : 0 <= dot a a.
Proof. unfold dot. nra. Qed.

Lemma dot_diff_zero (a b : Point) : dot (psub b a) (psub b a) = 0 <-> a = b.
Proof.
  unfold dot, psub; simpl. split.
  - intros H.
    destruct (Rplus_sqr_eq_0 (px b - px a) (py b - py a)) as [Hx Hy].
    { unfold Rsqr. exact H. }
    apply point_eq; lra.
  - intros ->. ring.
Qed.

Lemma norm_sym (a b : Point) : norm (psub a b) = norm (psub b a).
Proof. unfold norm. f_equal. unfold dot, psub; simpl. ring. Qed.

Lemma pythagoras (p q r d : Point) (k : R) :
  dot (psub p q) d = 0 ->
  psub q r = pscale k d ->
  dot (psub p r) (psub p r) =
  dot (psub p q) (psub p q) + dot (psub q r) (psub q r).
Proof.
  unfold dot, psub, pscale; simpl. intros Ho He.
  injection He as Hx Hy.
  assert (Hc : (px p - px q) * (px q - px r) + (py p - py q) * (py q - py r) = 0).
  { rewrite Hx, Hy.
    replace ((px p - px q) * (k * px d) + (py p - py q) * (k * py d))
      with (k * ((px p - px q) * px d + (py p - py q) * py d)) by ring.
    rewrite Ho. ring. }
  replace (px p - px r) with ((px p - px q) + (px q - px r)) by ring.
  replace (py p - py r) with ((py p - py q) + (py q - py r)) by ring.
  lra.
Qed.

Section Projection.
Variables p1 p2 p : Point.
Hypothesis distinct : p1 <> p2.

Let d := psub p2 p1.
Let u := dot (psub p p1) d / dot d d.
Let proj := padd p1 (pscale u d).

Lemma denom_nonzero : dot d d <> 0.
Proof. unfold d. intros H. apply dot_diff_zero in H. contradiction. Qed.

Lemma proj_on_line : on_line proj p1 p2.
Proof. exists u. reflexivity. Qed.

Lemma proj_orthogonal : dot (psub p proj) d = 0.
Proof.
  pose proof denom_nonzero as Hd.
  unfold proj, u. unfold dot, psub, padd, pscale in *; simpl in *.
  field. exact Hd.
Qed.

Lemma proj_nearest (q : Point) :
  on_line q p1 p2 -> norm (psub p proj) <= norm (psub p q).
Proof.
  intros [w ->]. unfold norm. apply sqrt_le_1_alt.
  rewrite (pythagoras p proj (padd p1 (pscale w (psub p2 p1))) d (u - w)).
  - pose proof (dot_self_nonneg
                  (psub proj (padd p1 (pscale w (psub p2 p1))))). lra.
  - apply proj_orthogonal.
  - unfold proj, d, psub, padd, pscale; simpl. f_equal; ring.
Qed.
End Projection.

(** C6: for distinct [pt1], [pt2] and every [t], [operator()(t)] is the
    distance from [edge.point(t)] to the line through [pt1] and [pt2] -- the
    norm of the difference between the point and its orthogonal projection on
    that line, which is the nearest point of the line -- multiplied by [+1]
    when the point is right of [pt1 -> pt2] and by [-1] otherwise. *)
Theorem split_point_error_signed_distance
    (edge_point : R -> Point) (is_right : Point -> Point -> Point -> bool)
    (p1 p2 : Point) (t : R) :
  p1 <> p2 ->
  exists proj : Point,
    on_line proj p1 p2 /\
    dot (psub (edge_point t) proj) (psub p2 p1) = 0 /\
    (forall q, on_line q p1 p2 ->
               norm (psub (edge_point t) proj) <= norm (psub (edge_point t) q)) /\
    call edge_point is_right p1 p2 t =
      (if is_right (edge_point t) p1 p2 then 1 else -1)
      * norm (psub (edge_point t) proj).
Proof.
  intros Hne.
  set (p := edge_point t).
  set (d := psub p2 p1).
  exists (padd p1 (pscale (dot (psub p p1) d / dot d d) d)).
  split; [apply proj_on_line|].
  split; [apply proj_orthogonal; exact Hne|].
  split; [intros q Hq; apply proj_nearest; assumption|].
  unfold call, signed_dist, sign_of. fold p. fold d.
  rewrite norm_sym. reflexivity.
Qed.

Lemma split_point_error_signed_distance_witness :
  mkPoint 0 0 <> mkPoint 1 0 /\
  exists proj : Point,
    on_line proj (mkPoint 0 0) (mkPoint 1 0) /\
    dot (psub (mkPoint 3 2) proj) (psub (mkPoint 1 0) (mkPoint 0 0)) = 0 /\
    (forall q, on_line q (mkPoint 0 0) (mkPoint 1 0) ->
               norm (psub (mkPoint 3 2) proj) <= norm (psub (mkPoint 3 2) q)) /\
    call (fun t => mkPoint (3 + t) 2) (fun _ _ _ => true)
         (mkPoint 0 0) (mkPoint 1 0) 0 =
      1 * norm (psub (mkPoint 3 2) proj).
Proof.
  assert (Hne : mkPoint 0 0 <> mkPoint 1 0).
  { intros H. injection H as H. lra. }
  split; [exact Hne|].
  pose proof (split_point_error_signed_distance
                (fun t => mkPoint (3 + t) 2) (fun _ _ _ => true)
                (mkPoint 0 0) (mkPoint 1 0) 0 Hne) as H.
  cbv beta in H. replace (3 + 0) with 3 in H by ring. exact H.
Defined.

(** C8: the quotient [u] has divisor [(p2-p1).dot(p2-p1)]; with the
    division checked, [operator()] yields a value for every [t] when
    [pt1 <> pt2], and reaches the zero-divisor branch for every [t] when
    [pt1 = pt2]. *)
Theorem split_point_error_division
    (edge_point : R -> Point) (is_right : Point -> Point -> Point -> bool)
    (p1 p2 : Point) :
  (p1 <> p2 ->
   forall t, call_checked edge_point is_right p1 p2 t =
             Some (call edge_point is_right p1 p2 t)) /\
  (p1 = p2 -> forall t, call_checked edge_point is_right p1 p2 t = None).
Proof.
  split.
  - intros Hne t. unfold call_checked, call, checked_div.
    destruct (Req_dec_T (dot (psub p2 p1) (psub p2 p1)) 0) as [H0|H0].
    + apply dot_diff_zero in H0. contradiction.
    + reflexivity.
  - intros Heq t. unfold call_checked, checked_div.
    destruct (Req_dec_T (dot (psub p2 p1) (psub p2 p1)) 0) as [H0|H0].
    + reflexivity.
    + exfalso. apply H0. apply dot_diff_zero. exact Heq.
Qed.

Lemma split_point_error_division_witness :
  (mkPoint 0 0 <> mkPoint 1 0 /\
   call_checked (fun t => mkPoint t 2) (fun _ _ _ => false)
                (mkPoint 0 0) (mkPoint 1 0) 0 =
   Some (call (fun t => mkPoint t 2) (fun _ _ _ => false)
              (mkPoint 0 0) (mkPoint 1 0) 0)) /\
  (mkPoint 1 1 = mkPoint 1 1 /\
   call_checked (fun t => mkPoint t 2) (fun _ _ _ => false)
                (mkPoint 1 1) (mkPoint 1 1) 0 = None).
Proof.
  assert (Hne : mkPoint 0 0 <> mkPoint 1 0).
  { intros H. injection H as H. lra. }
  split; split.
  - exact Hne.
  - exact (proj1 (split_point_error_division
                    (fun t => mkPoint t 2) (fun _ _ _ => false)
                    (mkPoint 0 0) (mkPoint 1 0)) Hne 0).
  - reflexivity.
  - exact (proj2 (split_point_error_division
                    (fun t => mkPoint t 2) (fun _ _ _ => false)
                    (mkPoint 1 1) (mkPoint 1 1)) eq_refl 0).
Defined.

(** *** Further properties of [operator()] *)

(** The planar cross product [a.x*b.y - a.y*b.x]. *)
Definition cross2 (a b : Point) : R := px a * py b - py a * px b.

Lemma norm_nonneg (a : Point) : 0 <= norm a.
Proof. unfold norm. apply sqrt_pos. Qed.

Lemma norm_diff_zero (a b : Point) : norm (psub b a) = 0 <-> a = b.
Proof.
  unfold norm. split.
  - intros H. apply dot_diff_zero. apply sqrt_eq_0; [|exact H].
    apply dot_self_nonneg.
  - intros H. apply dot_diff_zero in H. rewrite H. apply sqrt_0.
Qed.

Section Functor_facts.
Variable edge_point : R -> Point.
Variable is_right : Point -> Point -> Point -> bool.
Variables p1 p2 : Point.

(** The foot of the perpendicular that [operator()] computes. *)
Definition foot (t : R) : Point :=
  let p := edge_point t in
  padd p1 (pscale (dot (psub p p1) (psub p2 p1)
                   / dot (psub p2 p1) (psub p2 p1)) (psub p2 p1)).

Lemma call_foot (t : R) :
  call edge_point is_right p1 p2 t =
  sign_of is_right p1 p2 (edge_point t) * norm (psub (foot t) (edge_point t)).
Proof. reflexivity. Qed.

Lemma abs_call (t : R) :
  Rabs (call edge_point is_right p1 p2 t) =
  norm (psub (foot t) (edge_point t)).
Proof.
  rewrite call_foot, Rabs_mult.
  rewrite (Rabs_pos_eq (norm _)) by apply norm_nonneg.
  unfold sign_of. destruct (is_right (edge_point t) p1 p2).
  - rewrite Rabs_R1. ring.
  - replace (Rabs (-1)) with 1; [ring|].
    unfold Rabs. destruct (Rcase_abs (-1)); lra.
Qed.

Lemma foot_fixes_line (t : R) :
  p1 <> p2 -> on_line (edge_point t) p1 p2 -> foot t = edge_point t.
Proof.
  intros Hne [w Hw]. pose proof (denom_nonzero p1 p2 Hne) as Hd.
  unfold foot. cbv zeta. rewrite Hw.
  apply point_eq;
    unfold dot, psub, padd, pscale in *; simpl in *; field; exact Hd.
Qed.

Lemma foot_on_line (t : R) : on_line (foot t) p1 p2.
Proof. unfold foot. cbv zeta. eexists. reflexivity. Qed.

Lemma off_line_dist_pos (t : R) :
  ~ on_line (edge_point t) p1 p2 ->
  0 < norm (psub (foot t) (edge_point t)).
Proof.
  intros Hoff.
  destruct (norm_nonneg (psub (foot t) (edge_point t))) as [H|H];
    [exact H|].
  exfalso. apply Hoff. symmetry in H. apply norm_diff_zero in H.
  rewrite H. apply foot_on_line.
Qed.

Lemma on_line_dist_zero (t : R) :
  p1 <> p2 -> on_line (edge_point t) p1 p2 ->
  norm (psub (foot t) (edge_point t)) = 0.
Proof.
  intros Hne H. rewrite (foot_fixes_line t Hne H).
  apply norm_diff_zero. reflexivity.
Qed.

End Functor_facts.

(** Two points of a line span the same line. *)
Lemma on_line_sub (q1 q2 p1 p2 x : Point) :
  on_line q1 p1 p2 -> on_line q2 p1 p2 -> on_line x q1 q2 ->
  on_line x p1 p2.
Proof.
  intros [a ->] [b ->] [u ->]. exists (a + u * (b - a)).
  apply point_eq; unfold padd, pscale, psub; simpl; ring.
Qed.

Lemma on_line_sup (q1 q2 p1 p2 x : Point) :
  q1 <> q2 ->
  on_line q1 p1 p2 -> on_line q2 p1 p2 -> on_line x p1 p2 ->
  on_line x q1 q2.
Proof.
  intros Hne [a Ha] [b Hb] [w ->].
  assert (Hab : b - a <> 0).
  { intros E. apply Hne. rewrite Ha, Hb.
    replace b with a by lra. reflexivity. }
  exists ((w - a) / (b - a)). rewrite Ha, Hb.
  apply point_eq; unfold padd, pscale, psub; simpl; field; exact Hab.
Qed.

Lemma on_line_distinct (q1 q2 p1 p2 : Point) :
  q1 <> q2 -> on_line q1 p1 p2 -> on_line q2 p1 p2 -> p1 <> p2.
Proof.
  intros Hne [a Ha] [b Hb] E. apply Hne. rewrite Ha, Hb, E.
  apply point_eq; unfold padd, pscale, psub; simpl; ring.
Qed.

(** The distance [operator()] measures is at most the distance to any
    point of the line. *)
Lemma abs_call_le (edge_point : R -> Point)
    (is_right : Point -> Point -> Point -> bool) (p1 p2 q : Point) (t : R) :
  p1 <> p2 -> on_line q p1 p2 ->
  Rabs (call edge_point is_right p1 p2 t) <= norm (psub (edge_point t) q).
Proof.
  intros Hne Hq. rewrite abs_call, norm_sym.
  exact (proj_nearest p1 p2 (edge_point t) Hne q Hq).
Qed.

(** For distinct [pt1], [pt2], [operator()(t)] is zero exactly when
    [edge.point(t)] lies on the line through [pt1] and [pt2]: the root the
    solver looks for is the parameter at which the edge meets that line. *)
Theorem split_point_error_zero_iff_on_line
    (edge_point : R -> Point) (is_right : Point -> Point -> Point -> bool)
    (p1 p2 : Point) (t : R) :
  p1 <> p2 ->
  (call edge_point is_right p1 p2 t = 0 <-> on_line (edge_point t) p1 p2).
Proof.
  intros Hne. rewrite call_foot. split.
  - intros H. apply Rmult_integral in H. destruct H as [H|H].
    + unfold sign_of in H. destruct (is_right _ _ _); lra.
    + apply norm_diff_zero in H. rewrite H. apply foot_on_line.
  - intros H. rewrite (on_line_dist_zero edge_point p1 p2 t Hne H). ring.
Qed.

Lemma split_point_error_zero_iff_on_line_witness :
  mkPoint 0 0 <> mkPoint 1 0 /\
  (call (fun t => mkPoint t (2 * t - 1)) (fun _ _ _ => true)
        (mkPoint 0 0) (mkPoint 1 0) (1 / 2) = 0 <->
   on_line (mkPoint (1 / 2) (2 * (1 / 2) - 1)) (mkPoint 0 0) (mkPoint 1 0)).
Proof.
  assert (Hne : mkPoint 0 0 <> mkPoint 1 0).
  { intros H. injection H as H. lra. }
  split; [exact Hne|].
  exact (split_point_error_zero_iff_on_line
           (fun t => mkPoint t (2 * t - 1)) (fun _ _ _ => true)
           (mkPoint 0 0) (mkPoint 1 0) (1 / 2) Hne).
Defined.

(** For distinct [pt1], [pt2] the sign of [operator()(t)] tells the side:
    the value is positive exactly when [edge.point(t)] is off the line and
    [is_right] holds, negative exactly when it is off the line and
    [is_right] fails. *)
Theorem split_point_error_sign
    (edge_point : R -> Point) (is_right : Point -> Point -> Point -> bool)
    (p1 p2 : Point) (t : R) :
  p1 <> p2 ->
  (0 < call edge_point is_right p1 p2 t <->
   is_right (edge_point t) p1 p2 = true /\ ~ on_line (edge_point t) p1 p2) /\
  (call edge_point is_right p1 p2 t < 0 <->
   is_right (edge_point t) p1 p2 = false /\ ~ on_line (edge_point t) p1 p2).
Proof.
  intros Hne. rewrite call_foot. unfold sign_of.
  pose proof (norm_nonneg (psub (foot edge_point p1 p2 t) (edge_point t)))
    as Hn.
  pose proof (on_line_dist_zero edge_point p1 p2 t Hne) as Hon.
  pose proof (off_line_dist_pos edge_point p1 p2 t) as Hoff.
  destruct (is_right (edge_point t) p1 p2); split; split.
  - intros H. split; [reflexivity|]. intros L. apply Hon in L. nra.
  - intros [_ L]. apply Hoff in L. nra.
  - intros H. nra.
  - intros [E _]. discriminate E.
  - intros H. nra.
  - intros [E _]. discriminate E.
  - intros H. split; [reflexivity|]. intros L. apply Hon in L. nra.
  - intros [_ L]. apply Hoff in L. nra.
Qed.

Lemma split_point_error_sign_witness :
  mkPoint 0 0 <> mkPoint 1 0 /\
  (0 < call (fun t => mkPoint t (2 * t - 1)) (fun _ _ _ => true)
            (mkPoint 0 0) (mkPoint 1 0) 0 <->
   true = true /\
   ~ on_line (mkPoint 0 (2 * 0 - 1)) (mkPoint 0 0) (mkPoint 1 0)).
Proof.
  assert (Hne : mkPoint 0 0 <> mkPoint 1 0).
  { intros H. injection H as H. lra. }
  split; [exact Hne|].
  exact (proj1 (split_point_error_sign
                  (fun t => mkPoint t (2 * t - 1)) (fun _ _ _ => true)
                  (mkPoint 0 0) (mkPoint 1 0) 0 Hne)).
Defined.

(** When the points of the edge at two parameters are off the line and
    [is_right] tells them apart, the two values of [operator()] have
    opposite signs: the parameters bracket a root. *)
Theorem split_point_error_brackets_root
    (edge_point : R -> Point) (is_right : Point -> Point -> Point -> bool)
    (p1 p2 : Point) (t0 t1 : R) :
  p1 <> p2 ->
  ~ on_line (edge_point t0) p1 p2 -> ~ on_line (edge_point t1) p1 p2 ->
  is_right (edge_point t0) p1 p2 <> is_right (edge_point t1) p1 p2 ->
  call edge_point is_right p1 p2 t0 * call edge_point is_right p1 p2 t1 < 0.
Proof.
  intros _ H0 H1 Hs. rewrite !call_foot. unfold sign_of.
  apply (off_line_dist_pos edge_point p1 p2) in H0.
  apply (off_line_dist_pos edge_point p1 p2) in H1.
  destruct (is_right (edge_point t0) p1 p2),
           (is_right (edge_point t1) p1 p2); try congruence; nra.
Qed.

Lemma split_point_error_brackets_root_witness :
  let e := fun t => mkPoint t (2 * t - 1) in
  let r := fun (p _ _ : Point) => if Rlt_dec (py p) 0 then true else false in
  (mkPoint 0 0 <> mkPoint 1 0 /\
   ~ on_line (e 0) (mkPoint 0 0) (mkPoint 1 0) /\
   ~ on_line (e 1) (mkPoint 0 0) (mkPoint 1 0) /\
   r (e 0) (mkPoint 0 0) (mkPoint 1 0) <> r (e 1) (mkPoint 0 0) (mkPoint 1 0)) /\
  call e r (mkPoint 0 0) (mkPoint 1 0) 0
  * call e r (mkPoint 0 0) (mkPoint 1 0) 1 < 0.
Proof.
  intros e r.
  assert (Hne : mkPoint 0 0 <> mkPoint 1 0).
  { intros H. injection H as H. lra. }
  assert (H0 : ~ on_line (e 0) (mkPoint 0 0) (mkPoint 1 0)).
  { intros [u H]. unfold e, padd, pscale, psub in H. simpl in H.
    injection H as _ H. lra. }
  assert (H1 : ~ on_line (e 1) (mkPoint 0 0) (mkPoint 1 0)).
  { intros [u H]. unfold e, padd, pscale, psub in H. simpl in H.
    injection H as _ H. lra. }
  assert (Hs : r (e 0) (mkPoint 0 0) (mkPoint 1 0)
               <> r (e 1) (mkPoint 0 0) (mkPoint 1 0)).
  { unfold r, e. simpl.
    destruct (Rlt_dec (2 * 0 - 1) 0) as [_|N]; [|exfalso; lra].
    destruct (Rlt_dec (2 * 1 - 1) 0) as [N|_]; [exfalso; lra|].
    discriminate. }
  split; [repeat split; assumption|].
  exact (split_point_error_brackets_root e r (mkPoint 0 0) (mkPoint 1 0)
           0 1 Hne H0 H1 Hs).
Defined.

(** For distinct [pt1], [pt2] the magnitude of [operator()(t)] is the
    point-to-line distance in closed form: the absolute cross product of
    [pt2 - pt1] and [edge.point(t) - pt1], divided by the length of
    [pt2 - pt1]. *)
Theorem split_point_error_cross_form
    (edge_point : R -> Point) (is_right : Point -> Point -> Point -> bool)
    (p1 p2 : Point) (t : R) :
  p1 <> p2 ->
  Rabs (call edge_point is_right p1 p2 t) =
  Rabs (cross2 (psub p2 p1) (psub (edge_point t) p1)) / norm (psub p2 p1).
Proof.
  intros Hne. rewrite abs_call.
  pose proof (denom_nonzero p1 p2 Hne) as Hd.
  pose proof (dot_self_nonneg (psub p2 p1)) as Hd0.
  set (n := norm (psub p2 p1)).
  assert (Hnn : n * n = dot (psub p2 p1) (psub p2 p1)).
  { unfold n, norm. apply sqrt_sqrt. exact Hd0. }
  assert (Hn0 : 0 <= n) by apply norm_nonneg.
  assert (Hn : n <> 0) by (intros E; rewrite E in Hnn; lra).
  assert (E : dot (psub (foot edge_point p1 p2 t) (edge_point t))
                  (psub (foot edge_point p1 p2 t) (edge_point t))
              = Rsqr (cross2 (psub p2 p1) (psub (edge_point t) p1) / n)).
  { apply eq_trans with
      (Rsqr (cross2 (psub p2 p1) (psub (edge_point t) p1))
       / dot (psub p2 p1) (psub p2 p1)).
    - unfold foot, Rsqr, cross2, dot, psub, padd, pscale in *; simpl in *.
      field. exact Hd.
    - rewrite <- Hnn. unfold Rsqr. field. exact Hn. }
  unfold norm at 1. rewrite E, sqrt_Rsqr_abs.
  unfold Rdiv. rewrite Rabs_mult, Rabs_inv.
  rewrite (Rabs_pos_eq n Hn0). reflexivity.
Qed.

Lemma split_point_error_cross_form_witness :
  mkPoint 0 0 <> mkPoint 1 0 /\
  Rabs (call (fun t => mkPoint (3 + t) 2) (fun _ _ _ => false)
             (mkPoint 0 0) (mkPoint 1 0) 0) =
  Rabs (cross2 (psub (mkPoint 1 0) (mkPoint 0 0))
               (psub (mkPoint (3 + 0) 2) (mkPoint 0 0)))
  / norm (psub (mkPoint 1 0) (mkPoint 0 0)).
Proof.
  assert (Hne : mkPoint 0 0 <> mkPoint 1 0).
  { intros H. injection H as H. lra. }
  split; [exact Hne|].
  exact (split_point_error_cross_form
           (fun t => mkPoint (3 + t) 2) (fun _ _ _ => false)
           (mkPoint 0 0) (mkPoint 1 0) 0 Hne).
Defined.

(** The magnitude of [operator()(t)] depends on the line only, not on the
    two points given on it: any two distinct points of the line through
    [pt1] and [pt2] -- in particular [pt2], [pt1] in the other order --
    give the same magnitude at every [t]. *)
Theorem split_point_error_line_only
    (edge_point : R -> Point)
    (is_right is_right' : Point -> Point -> Point -> bool)
    (p1 p2 q1 q2 : Point) (t : R) :
  q1 <> q2 -> on_line q1 p1 p2 -> on_line q2 p1 p2 ->
  Rabs (call edge_point is_right' q1 q2 t) =
  Rabs (call edge_point is_right p1 p2 t).
Proof.
  intros Hq H1 H2.
  pose proof (on_line_distinct q1 q2 p1 p2 Hq H1 H2) as Hp.
  apply Rle_antisym.
  - rewrite (abs_call edge_point is_right p1 p2 t), norm_sym.
    apply abs_call_le; [exact Hq|].
    apply (on_line_sup q1 q2 p1 p2); try assumption.
    apply foot_on_line.
  - rewrite (abs_call edge_point is_right' q1 q2 t), norm_sym.
    apply abs_call_le; [exact Hp|].
    apply (on_line_sub q1 q2 p1 p2); try assumption.
    apply foot_on_line.
Qed.

Lemma split_point_error_line_only_witness :
  (mkPoint 1 0 <> mkPoint 0 0 /\
   on_line (mkPoint 1 0) (mkPoint 0 0) (mkPoint 1 0) /\
   on_line (mkPoint 0 0) (mkPoint 0 0) (mkPoint 1 0)) /\
  Rabs (call (fun t => mkPoint (3 + t) 2) (fun _ _ _ => false)
             (mkPoint 1 0) (mkPoint 0 0) 0) =
  Rabs (call (fun t => mkPoint (3 + t) 2) (fun _ _ _ => true)
             (mkPoint 0 0) (mkPoint 1 0) 0).
Proof.
  assert (Hne : mkPoint 1 0 <> mkPoint 0 0).
  { intros H. injection H as H. lra. }
  assert (H1 : on_line (mkPoint 1 0) (mkPoint 0 0) (mkPoint 1 0)).
  { exists 1. apply point_eq; unfold padd, pscale, psub; simpl; ring. }
  assert (H2 : on_line (mkPoint 0 0) (mkPoint 0 0) (mkPoint 1 0)).
  { exists 0. apply point_eq; unfold padd, pscale, psub; simpl; ring. }
  split; [repeat split; assumption|].
  exact (split_point_error_line_only
           (fun t => mkPoint (3 + t) 2) (fun _ _ _ => true)
           (fun _ _ _ => false)
           (mkPoint 0 0) (mkPoint 1 0) (mkPoint 1 0) (mkPoint 0 0) 0
           Hne H1 H2).
Defined.

End SplitPointError.

(** ** [abs_comparison] and [VertexQueue] *)

Module VQueue.
Local Open Scope nat_scope.

(** Vertex handles of the half-edge graph ([graph.hpp]) are arena indices. *)
Definition HEVertex : Type := nat.

(** [typedef std::pair<HEVertex, double> VertexDetPair]; the [double]
    in-circle value is idealised as a rational (no NaN, no infinities). *)
Definition VertexDetPair : Type := (HEVertex * Q)%type.

Definition Qltb (a b : Q) : bool := negb (Qle_bool b a).

(** [abs_comparison::operator()]: [fabs(lhs.second) < fabs(rhs.second)]. *)
Definition abs_comparison (lhs rhs : VertexDetPair) : bool :=
  Qltb (Qabs (snd lhs)) (Qabs (snd rhs)).

(** *** The heap algorithms behind [std::priority_queue]

    [std::priority_queue<T, std::vector<T>, Compare>] keeps its vector [c]
    as a binary max-heap under [Compare]: [push] is [c.push_back] followed
    by [std::push_heap], [pop] is [std::pop_heap] followed by [c.pop_back],
    [top] is [c.front()].  The heap functions are embedded as libstdc++
    writes them ([__push_heap], [__adjust_heap], [__pop_heap]). *)
Section Heap.
Context {A : Type}.
Variable comp : A -> A -> bool.
Variable dflt : A.

(** [*(first + i)] *)
Definition get (v : list A) (i : nat) : A := nth i v dflt.

(** [*(first + i) = x]; an index outside the vector is never written. *)
Fixpoint set (i : nat) (x : A) (v : list A) : list A :=
  match v, i with
  | [], _ => []
  | _ :: r, 0 => x :: r
  | a :: r, S j => a :: set j x r
  end.

(** The loop of [__push_heap(first, holeIndex, topIndex, value, comp)]:
    the hole climbs while its parent compares less than [value]. *)
Fixpoint push_heap_loop (fuel : nat) (v : list A) (holeIndex topIndex : nat)
    (value : A) : list A :=
  let parent := (holeIndex - 1) / 2 in
  match fuel with
  | 0 => set holeIndex value v
  | S fuel' =>
      if (topIndex <? holeIndex) && comp (get v parent) value
      then push_heap_loop fuel' (set holeIndex (get v parent) v)
                          parent topIndex value
      else set holeIndex value v
  end.

(** The hole moves to a strictly smaller index at each turn, so
    [holeIndex] turns are enough. *)
Definition __push_heap (v : list A) (holeIndex topIndex : nat) (value : A)
  : list A :=
  push_heap_loop holeIndex v holeIndex topIndex value.

(** [std::push_heap(first, last)]: the last element is the new value. *)
Definition push_heap (v : list A) : list A :=
  match length v with
  | 0 => v
  | S n => __push_heap v n 0 (get v n)
  end.

(** The first loop of [__adjust_heap]: the hole sinks to the larger child
    while it has two children.  [holeIndex] and [secondChild] are equal at
    the head of every turn.  Returns the vector and the final hole. *)
Fixpoint adjust_loop (fuel : nat) (v : list A) (secondChild len : nat)
  : list A * nat :=
  match fuel with
  | 0 => (v, secondChild)
  | S fuel' =>
      if secondChild <? (len - 1) / 2 then
        let holeIndex := secondChild in
        let c := 2 * (secondChild + 1) in
        let c := if comp (get v c) (get v (c - 1)) then c - 1 else c in
        adjust_loop fuel' (set holeIndex (get v c) v) c len
      else (v, secondChild)
  end.

(** [__adjust_heap(first, holeIndex, len, value, comp)]; [len >= 1] at its
    only call. *)
Definition __adjust_heap (v : list A) (holeIndex len : nat) (value : A)
  : list A :=
  let topIndex := holeIndex in
  let '(v1, secondChild) := adjust_loop len v holeIndex len in
  let '(v2, hole) :=
    if Nat.even len && (secondChild =? (len - 2) / 2) then
      let c := 2 * (secondChild + 1) in
      (set secondChild (get v1 (c - 1)) v1, c - 1)
    else (v1, secondChild) in
  __push_heap v2 hole topIndex value.

(** [__pop_heap(first, last, result)] with [result = last]. *)
Definition __pop_heap (v : list A) (last : nat) : list A :=
  let value := get v last in
  let v1 := set last (get v 0) v in
  __adjust_heap v1 0 last value.

(** [std::pop_heap(first, last)] *)
Definition pop_heap (v : list A) : list A :=
  if 1 <? length v then __pop_heap v (length v - 1) else v.

(** [priority_queue::push], [pop], [top], [empty].  In the source [pop]
    and [top] on an empty queue are undefined; every call of the source
    modelled below is on a non-empty queue. *)
Definition push (x : A) (c : list A) : list A := push_heap (c ++ [x]).
Definition pop (c : list A) : list A := removelast (pop_heap c).
Definition top (c : list A) : A := get c 0.
Definition empty (c : list A) : bool :=
  match c with [] => true | _ => false end.

(** Pushing a sequence in order, and popping until empty. *)
Definition push_all (xs : list A) (c : list A) : list A :=
  fold_left (fun q x => push x q) xs c.

Fixpoint drain (fuel : nat) (c : list A) : list A :=
  match fuel with
  | 0 => []
  | S fuel' => if empty c then [] else top c :: drain fuel' (pop c)
  end.

(** [std::is_heap] on the first [n] elements. *)
Definition is_heap_upto (n : nat) (v : list A) : Prop :=
  forall i, 0 < i < n -> comp (get v ((i - 1) / 2)) (get v i) = false.

Definition is_heap (v : list A) : Prop := is_heap_upto (length v) v.

End Heap.

(** [typedef std::priority_queue<VertexDetPair, std::vector<VertexDetPair>,
    abs_comparison> VertexQueue] *)
Definition VertexQueue : Type := list VertexDetPair.
Definition no_pair : VertexDetPair := (0%nat, 0%Q).
Definition vq_push : VertexDetPair -> VertexQueue -> VertexQueue :=
  push abs_comparison no_pair.
Definition vq_pop : VertexQueue -> VertexQueue := pop abs_comparison no_pair.
Definition vq_top : VertexQueue -> VertexDetPair := top no_pair.

(** The states a [VertexQueue] can be in: built from the empty queue by
    [push] and by [pop] on a non-empty queue. *)
Inductive reachable : VertexQueue -> Prop :=
| reach_empty : reachable []
| reach_push x q : reachable q -> reachable (vq_push x q)
| reach_pop q : reachable q -> q <> [] -> reachable (vq_pop q).

(** *** Vector reads and writes *)

Section VectorFacts.
Context {A : Type}.
Variable dflt : A.

Lemma length_set (i : nat) (x : A) (v : list A) :
  length (set i x v) = length v.
Proof.
  revert i; induction v as [|a r IH]; intros [|j]; simpl; auto.
Qed.

Lemma get_set_eq (i : nat) (x : A) (v : list A) :
  i < length v -> get dflt (set i x v) i = x.
Proof.
  unfold get. revert i; induction v as [|a r IH]; intros [|j] H; simpl in *;
    try lia; auto. apply IH. lia.
Qed.

Lemma get_set_neq (i j : nat) (x : A) (v : list A) :
  i <> j -> get dflt (set i x v) j = get dflt v j.
Proof.
  unfold get. revert i j; induction v as [|a r IH]; intros [|i] [|j] H;
    simpl; auto; try congruence.
Qed.

Lemma set_set (i : nat) (x y : A) (v : list A) :
  set i x (set i y v) = set i x v.
Proof.
  revert i; induction v as [|a r IH]; intros [|j]; simpl; auto.
  f_equal. apply IH.
Qed.

Lemma set_get (i : nat) (v : list A) : set i (get dflt v i) v = v.
Proof.
  unfold get. revert i; induction v as [|a r IH]; intros [|j]; simpl; auto.
  f_equal. apply IH.
Qed.

Lemma set_comm (i j : nat) (x y : A) (v : list A) :
  i <> j -> set i x (set j y v) = set j y (set i x v).
Proof.
  revert i j; induction v as [|a r IH]; intros [|i] [|j] H; simpl; auto;
    try congruence.
  f_equal. apply IH. congruence.
Qed.

Lemma get_in (i : nat) (v : list A) : i < length v -> In (get dflt v i) v.
Proof. intros H. apply nth_In. exact H. Qed.

Lemma in_get (x : A) (v : list A) :
  In x v -> exists i, i < length v /\ get dflt v i = x.
Proof. intros H. apply In_nth. exact H. Qed.

(** Taking an element out and writing another in its place. *)
Lemma perm_set (j : nat) (a : A) (v : list A) :
  j < length v ->
  Permutation (get dflt v j :: set j a v) (a :: v).
Proof.
  unfold get. revert j; induction v as [|b r IH]; intros [|j] H; simpl in *;
    try lia.
  - apply perm_swap.
  - eapply perm_trans; [apply perm_swap|].
    eapply perm_trans; [apply perm_skip, IH; lia|].
    apply perm_swap.
Qed.

(** Exchanging two cells is a permutation. *)
Lemma perm_exchange (i j : nat) (v : list A) :
  i < length v -> j < length v ->
  Permutation (set i (get dflt v j) (set j (get dflt v i) v)) v.
Proof.
  revert i j; induction v as [|a r IH]; intros i j Hi Hj; simpl in *;
    [lia|].
  destruct i as [|i], j as [|j]; simpl.
  - reflexivity.
  - change (nth j r dflt) with (get dflt r j).
    change (nth 0 (a :: r) dflt) with a. apply perm_set. lia.
  - change (nth i r dflt) with (get dflt r i).
    change (nth 0 (a :: r) dflt) with a. apply perm_set. lia.
  - apply perm_skip.
    change (nth j r dflt) with (get dflt r j).
    change (nth i r dflt) with (get dflt r i).
    apply IH; lia.
Qed.

(** Moving [v[j]] into cell [i] and [x] into cell [j]: the same elements as
    [x] written into cell [i]. *)
Lemma perm_move (i j : nat) (x : A) (v : list A) :
  i <> j -> i < length v -> j < length v ->
  Permutation (set j x (set i (get dflt v j) v)) (set i x v).
Proof.
  intros Hne Hi Hj.
  pose proof (perm_exchange j i (set i x v)) as P.
  rewrite length_set in P. specialize (P Hj Hi).
  rewrite get_set_eq in P by exact Hi.
  rewrite get_set_neq in P by exact Hne.
  rewrite set_set in P. exact P.
Qed.

End VectorFacts.

(** *** The heap invariant under [__push_heap] *)

Section HeapFacts.
Context {A : Type}.
Variable comp : A -> A -> bool.
Variable dflt : A.

(** [comp] is a strict weak ordering, as [std::priority_queue] requires. *)
Hypothesis comp_asym : forall a b, comp a b = true -> comp b a = false.
Hypothesis comp_trans :
  forall a b c, comp a b = true -> comp b c = true -> comp a c = true.
Hypothesis comp_negtrans :
  forall a b c, comp a b = false -> comp b c = false -> comp a c = false.


(** A heap on the first [n] cells but for the cell [h], whose content is
    stale: every other parent-child pair is ordered, and the children of
    [h] are ordered against the parent of [h]. *)
Definition hole_heap (n : nat) (v : list A) (h : nat) : Prop :=
  (forall i, 0 < i < n -> i <> h -> (i - 1) / 2 <> h ->
             comp (get dflt v ((i - 1) / 2)) (get dflt v i) = false) /\
  (forall i, 0 < i < n -> (i - 1) / 2 = h -> 0 < h ->
             comp (get dflt v ((h - 1) / 2)) (get dflt v i) = false).

(** [x] may be stored in cell [h]: it is not less than the children of [h]. *)
Definition above_children (n : nat) (v : list A) (h : nat) (x : A) : Prop :=
  forall i, 0 < i < n -> (i - 1) / 2 = h -> comp x (get dflt v i) = false.

Lemma heap_hole_heap (n : nat) (v : list A) (h : nat) :
  is_heap_upto comp dflt n v -> hole_heap n v h.
Proof.
  intros H. split.
  - intros i Hi _ _. apply H. exact Hi.
  - intros i Hi Hp Hh.
    apply comp_negtrans with (b := get dflt v h).
    + apply H. lia.
    + rewrite <- Hp. apply H. exact Hi.
Qed.

Lemma comp_lt_le (a b c : A) :
  comp a b = true -> comp a c = false -> comp b c = false.
Proof.
  intros Hab Hac. destruct (comp b c) eqn:E; auto.
  rewrite (comp_trans _ _ _ Hab E) in Hac. discriminate.
Qed.

Lemma push_heap_loop_length (fuel : nat) (v : list A) (h top : nat) (x : A) :
  length (push_heap_loop comp dflt fuel v h top x) = length v.
Proof.
  revert v h; induction fuel as [|f IH]; intros v h; cbn [push_heap_loop].
  - apply length_set.
  - destruct (_ && _).
    + rewrite IH. apply length_set.
    + apply length_set.
Qed.

(** Cells past the hole are left alone. *)
Lemma push_heap_loop_above (fuel : nat) (v : list A) (h top : nat) (x : A)
    (j : nat) :
  h < j -> get dflt (push_heap_loop comp dflt fuel v h top x) j = get dflt v j.
Proof.
  revert v h; induction fuel as [|f IH]; intros v h Hj; cbn [push_heap_loop].
  - apply get_set_neq. lia.
  - destruct (_ && _).
    + rewrite IH by lia. apply get_set_neq. lia.
    + apply get_set_neq. lia.
Qed.

Lemma push_heap_loop_perm (fuel : nat) (v : list A) (h top : nat) (x : A) :
  h < length v ->
  Permutation (push_heap_loop comp dflt fuel v h top x) (set h x v).
Proof.
  revert v h; induction fuel as [|f IH]; intros v h Hh; cbn [push_heap_loop].
  - reflexivity.
  - destruct ((top <? h) && comp (get dflt v ((h - 1) / 2)) x) eqn:E.
    + apply andb_prop in E. destruct E as [Ht _].
      apply Nat.ltb_lt in Ht.
      eapply perm_trans.
      * apply IH. rewrite length_set. lia.
      * apply perm_move; lia.
    + reflexivity.
Qed.

Lemma store_heap (n : nat) (v : list A) (h : nat) (x : A) :
  h < n -> n <= length v ->
  hole_heap n v h -> above_children n v h x ->
  (0 < h -> comp (get dflt v ((h - 1) / 2)) x = false) ->
  is_heap_upto comp dflt n (set h x v).
Proof.
  intros Hh Hn [H1 H2] Hc Hp i Hi.
  destruct (Nat.eq_dec i h) as [->|Ni].
  - rewrite get_set_eq by lia. rewrite get_set_neq by lia.
    apply Hp. lia.
  - rewrite (get_set_neq _ h i) by lia.
    destruct (Nat.eq_dec ((i - 1) / 2) h) as [Ep|Np].
    + rewrite Ep. rewrite get_set_eq by lia. apply Hc; assumption.
    + rewrite get_set_neq by lia. apply H1; assumption.
Qed.

Lemma push_heap_loop_heap (fuel n : nat) (v : list A) (h : nat) (x : A) :
  h <= fuel -> h < n -> n <= length v ->
  hole_heap n v h -> above_children n v h x ->
  is_heap_upto comp dflt n (push_heap_loop comp dflt fuel v h 0 x).
Proof.
  revert v h; induction fuel as [|f IH]; intros v h Hf Hh Hn HH Hc; cbn [push_heap_loop].
  - apply store_heap; auto. lia.
  - destruct ((0 <? h) && comp (get dflt v ((h - 1) / 2)) x) eqn:E.
    + apply andb_prop in E. destruct E as [Ht Hlt].
      apply Nat.ltb_lt in Ht.
      set (p := (h - 1) / 2) in *.
      assert (Hph : p < h) by (unfold p; lia).
      destruct HH as [H1 H2].
      apply IH; try lia.
      * rewrite length_set. exact Hn.
      * split.
        -- intros i Hi Nip Npp.
           destruct (Nat.eq_dec i h) as [->|Nih]; [fold p in Npp; lia|].
           rewrite (get_set_neq _ h i) by lia.
           destruct (Nat.eq_dec ((i - 1) / 2) h) as [Ep|Np].
           ++ rewrite Ep. rewrite get_set_eq by lia.
              apply H2; auto.
           ++ rewrite get_set_neq by lia. apply H1; auto.
        -- intros i Hi Ep Hp.
           rewrite (get_set_neq _ h ((p - 1) / 2)) by lia.
           assert (Hpp : comp (get dflt v ((p - 1) / 2)) (get dflt v p) = false).
           { apply H1; lia. }
           destruct (Nat.eq_dec i h) as [->|Nih].
           ++ rewrite get_set_eq by lia. exact Hpp.
           ++ rewrite get_set_neq by lia.
              apply comp_negtrans with (b := get dflt v p); [exact Hpp|].
              rewrite <- Ep. apply H1; lia.
      * intros i Hi Ep.
        destruct (Nat.eq_dec i h) as [->|Nih].
        -- rewrite get_set_eq by lia. apply comp_asym. exact Hlt.
        -- rewrite get_set_neq by lia.
           apply comp_lt_le with (a := get dflt v p); [exact Hlt|].
           rewrite <- Ep. apply H1; lia.
    + apply store_heap; auto.
      intros Hpos. apply andb_false_iff in E. destruct E as [E|E]; auto.
      apply Nat.ltb_ge in E. lia.
Qed.

(** [std::push_heap] restores the heap after [push_back]. *)
Lemma push_heap_is_heap (c : list A) (x : A) :
  is_heap comp dflt c -> is_heap comp dflt (push comp dflt x c).
Proof.
  intros H. unfold push, push_heap, is_heap.
  rewrite length_app. simpl. replace (length c + 1) with (S (length c)) by lia.
  unfold __push_heap. rewrite push_heap_loop_length.
  rewrite length_app; simpl.
  replace (length c + 1) with (S (length c)) by lia.
  apply push_heap_loop_heap; try lia.
  - rewrite length_app; simpl; lia.
  - split.
    + intros i Hi Nih Np. unfold get.
      rewrite !app_nth1 by lia. apply H. lia.
    + intros i Hi Ep Hh. lia.
  - intros i Hi Ep. lia.
Qed.

Lemma push_perm (c : list A) (x : A) :
  Permutation (push comp dflt x c) (x :: c).
Proof.
  unfold push, push_heap. rewrite length_app; simpl.
  replace (length c + 1) with (S (length c)) by lia.
  unfold __push_heap.
  eapply perm_trans.
  - apply push_heap_loop_perm. rewrite length_app; simpl; lia.
  - rewrite set_get. apply Permutation_sym, Permutation_cons_append.
Qed.

(** *** The heap invariant under [__adjust_heap] and [pop] *)

Lemma comp_irrefl (a : A) : comp a a = false.
Proof.
  destruct (comp a a) eqn:E; auto. rewrite (comp_asym _ _ E) in E.
  discriminate.
Qed.

Lemma adjust_loop_spec (fuel : nat) (v : list A) (h len : nat) :
  len - h <= fuel -> h < len -> len <= length v ->
  hole_heap len v h ->
  forall v' h', adjust_loop comp dflt fuel v h len = (v', h') ->
  length v' = length v /\ h <= h' < len /\ ~ h' < (len - 1) / 2 /\
  hole_heap len v' h' /\
  (forall x, Permutation (set h' x v') (set h x v)) /\
  (forall j, len <= j -> get dflt v' j = get dflt v j).
Proof.
  revert v h; induction fuel as [|f IH]; intros v h Hf Hh Hn HH v' h' E;
    cbn [adjust_loop] in E.
  - lia.
  - destruct (h <? (len - 1) / 2) eqn:Hc.
    + apply Nat.ltb_lt in Hc.
      set (c2 := 2 * (h + 1)) in *.
      set (c := if comp (get dflt v c2) (get dflt v (c2 - 1))
                then c2 - 1 else c2) in *.
      assert (Hc2 : c2 < len) by (unfold c2; lia).
      assert (Hcc : (c = c2 - 1 /\
                     comp (get dflt v c2) (get dflt v (c2 - 1)) = true) \/
                    (c = c2 /\
                     comp (get dflt v c2) (get dflt v (c2 - 1)) = false)).
      { unfold c. destruct (comp _ _); auto. }
      assert (Hcr : h < c < len /\ (c - 1) / 2 = h).
      { unfold c2 in *. destruct Hcc as [[-> _]|[-> _]]; lia. }
      destruct HH as [H1 H2].
      apply IH in E; try lia.
      * destruct E as (El & Eh & Ex & EH & EP & Ej).
        rewrite length_set in El.
        split; [exact El|]. split; [lia|]. split; [exact Ex|].
        split; [exact EH|]. split.
        -- intros x. eapply perm_trans; [apply EP|].
           apply perm_move; lia.
        -- intros j Hj. rewrite Ej by exact Hj.
           apply get_set_neq. lia.
      * rewrite length_set. exact Hn.
      * split.
        -- intros i Hi Nic Npc.
           destruct (Nat.eq_dec i h) as [->|Nih].
           ++ rewrite get_set_eq by lia. rewrite get_set_neq by lia.
              apply H2; lia.
           ++ rewrite (get_set_neq _ h i) by lia.
              destruct (Nat.eq_dec ((i - 1) / 2) h) as [Ep|Np].
              ** rewrite Ep. rewrite get_set_eq by lia.
                 unfold c2 in *.
                 destruct Hcc as [[Ec Hlt]|[Ec Hge]].
                 --- assert (i = 2 * (h + 1)) by lia. subst i. rewrite Ec.
                     apply comp_asym. exact Hlt.
                 --- assert (i = 2 * (h + 1) - 1) by lia. subst i.
                     rewrite Ec. exact Hge.
              ** rewrite get_set_neq by lia. apply H1; auto.
        -- intros i Hi Ep Hpos.
           replace ((c - 1) / 2) with h by lia.
           rewrite get_set_eq by lia. rewrite get_set_neq by lia.
           rewrite <- Ep. apply H1; lia.
    + inversion E; subst v' h'. apply Nat.ltb_ge in Hc.
      repeat split; try lia; try apply HH; auto.
Qed.

Lemma adjust_heap_spec (v : list A) (len : nat) (x : A) :
  1 <= len -> len <= length v -> is_heap_upto comp dflt len v ->
  is_heap_upto comp dflt len (__adjust_heap comp dflt v 0 len x) /\
  Permutation (__adjust_heap comp dflt v 0 len x) (set 0 x v) /\
  length (__adjust_heap comp dflt v 0 len x) = length v /\
  (forall j, len <= j ->
             get dflt (__adjust_heap comp dflt v 0 len x) j = get dflt v j).
Proof.
  intros Hl Hn Hheap. unfold __adjust_heap.
  destruct (adjust_loop comp dflt len v 0 len) as [v1 sc] eqn:E.
  apply adjust_loop_spec in E; try lia; [|apply heap_hole_heap; exact Hheap].
  destruct E as (El & Eh & Ex & [H1 H2] & EP & Ej).
  destruct (Nat.even len && (sc =? (len - 2) / 2)) eqn:Ec.
  - apply andb_prop in Ec. destruct Ec as [Ev Es].
    apply Nat.eqb_eq in Es. apply Nat.even_spec in Ev.
    destruct Ev as [k Hk].
    set (c := 2 * (sc + 1) - 1).
    assert (Hc : sc < c /\ c = len - 1 /\ (c - 1) / 2 = sc) by (unfold c; lia).
    unfold __push_heap.
    split; [|split; [|split]].
    + apply push_heap_loop_heap; try lia.
      * rewrite length_set. lia.
      * split.
        -- intros i Hi Nic Npc.
           destruct (Nat.eq_dec i sc) as [->|Nis].
           ++ rewrite get_set_eq by lia. rewrite get_set_neq by lia.
              apply H2; lia.
           ++ rewrite (get_set_neq _ sc i) by lia.
              assert ((i - 1) / 2 <> sc) by lia.
              rewrite get_set_neq by lia. apply H1; auto.
        -- intros i Hi Ep Hpos. lia.
      * intros i Hi Ep. lia.
    + eapply perm_trans.
      * apply push_heap_loop_perm. rewrite length_set. lia.
      * eapply perm_trans; [apply perm_move; lia|]. apply EP.
    + rewrite push_heap_loop_length, length_set. exact El.
    + intros j Hj. rewrite push_heap_loop_above by lia.
      rewrite get_set_neq by lia. apply Ej. exact Hj.
  - assert (Hleaf : forall i, 0 < i < len -> (i - 1) / 2 <> sc).
    { intros i Hi Ep. apply andb_false_iff in Ec.
      destruct Ec as [Ev|Es].
      - assert (Ho : Nat.odd len = true).
        { rewrite <- Nat.negb_even, Ev. reflexivity. }
        apply Nat.odd_spec in Ho. destruct Ho as [k Hk]. lia.
      - apply Nat.eqb_neq in Es.
        destruct (Nat.even len) eqn:Ev.
        + apply Nat.even_spec in Ev. destruct Ev as [k Hk]. lia.
        + assert (Ho : Nat.odd len = true).
          { rewrite <- Nat.negb_even, Ev. reflexivity. }
          apply Nat.odd_spec in Ho. destruct Ho as [k Hk]. lia. }
    unfold __push_heap.
    split; [|split; [|split]].
    + apply push_heap_loop_heap; try lia.
      * split; assumption.
      * intros i Hi Ep. exfalso. apply (Hleaf i Hi Ep).
    + eapply perm_trans; [apply push_heap_loop_perm; lia|]. apply EP.
    + rewrite push_heap_loop_length. exact El.
    + intros j Hj. rewrite push_heap_loop_above by lia. apply Ej. exact Hj.
Qed.

Lemma removelast_get (r : list A) (i : nat) :
  i < length r - 1 -> get dflt (removelast r) i = get dflt r i.
Proof.
  unfold get. revert i; induction r as [|a r IH]; intros i Hi; simpl in *.
  - lia.
  - destruct r as [|b r]; [simpl in Hi; lia|].
    destruct i as [|i]; [reflexivity|].
    cbn [nth]. apply IH. simpl in *. lia.
Qed.

Lemma removelast_length (r : list A) : length (removelast r) = length r - 1.
Proof.
  induction r as [|a r IH]; simpl; auto.
  destruct r as [|b r]; simpl in *; auto. lia.
Qed.

Lemma last_get (r : list A) : last r dflt = get dflt r (length r - 1).
Proof.
  unfold get. induction r as [|a r IH]; [reflexivity|].
  destruct r as [|b r]; [reflexivity|].
  change (last (a :: b :: r) dflt) with (last (b :: r) dflt).
  rewrite IH. simpl length.
  replace (S (S (length r)) - 1) with (S (S (length r) - 1)) by lia.
  reflexivity.
Qed.

Lemma removelast_perm (r : list A) :
  r <> [] -> Permutation (get dflt r (length r - 1) :: removelast r) r.
Proof.
  intros Hr. rewrite <- last_get.
  pose proof (app_removelast_last dflt Hr) as E.
  eapply perm_trans; [apply Permutation_cons_append|].
  rewrite <- E. reflexivity.
Qed.

Lemma pop_spec (c : list A) :
  c <> [] -> is_heap comp dflt c ->
  is_heap comp dflt (pop comp dflt c) /\
  Permutation (top dflt c :: pop comp dflt c) c.
Proof.
  intros Hc Hheap. unfold pop, pop_heap, top.
  destruct (1 <? length c) eqn:E.
  - apply Nat.ltb_lt in E. unfold __pop_heap.
    set (last := length c - 1).
    set (v1 := set last (get dflt c 0) c).
    assert (Hv1 : is_heap_upto comp dflt last v1).
    { intros i Hi. unfold v1. rewrite !get_set_neq by lia.
      apply Hheap. lia. }
    destruct (adjust_heap_spec v1 last (get dflt c last))
      as (Hh & Hp & Hl & Hj); try (unfold last; lia); auto.
    { unfold v1. rewrite length_set. unfold last. lia. }
    set (r := __adjust_heap comp dflt v1 0 last (get dflt c last)) in *.
    assert (Hlen : length r = length c).
    { rewrite Hl. unfold v1. apply length_set. }
    split.
    + unfold is_heap. rewrite removelast_length, Hlen. fold last.
      intros i Hi. rewrite !removelast_get by lia. apply Hh. exact Hi.
    + assert (Hr : r <> []).
      { intros Hr. rewrite Hr in Hlen. simpl in Hlen. lia. }
      pose proof (removelast_perm r Hr) as P.
      rewrite Hlen in P. fold last in P.
      rewrite Hj in P by lia. unfold v1 in P.
      rewrite get_set_eq in P by (unfold last; lia).
      eapply perm_trans; [exact P|].
      eapply perm_trans; [exact Hp|].
      unfold v1. apply perm_exchange; unfold last; lia.
  - apply Nat.ltb_ge in E.
    destruct c as [|a [|b c]]; simpl in *; try congruence; try lia.
    split; [intros i Hi; simpl in Hi; lia|reflexivity].
Qed.

(** The front of a heap is not less than any element. *)
Lemma heap_top_max (v : list A) :
  is_heap comp dflt v ->
  forall x, In x v -> comp (top dflt v) x = false.
Proof.
  intros Hheap x Hx. apply (in_get dflt) in Hx. destruct Hx as (i & Hi & <-).
  unfold top. induction i as [i IH] using lt_wf_ind.
  destruct (Nat.eq_dec i 0) as [->|Ni]; [apply comp_irrefl|].
  apply comp_negtrans with (b := get dflt v ((i - 1) / 2)).
  - apply IH; lia.
  - apply Hheap. lia.
Qed.

End HeapFacts.

(** *** [abs_comparison] is a strict weak ordering *)

Lemma Qltb_lt (a b : Q) : Qltb a b = true <-> (a < b)%Q.
Proof.
  unfold Qltb. rewrite negb_true_iff. split.
  - intros H. apply Qnot_le_lt. intros Hle.
    apply Qle_bool_iff in Hle. congruence.
  - intros H. destruct (Qle_bool b a) eqn:E; auto.
    apply Qle_bool_iff in E. exfalso. exact (Qlt_not_le _ _ H E).
Qed.

Lemma Qltb_ge (a b : Q) : Qltb a b = false <-> (b <= a)%Q.
Proof.
  unfold Qltb. rewrite negb_false_iff. apply Qle_bool_iff.
Qed.

Lemma abs_comparison_asym (a b : VertexDetPair) :
  abs_comparison a b = true -> abs_comparison b a = false.
Proof.
  unfold abs_comparison. rewrite Qltb_lt, Qltb_ge. apply Qlt_le_weak.
Qed.

Lemma abs_comparison_trans (a b c : VertexDetPair) :
  abs_comparison a b = true -> abs_comparison b c = true ->
  abs_comparison a c = true.
Proof. unfold abs_comparison. rewrite !Qltb_lt. apply Qlt_trans. Qed.

Lemma abs_comparison_negtrans (a b c : VertexDetPair) :
  abs_comparison a b = false -> abs_comparison b c = false ->
  abs_comparison a c = false.
Proof.
  unfold abs_comparison. rewrite !Qltb_ge. intros H1 H2.
  eapply Qle_trans; eassumption.
Qed.

Lemma reachable_is_heap (q : VertexQueue) :
  reachable q -> is_heap abs_comparison no_pair q.
Proof.
  induction 1 as [|x q _ IH|q _ IH Hq].
  - intros i Hi. simpl in Hi. lia.
  - exact (push_heap_is_heap abs_comparison no_pair abs_comparison_asym
             abs_comparison_trans abs_comparison_negtrans q x IH).
  - exact (proj1 (pop_spec abs_comparison no_pair abs_comparison_asym
                    abs_comparison_trans abs_comparison_negtrans q Hq IH)).
Qed.

(** The reading of C2 on ties: when all magnitudes are equal, the queue
    would give the vertices back in the order they were pushed. *)
Definition pops_ties_in_push_order : Prop :=
  forall xs : list VertexDetPair,
    (forall x y, In x xs -> In y xs -> Qabs (snd x) == Qabs (snd y)) ->
    drain abs_comparison no_pair (length xs)
          (push_all abs_comparison no_pair xs []) = xs.

(** C2, as stated, fails on ties: four vertices of magnitude 1 pushed in
    the order 1, 2, 3, 4 are popped in the order 1, 3, 2, 4. *)
Lemma vertex_queue_ties_not_in_push_order : ~ pops_ties_in_push_order.
Proof.
  intros H.
  specialize (H [(1, 1%Q); (2, (-1)%Q); (3, 1%Q); (4, 1%Q)]).
  assert (E : drain abs_comparison no_pair 4
                (push_all abs_comparison no_pair
                   [(1, 1%Q); (2, (-1)%Q); (3, 1%Q); (4, 1%Q)] [])
              = [(1, 1%Q); (3, 1%Q); (2, (-1)%Q); (4, 1%Q)])
    by (vm_compute; reflexivity).
  simpl length in H. rewrite E in H.
  assert (Hk : forall x y : VertexDetPair,
             In x [(1, 1%Q); (2, (-1)%Q); (3, 1%Q); (4, 1%Q)] ->
             In y [(1, 1%Q); (2, (-1)%Q); (3, 1%Q); (4, 1%Q)] ->
             Qabs (snd x) == Qabs (snd y)).
  { intros x y Hx Hy. simpl in Hx, Hy.
    repeat (destruct Hx as [<-|Hx]; [|]);
      repeat (destruct Hy as [<-|Hy]; [|]);
      try contradiction; reflexivity. }
  specialize (H Hk). discriminate H.
Qed.

(** C2 (amended): in every state of the queue, the vertex popped next
    ([top]) is a queued vertex whose in-circle value has maximal absolute
    value among all queued vertices; [pop] removes exactly that entry and
    [push] adds exactly the pushed entry.  The order among entries of equal
    magnitude is the one the binary heap yields. *)
Theorem vertex_queue_pops_max_abs (q : VertexQueue) :
  reachable q -> q <> [] ->
  In (vq_top q) q /\
  (forall x, In x q -> (Qabs (snd x) <= Qabs (snd (vq_top q)))%Q) /\
  Permutation (vq_top q :: vq_pop q) q /\
  (forall x, Permutation (vq_push x q) (x :: q)).
Proof.
  intros Hr Hq. pose proof (reachable_is_heap q Hr) as Hh.
  split; [|split; [|split]].
  - unfold vq_top, top. apply get_in. destruct q; [congruence|simpl; lia].
  - intros x Hx. apply Qltb_ge.
    apply (heap_top_max abs_comparison no_pair
             abs_comparison_asym abs_comparison_negtrans q Hh x Hx).
  - exact (proj2 (pop_spec abs_comparison no_pair abs_comparison_asym
                    abs_comparison_trans abs_comparison_negtrans q Hq Hh)).
  - intros x. apply push_perm.
Qed.

Lemma vertex_queue_pops_max_abs_witness :
  let q := vq_push (3, (-7)%Q) (vq_push (2, 5%Q) (vq_push (1, 1%Q) [])) in
  (reachable q /\ q <> []) /\
  In (vq_top q) q /\
  (forall x, In x q -> (Qabs (snd x) <= Qabs (snd (vq_top q)))%Q) /\
  Permutation (vq_top q :: vq_pop q) q /\
  (forall x, Permutation (vq_push x q) (x :: q)).
Proof.
  intros q.
  assert (Hr : reachable q) by (repeat constructor).
  assert (Hq : q <> []) by (vm_compute; discriminate).
  split; [split; assumption|].
  exact (vertex_queue_pops_max_abs q Hr Hq).
Defined.

(** *** Further properties of [abs_comparison] and [VertexQueue] *)

(** [n] calls of [pop]. *)
Definition pops (n : nat) (q : VertexQueue) : VertexQueue :=
  Nat.iter n vq_pop q.

(** The magnitude [fabs(x.second)] the queue is ordered by. *)
Definition magnitude (x : VertexDetPair) : Q := Qabs (snd x).

(** [y] does not come before [x] in decreasing order of magnitude. *)
Definition mag_ge (x y : VertexDetPair) : Prop :=
  (magnitude y <= magnitude x)%Q.

Section SizeFacts.
Context {A : Type}.
Variable comp : A -> A -> bool.
Variable dflt : A.

Lemma adjust_loop_length (fuel : nat) (v : list A) (h len : nat) :
  length (fst (adjust_loop comp dflt fuel v h len)) = length v.
Proof.
  revert v h. induction fuel as [|fuel IH]; intros v h; [reflexivity|].
  cbn [adjust_loop]. destruct (h <? (len - 1) / 2); [|reflexivity].
  cbv zeta. rewrite IH. apply length_set.
Qed.

Lemma pop_heap_length (c : list A) :
  length (pop_heap comp dflt c) = length c.
Proof.
  unfold pop_heap. destruct (1 <? length c); [|reflexivity].
  unfold __pop_heap, __adjust_heap. cbv zeta.
  pose proof (adjust_loop_length (length c - 1)
                (set (length c - 1) (get dflt c 0) c) 0 (length c - 1)) as L.
  destruct (adjust_loop comp dflt (length c - 1)
              (set (length c - 1) (get dflt c 0) c) 0 (length c - 1))
    as [v1 s]. simpl in L. rewrite length_set in L.
  destruct (Nat.even (length c - 1) && (s =? (length c - 1 - 2) / 2));
    unfold __push_heap; rewrite push_heap_loop_length;
    rewrite ?length_set; exact L.
Qed.

Lemma pop_length (c : list A) :
  length (pop comp dflt c) = length c - 1.
Proof.
  unfold pop. pose proof (pop_heap_length c) as L.
  destruct (pop_heap comp dflt c) as [|a r] using rev_ind.
  - simpl in *. lia.
  - rewrite removelast_last. rewrite length_app in L. simpl in L. lia.
Qed.

Lemma push_length (x : A) (c : list A) :
  length (push comp dflt x c) = S (length c).
Proof.
  apply eq_trans with (length (x :: c)); [|reflexivity].
  apply Permutation_length, push_perm.
Qed.

(** The loop of [__push_heap] does not write the root while the root does
    not compare less than the value on its way up. *)
Lemma push_heap_loop_root (fuel : nat) (v : list A) (h : nat) (x : A) :
  0 < h -> comp (get dflt v 0) x = false ->
  get dflt (push_heap_loop comp dflt fuel v h 0 x) 0 = get dflt v 0.
Proof.
  revert v h. induction fuel as [|fuel IH]; intros v h Hh Hc.
  - cbn [push_heap_loop]. apply get_set_neq. lia.
  - cbn [push_heap_loop].
    destruct ((0 <? h) && comp (get dflt v ((h - 1) / 2)) x) eqn:E.
    + apply andb_true_iff in E as [_ E].
      assert (Hp : 0 < (h - 1) / 2).
      { destruct ((h - 1) / 2) eqn:P; [congruence|lia]. }
      assert (G : get dflt (set h (get dflt v ((h - 1) / 2)) v) 0
                  = get dflt v 0) by (apply get_set_neq; lia).
      rewrite IH; [exact G|exact Hp|rewrite G; exact Hc].
    + apply get_set_neq. lia.
Qed.

End SizeFacts.

(** [abs_comparison] is a strict weak ordering, as [std::priority_queue]
    asks of its [Compare]: irreflexive, transitive, with a transitive
    incomparability.  Two entries are incomparable exactly when their values
    have the same absolute value, so the vertex handle and the sign of the
    value play no part in the order. *)
Theorem abs_comparison_strict_weak_order :
  (forall a, abs_comparison a a = false) /\
  (forall a b c, abs_comparison a b = true -> abs_comparison b c = true ->
                 abs_comparison a c = true) /\
  (forall a b c, abs_comparison a b = false -> abs_comparison b c = false ->
                 abs_comparison a c = false) /\
  (forall a b, abs_comparison a b = false /\ abs_comparison b a = false <->
               magnitude a == magnitude b) /\
  (forall v w h b, abs_comparison (v, h) b = abs_comparison (w, - h) b /\
                   abs_comparison b (v, h) = abs_comparison b (w, - h)).
Proof.
  split; [|split; [|split; [|split]]].
  - intros a. unfold abs_comparison. apply Qltb_ge. apply Qle_refl.
  - exact abs_comparison_trans.
  - exact abs_comparison_negtrans.
  - intros a b. unfold abs_comparison, magnitude. rewrite !Qltb_ge. split.
    + intros [H1 H2]. apply Qle_antisym; assumption.
    + intros H. rewrite H. split; apply Qle_refl.
  - intros v w h b. unfold abs_comparison. simpl snd.
    assert (E : Qabs (- h) = Qabs h).
    { destruct h as [n d]. unfold Qabs, Qopp. simpl.
      rewrite Z.abs_opp. reflexivity. }
    rewrite E. split; reflexivity.
Qed.

Lemma abs_comparison_strict_weak_order_witness :
  abs_comparison (1, 1%Q) (1, 1%Q) = false /\
  ((abs_comparison (1, 1%Q) (2, (-3)%Q) = true /\
    abs_comparison (2, (-3)%Q) (3, 5%Q) = true) /\
   abs_comparison (1, 1%Q) (3, 5%Q) = true) /\
  ((abs_comparison (3, 5%Q) (2, 3%Q) = false /\
    abs_comparison (2, 3%Q) (1, (-3)%Q) = false) /\
   abs_comparison (3, 5%Q) (1, (-3)%Q) = false) /\
  (abs_comparison (2, 3%Q) (1, (-3)%Q) = false /\
   abs_comparison (1, (-3)%Q) (2, 3%Q) = false <->
   magnitude (2, 3%Q) == magnitude (1, (-3)%Q)).
Proof.
  destruct abs_comparison_strict_weak_order as (Hi & Ht & Hn & He & _).
  assert (H1 : abs_comparison (1, 1%Q) (2, (-3)%Q) = true) by reflexivity.
  assert (H2 : abs_comparison (2, (-3)%Q) (3, 5%Q) = true) by reflexivity.
  assert (H3 : abs_comparison (3, 5%Q) (2, 3%Q) = false) by reflexivity.
  assert (H4 : abs_comparison (2, 3%Q) (1, (-3)%Q) = false) by reflexivity.
  split; [apply Hi|].
  split; [split; [split; assumption|exact (Ht _ _ _ H1 H2)]|].
  split; [split; [split; assumption|exact (Hn _ _ _ H3 H4)]|].
  apply He.
Defined.

(** In every state of the queue the vector is a binary max-heap under the
    magnitude: the entry at index [i > 0] is not larger in magnitude than
    the entry at its parent index [(i-1)/2]. *)
Theorem vertex_queue_heap_invariant (q : VertexQueue) :
  reachable q ->
  forall i, 0 < i < length q ->
            mag_ge (nth ((i - 1) / 2) q no_pair) (nth i q no_pair).
Proof.
  intros Hr i Hi. unfold mag_ge, magnitude. apply Qltb_ge.
  exact (reachable_is_heap q Hr i Hi).
Qed.

Lemma vertex_queue_heap_invariant_witness :
  let q := vq_pop (vq_push (4, 2%Q) (vq_push (3, (-7)%Q)
             (vq_push (2, 5%Q) (vq_push (1, 1%Q) [])))) in
  reachable q /\
  forall i, 0 < i < length q ->
            mag_ge (nth ((i - 1) / 2) q no_pair) (nth i q no_pair).
Proof.
  intros q.
  assert (Hr : reachable q).
  { apply reach_pop; [repeat constructor|vm_compute; discriminate]. }
  split; [exact Hr|].
  exact (vertex_queue_heap_invariant q Hr).
Defined.

Lemma drain_sorted (n : nat) (q : VertexQueue) :
  reachable q -> length q = n ->
  Permutation (drain abs_comparison no_pair n q) q /\
  StronglySorted mag_ge (drain abs_comparison no_pair n q).
Proof.
  revert q. induction n as [|n IH]; intros q Hr Hl.
  - destruct q; [|discriminate]. split; constructor.
  - assert (Hq : q <> []) by (destruct q; [discriminate|congruence]).
    pose proof (reachable_is_heap q Hr) as Hh.
    pose proof (proj2 (pop_spec abs_comparison no_pair abs_comparison_asym
                         abs_comparison_trans abs_comparison_negtrans
                         q Hq Hh)) as P.
    assert (Hl' : length (pop abs_comparison no_pair q) = n).
    { rewrite pop_length. lia. }
    destruct (IH (pop abs_comparison no_pair q) (reach_pop q Hr Hq) Hl')
      as [Pd Sd].
    cbn [drain]. destruct q as [|a r] eqn:Eq; [congruence|]. cbn [empty].
    rewrite <- Eq in *. split.
    + apply Permutation_trans with (top no_pair q :: pop abs_comparison no_pair q);
        [apply perm_skip; exact Pd|exact P].
    + constructor; [exact Sd|]. apply Forall_forall. intros y Hy.
      unfold mag_ge, magnitude. apply Qltb_ge.
      apply (heap_top_max abs_comparison no_pair
               abs_comparison_asym abs_comparison_negtrans q Hh y).
      apply (Permutation_in y P). right.
      apply (Permutation_in y Pd). exact Hy.
Qed.

(** Popping a queue until it is empty gives every queued entry exactly
    once, in non-increasing order of magnitude: the vertices with the
    largest absolute in-circle value are processed first. *)
Theorem vertex_queue_drains_in_decreasing_magnitude (q : VertexQueue) :
  reachable q ->
  Permutation (drain abs_comparison no_pair (length q) q) q /\
  StronglySorted mag_ge (drain abs_comparison no_pair (length q) q).
Proof. intros Hr. apply drain_sorted; [exact Hr|reflexivity]. Qed.

Lemma vertex_queue_drains_in_decreasing_magnitude_witness :
  let q := vq_push (4, 2%Q) (vq_push (3, (-7)%Q)
             (vq_push (2, 5%Q) (vq_push (1, 1%Q) []))) in
  reachable q /\
  Permutation (drain abs_comparison no_pair (length q) q) q /\
  StronglySorted mag_ge (drain abs_comparison no_pair (length q) q).
Proof.
  intros q.
  assert (Hr : reachable q) by (repeat constructor).
  split; [exact Hr|].
  exact (vertex_queue_drains_in_decreasing_magnitude q Hr).
Defined.

(** Pushing an entry whose magnitude does not exceed that of the current
    top leaves the top in place: an entry that ties with the top never
    displaces it. *)
Theorem vertex_queue_push_keeps_top (q : VertexQueue) (x : VertexDetPair) :
  q <> [] -> mag_ge (vq_top q) x ->
  vq_top (vq_push x q) = vq_top q.
Proof.
  intros Hq Hm. unfold mag_ge, magnitude in Hm. apply Qltb_ge in Hm.
  unfold vq_top, top, vq_push, push, push_heap.
  rewrite length_app, Nat.add_comm. cbn [length Nat.add].
  unfold __push_heap.
  assert (G0 : get no_pair (q ++ [x]) 0 = get no_pair q 0).
  { destruct q; [congruence|reflexivity]. }
  assert (Gn : get no_pair (q ++ [x]) (length q) = x).
  { unfold get. rewrite app_nth2, Nat.sub_diag; [reflexivity|lia]. }
  rewrite Gn, push_heap_loop_root; [exact G0| |rewrite G0; exact Hm].
  destruct q; [congruence|simpl; lia].
Qed.

Lemma vertex_queue_push_keeps_top_witness :
  let q := vq_push (2, 5%Q) (vq_push (1, 1%Q) []) in
  (q <> [] /\ mag_ge (vq_top q) (3, (-5)%Q)) /\
  vq_top (vq_push (3, (-5)%Q) q) = vq_top q.
Proof.
  intros q.
  assert (Hq : q <> []) by (vm_compute; discriminate).
  assert (Hm : mag_ge (vq_top q) (3, (-5)%Q)).
  { vm_compute. discriminate. }
  split; [split; assumption|].
  exact (vertex_queue_push_keeps_top q (3, (-5)%Q) Hq Hm).
Defined.

(** Pushing an entry of strictly larger magnitude than every queued entry
    makes it the top, and popping it again leaves exactly the entries that
    were queued before. *)
Theorem vertex_queue_push_max_then_pop (q : VertexQueue) (x : VertexDetPair) :
  reachable q ->
  (forall y, In y q -> (magnitude y < magnitude x)%Q) ->
  vq_top (vq_push x q) = x /\ Permutation (vq_pop (vq_push x q)) q.
Proof.
  intros Hr Hmax.
  pose proof (push_perm abs_comparison no_pair q x) as Pp.
  fold (vq_push x q) in Pp.
  assert (Hr' : reachable (vq_push x q)) by (constructor; exact Hr).
  assert (Hq' : vq_push x q <> []).
  { intros E. rewrite E in Pp. apply Permutation_nil in Pp. discriminate. }
  pose proof (reachable_is_heap _ Hr') as Hh.
  pose proof (proj2 (pop_spec abs_comparison no_pair abs_comparison_asym
                       abs_comparison_trans abs_comparison_negtrans
                       _ Hq' Hh)) as P.
  assert (Ht : vq_top (vq_push x q) = x).
  { assert (Hin : In (vq_top (vq_push x q)) (x :: q)).
    { apply (Permutation_in _ Pp). unfold vq_top, top. apply get_in.
      destruct (vq_push x q); [congruence|simpl; lia]. }
    destruct Hin as [E|Hin]; [symmetry; exact E|].
    exfalso. apply Hmax in Hin. apply Qltb_lt in Hin.
    assert (Hx : In x (vq_push x q)).
    { apply (Permutation_in x (Permutation_sym Pp)). left. reflexivity. }
    pose proof (heap_top_max abs_comparison no_pair abs_comparison_asym
                  abs_comparison_negtrans _ Hh x Hx) as Hf.
    unfold abs_comparison, magnitude, vq_top in *. congruence. }
  split; [exact Ht|].
  apply (Permutation_cons_inv (a := x)).
  apply Permutation_trans with (vq_push x q); [|exact Pp].
  rewrite <- Ht at 1. exact P.
Qed.

Lemma vertex_queue_push_max_then_pop_witness :
  let q := vq_push (2, 5%Q) (vq_push (1, 1%Q) []) in
  (reachable q /\
   (forall y, In y q -> (magnitude y < magnitude (3%nat, (-7)%Q))%Q)) /\
  vq_top (vq_push (3, (-7)%Q) q) = (3, (-7)%Q) /\
  Permutation (vq_pop (vq_push (3, (-7)%Q) q)) q.
Proof.
  intros q.
  assert (Hr : reachable q) by (repeat constructor).
  assert (Hm : forall y, In y q -> (magnitude y < magnitude (3%nat, (-7)%Q))%Q).
  { intros y Hy. vm_compute in Hy.
    destruct Hy as [<-|[<-|[]]]; vm_compute; reflexivity. }
  split; [split; assumption|].
  exact (vertex_queue_push_max_then_pop q (3, (-7)%Q) Hr Hm).
Defined.

(** The size of the queue, in any state of the vector: [push] adds one
    entry; [n] calls of [pop], for [n] no larger than the number of entries
    (so that no call meets an empty queue), remove [n] entries; the queue
    is empty after as many pops as it has entries. *)
Theorem vertex_queue_size (q : VertexQueue) (x : VertexDetPair) (n : nat) :
  n <= length q ->
  length (vq_push x q) = S (length q) /\
  length (pops n q) = length q - n /\
  (forall k, k < n -> pops k q <> []) /\
  pops (length q) q = [].
Proof.
  intros Hn.
  assert (L : forall k, length (pops k q) = length q - k).
  { induction k as [|k IH]; [simpl; lia|].
    change (pops (S k) q) with (vq_pop (pops k q)).
    unfold vq_pop. rewrite pop_length, IH. lia. }
  split; [apply push_length|]. split; [apply L|]. split.
  - intros k Hk E. apply (f_equal (@length _)) in E.
    rewrite L in E. simpl in E. lia.
  - apply length_zero_iff_nil. rewrite L. lia.
Qed.

Lemma vertex_queue_size_witness :
  let q := vq_push (3, (-7)%Q) (vq_push (2, 5%Q) (vq_push (1, 1%Q) [])) in
  2 <= length q /\
  length (vq_push (4, 2%Q) q) = S (length q) /\
  length (pops 2 q) = length q - 2 /\
  (forall k, k < 2 -> pops k q <> []) /\
  pops (length q) q = [].
Proof.
  intros q.
  assert (H : 2 <= length q) by (vm_compute; lia).
  split; [exact H|].
  exact (vertex_queue_size q (4, 2%Q) 2 H).
Defined.

(** *** The pop order is fixed by the queued entries, up to ties *)

Lemma sorted_perm_unique {A : Type} (R : A -> A -> Prop) (l1 l2 : list A) :
  (forall x y, In x l1 -> In y l1 -> R x y -> R y x -> x = y) ->
  StronglySorted R l1 -> StronglySorted R l2 -> Permutation l1 l2 ->
  l1 = l2.
Proof.
  revert l2. induction l1 as [|a l1 IH]; intros l2 Hanti S1 S2 P.
  - apply Permutation_nil in P. symmetry. exact P.
  - destruct l2 as [|b l2].
    { apply Permutation_sym, Permutation_nil in P. discriminate. }
    apply StronglySorted_inv in S1 as [S1 F1].
    apply StronglySorted_inv in S2 as [S2 F2].
    rewrite Forall_forall in F1, F2.
    assert (E : a = b).
    { assert (Ia : In a (b :: l2))
        by (apply (Permutation_in a P); left; reflexivity).
      assert (Ib : In b (a :: l1))
        by (apply (Permutation_in b (Permutation_sym P)); left; reflexivity).
      destruct Ia as [Ia|Ia]; [symmetry; exact Ia|].
      destruct (Ib) as [Ib'|Ib']; [exact Ib'|].
      apply Hanti; [left; reflexivity|exact Ib|apply F1; exact Ib'|
                    apply F2; exact Ia]. }
    subst b. f_equal. apply IH; try assumption.
    + intros x y Hx Hy. apply Hanti; right; assumption.
    + exact (Permutation_cons_inv P).
Qed.

Lemma sorted_map {A B : Type} (f : A -> B) (R1 : A -> A -> Prop)
    (R : B -> B -> Prop) (l : list A) :
  (forall x y, R1 x y -> R (f x) (f y)) ->
  StronglySorted R1 l -> StronglySorted R (map f l).
Proof.
  intros Himp. induction 1 as [|a l S IH F]; simpl; constructor; [exact IH|].
  rewrite Forall_forall in *. intros y Hy.
  apply in_map_iff in Hy as [x [<- Hx]]. apply Himp, F. exact Hx.
Qed.

Lemma map_eq_Forall2 {A B : Type} (f : A -> B) (l1 l2 : list A) :
  map f l1 = map f l2 -> Forall2 (fun a b => f a = f b) l1 l2.
Proof.
  revert l2. induction l1 as [|a l1 IH]; intros [|b l2] E;
    try discriminate; constructor.
  - injection E as E _. exact E.
  - apply IH. injection E as _ E. exact E.
Qed.

Lemma drains_permuted (q1 q2 : VertexQueue) :
  reachable q1 -> reachable q2 -> Permutation q1 q2 ->
  Permutation (drain abs_comparison no_pair (length q1) q1)
              (drain abs_comparison no_pair (length q2) q2).
Proof.
  intros H1 H2 P.
  destruct (drain_sorted (length q1) q1 H1 eq_refl) as [P1 _].
  destruct (drain_sorted (length q2) q2 H2 eq_refl) as [P2 _].
  apply Permutation_trans with q1; [exact P1|].
  apply Permutation_trans with q2; [exact P|].
  apply Permutation_sym. exact P2.
Qed.

(** When no two queued entries have the same magnitude, the pop sequence
    is the same for every queue holding these entries, whatever the pushes
    and pops that built it. *)
Theorem vertex_queue_order_unique_without_ties (q1 q2 : VertexQueue) :
  reachable q1 -> reachable q2 -> Permutation q1 q2 ->
  (forall x y, In x q1 -> In y q1 -> magnitude x == magnitude y -> x = y) ->
  drain abs_comparison no_pair (length q1) q1 =
  drain abs_comparison no_pair (length q2) q2.
Proof.
  intros H1 H2 P Hinj.
  destruct (drain_sorted (length q1) q1 H1 eq_refl) as [P1 S1].
  destruct (drain_sorted (length q2) q2 H2 eq_refl) as [_ S2].
  apply (sorted_perm_unique mag_ge); try assumption.
  - intros x y Hx Hy Hxy Hyx.
    apply Hinj; [apply (Permutation_in x P1 Hx)|
                 apply (Permutation_in y P1 Hy)|].
    unfold mag_ge in *. apply Qle_antisym; assumption.
  - apply drains_permuted; assumption.
Qed.

Lemma vertex_queue_order_unique_without_ties_witness :
  let q1 := vq_push (3, (-7)%Q) (vq_push (2, 5%Q) (vq_push (1, 1%Q) [])) in
  let q2 := vq_push (1, 1%Q) (vq_push (3, (-7)%Q) (vq_push (2, 5%Q) [])) in
  (reachable q1 /\ reachable q2 /\ Permutation q1 q2 /\
   (forall x y, In x q1 -> In y q1 -> magnitude x == magnitude y -> x = y)) /\
  drain abs_comparison no_pair (length q1) q1 =
  drain abs_comparison no_pair (length q2) q2.
Proof.
  intros q1 q2.
  assert (H1 : reachable q1) by (repeat constructor).
  assert (H2 : reachable q2) by (repeat constructor).
  assert (P : Permutation q1 q2).
  { vm_compute. apply perm_skip. apply perm_swap. }
  assert (Hinj : forall x y, In x q1 -> In y q1 ->
                             magnitude x == magnitude y -> x = y).
  { intros x y Hx Hy. vm_compute in Hx, Hy.
    destruct Hx as [<-|[<-|[<-|[]]]]; destruct Hy as [<-|[<-|[<-|[]]]];
      intros E; try reflexivity; vm_compute in E; discriminate E. }
  split; [repeat split; assumption|].
  exact (vertex_queue_order_unique_without_ties q1 q2 H1 H2 P Hinj).
Defined.

(** Two queues holding the same entries pop the same sequence of
    magnitudes: the order of the pushes can change the pop order among
    entries of equal magnitude only. *)
Theorem vertex_queue_magnitudes_independent_of_push_order
    (q1 q2 : VertexQueue) :
  reachable q1 -> reachable q2 -> Permutation q1 q2 ->
  Forall2 (fun a b => magnitude a == magnitude b)
          (drain abs_comparison no_pair (length q1) q1)
          (drain abs_comparison no_pair (length q2) q2).
Proof.
  intros H1 H2 P.
  destruct (drain_sorted (length q1) q1 H1 eq_refl) as [_ S1].
  destruct (drain_sorted (length q2) q2 H2 eq_refl) as [_ S2].
  pose proof (drains_permuted q1 q2 H1 H2 P) as Pd.
  set (key := fun x : VertexDetPair => Qred (magnitude x)).
  assert (E : map key (drain abs_comparison no_pair (length q1) q1)
              = map key (drain abs_comparison no_pair (length q2) q2)).
  { apply (sorted_perm_unique (fun a b : Q => (b <= a)%Q)).
    - intros x y Hx Hy Hxy Hyx.
      apply in_map_iff in Hx as [x0 [<- _]].
      apply in_map_iff in Hy as [y0 [<- _]].
      cbv beta in Hxy, Hyx. unfold key in *.
      rewrite Qred_le in Hxy, Hyx.
      apply Qred_complete. apply Qle_antisym; assumption.
    - apply (sorted_map key mag_ge); [|exact S1].
      intros x y Hxy. unfold key, mag_ge in *.
      rewrite !Qred_correct. exact Hxy.
    - apply (sorted_map key mag_ge); [|exact S2].
      intros x y Hxy. unfold key, mag_ge in *.
      rewrite !Qred_correct. exact Hxy.
    - apply Permutation_map. exact Pd. }
  apply map_eq_Forall2 in E.
  eapply Forall2_impl; [|exact E].
  intros a b Hab. unfold key in Hab. apply Qred_eq_iff. exact Hab.
Qed.

Lemma vertex_queue_magnitudes_independent_of_push_order_witness :
  let q1 := vq_push (4, 1%Q) (vq_push (3, 1%Q)
              (vq_push (2, (-1)%Q) (vq_push (1, 1%Q) []))) in
  let q2 := vq_push (1, 1%Q) (vq_push (2, (-1)%Q)
              (vq_push (3, 1%Q) (vq_push (4, 1%Q) []))) in
  (reachable q1 /\ reachable q2 /\ Permutation q1 q2) /\
  Forall2 (fun a b => magnitude a == magnitude b)
          (drain abs_comparison no_pair (length q1) q1)
          (drain abs_comparison no_pair (length q2) q2).
Proof.
  intros q1 q2.
  assert (H1 : reachable q1) by (repeat constructor).
  assert (H2 : reachable q2) by (repeat constructor).
  assert (P : Permutation q1 q2).
  { vm_compute. apply Permutation_rev. }
  split; [repeat split; assumption|].
  exact (vertex_queue_magnitudes_independent_of_push_order q1 q2 H1 H2 P).
Defined.

End VQueue.

(** ** Arcs on a boundary cycle

    The vertices of a face are listed along its boundary cycle; a set of
    them is given by its flags along that list.  The set is an arc when some
    rotation of the cycle puts all its members first. *)

Module Arc.
Local Open Scope nat_scope.

(** The cycle read from its [k]-th position on. *)
Definition rot {A : Type} (k : nat) (l : list A) : list A :=
  skipn k l ++ firstn k l.

(** A single contiguous arc that is neither empty nor the whole cycle. *)
Definition single_arc (bs : list bool) : Prop :=
  exists n m k, 0 < n /\ 0 < m /\ rot k bs = repeat true n ++ repeat false m.

(** Drop the leading run of [b]. *)
Fixpoint strip (b : bool) (l : list bool) : list bool :=
  match l with
  | [] => []
  | x :: r => if Bool.eqb x b then strip b r else l
  end.

Definition is_nil (l : list bool) : bool :=
  match l with [] => true | _ => false end.

(** The members form one run along the list, or the non-members do:
    the two ways a connected part of a cycle can appear once the cycle is
    cut open. *)
Definition arc_shape (bs : list bool) : bool :=
  is_nil (strip false (strip true (strip false bs))) ||
  is_nil (strip true (strip false (strip true bs))).

Lemma strip_split (b : bool) (l : list bool) :
  exists n, l = repeat b n ++ strip b l.
Proof.
  induction l as [|x r IH]; simpl.
  - exists 0. reflexivity.
  - destruct (Bool.eqb x b) eqn:E.
    + apply Bool.eqb_prop in E. subst x. destruct IH as [n Hn].
      exists (S n). simpl. f_equal. exact Hn.
    + exists 0. reflexivity.
Qed.

Lemma strip_repeat_other (b : bool) (n : nat) (l : list bool) :
  strip b (repeat (negb b) (S n) ++ l) = repeat (negb b) (S n) ++ l.
Proof. simpl. destruct b; reflexivity. Qed.

Lemma strip_repeat (b : bool) (n : nat) (l : list bool) :
  strip b (repeat b n ++ l) = strip b l.
Proof.
  induction n as [|n IH]; simpl; auto.
  rewrite Bool.eqb_reflx. exact IH.
Qed.

Lemma rot_app {A : Type} (l1 l2 : list A) :
  rot (length l1) (l1 ++ l2) = l2 ++ l1.
Proof.
  unfold rot. rewrite skipn_app, firstn_app.
  rewrite Nat.sub_diag, skipn_all, firstn_all. simpl.
  rewrite app_nil_r. reflexivity.
Qed.

Lemma in_repeat_app_false (n : nat) (l : list bool) :
  In false (repeat true n ++ l) -> In false l.
Proof.
  intros H. apply in_app_or in H. destruct H as [H|H]; auto.
  apply repeat_spec in H. discriminate.
Qed.

Lemma in_repeat_app_true (n : nat) (l : list bool) :
  In true (repeat false n ++ l) -> In true l.
Proof.
  intros H. apply in_app_or in H. destruct H as [H|H]; auto.
  apply repeat_spec in H. discriminate.
Qed.

Lemma in_repeat_pos (b : bool) (n : nat) : In b (repeat b n) -> 0 < n.
Proof. destruct n; simpl; [tauto|lia]. Qed.

(** The check is sound: a list of the accepted shape with a member and a
    non-member is a single arc of the cycle. *)
Lemma arc_shape_single_arc (bs : list bool) :
  arc_shape bs = true -> In true bs -> In false bs -> single_arc bs.
Proof.
  unfold arc_shape. intros H Ht Hf.
  apply orb_true_iff in H. destruct H as [H|H].
  - destruct (strip_split false bs) as [a Ha].
    destruct (strip_split true (strip false bs)) as [b Hb].
    destruct (strip_split false (strip true (strip false bs))) as [c Hc].
    destruct (strip false (strip true (strip false bs))); [|discriminate].
    rewrite app_nil_r in Hc. rewrite Hc in Hb. rewrite Hb in Ha.
    clear H Hb Hc.
    assert (Hbpos : 0 < b).
    { rewrite Ha in Ht. apply in_repeat_app_true in Ht.
      apply in_app_or in Ht. destruct Ht as [Ht|Ht].
      - apply in_repeat_pos in Ht. exact Ht.
      - apply repeat_spec in Ht. discriminate. }
    assert (Hac : 0 < c + a).
    { rewrite Ha in Hf. apply in_app_or in Hf. destruct Hf as [Hf|Hf].
      - apply in_repeat_pos in Hf. lia.
      - apply in_repeat_app_false in Hf.
        apply in_repeat_pos in Hf. lia. }
    exists b, (c + a), a. split; [exact Hbpos|]. split; [exact Hac|].
    rewrite Ha at 1.
    replace a with (length (repeat false a)) at 1 by apply repeat_length.
    rewrite rot_app. rewrite <- app_assoc. rewrite repeat_app. reflexivity.
  - destruct (strip_split true bs) as [a Ha].
    destruct (strip_split false (strip true bs)) as [b Hb].
    destruct (strip_split true (strip false (strip true bs))) as [c Hc].
    destruct (strip true (strip false (strip true bs))); [|discriminate].
    rewrite app_nil_r in Hc. rewrite Hc in Hb. rewrite Hb in Ha.
    clear H Hb Hc.
    assert (Hbpos : 0 < b).
    { rewrite Ha in Hf. apply in_repeat_app_false in Hf.
      apply in_app_or in Hf. destruct Hf as [Hf|Hf].
      - apply in_repeat_pos in Hf. exact Hf.
      - apply repeat_spec in Hf. discriminate. }
    assert (Hac : 0 < c + a).
    { rewrite Ha in Ht. apply in_app_or in Ht. destruct Ht as [Ht|Ht].
      - apply in_repeat_pos in Ht. lia.
      - apply in_repeat_app_true in Ht.
        apply in_repeat_pos in Ht. lia. }
    exists (c + a), b, (a + b). split; [exact Hac|]. split; [exact Hbpos|].
    rewrite Ha at 1. rewrite app_assoc.
    replace (a + b) with (length (repeat true a ++ repeat false b))
      by (rewrite length_app, !repeat_length; reflexivity).
    rewrite rot_app. rewrite app_assoc. rewrite <- repeat_app. reflexivity.
Qed.

Lemma repeat_eq_app (b : bool) (n : nat) (l1 l2 : list bool) :
  repeat b n = l1 ++ l2 ->
  l1 = repeat b (length l1) /\ l2 = repeat b (length l2) /\
  n = length l1 + length l2.
Proof.
  revert n; induction l1 as [|x r IH]; intros n H; simpl in *.
  - subst l2. rewrite repeat_length. auto.
  - destruct n as [|n]; simpl in H; [discriminate|].
    injection H as Hx Hr. subst x.
    destruct (IH n Hr) as (H1 & H2 & H3).
    rewrite <- H1. auto.
Qed.

Lemma strip_all (b : bool) (n : nat) : strip b (repeat b n) = [].
Proof.
  rewrite <- (app_nil_r (repeat b n)). rewrite strip_repeat. reflexivity.
Qed.

Lemma shape_ftf (a b c : nat) :
  arc_shape (repeat false a ++ repeat true b ++ repeat false c) = true.
Proof.
  unfold arc_shape. apply orb_true_iff. left.
  rewrite strip_repeat.
  destruct b as [|b].
  - simpl repeat at 1. simpl app. rewrite strip_all. reflexivity.
  - rewrite (strip_repeat_other false b).
    rewrite strip_repeat. destruct c as [|c].
    + reflexivity.
    + rewrite <- (app_nil_r (repeat false (S c))).
      rewrite (strip_repeat_other true c). rewrite strip_repeat. reflexivity.
Qed.

Lemma shape_tft (a b c : nat) :
  arc_shape (repeat true a ++ repeat false b ++ repeat true c) = true.
Proof.
  unfold arc_shape. apply orb_true_iff. right.
  rewrite strip_repeat.
  destruct b as [|b].
  - simpl repeat at 1. simpl app. rewrite strip_all. reflexivity.
  - rewrite (strip_repeat_other true b).
    rewrite strip_repeat. destruct c as [|c].
    + reflexivity.
    + rewrite <- (app_nil_r (repeat true (S c))).
      rewrite (strip_repeat_other false c). rewrite strip_repeat. reflexivity.
Qed.

(** The check is complete: every single arc of the cycle is accepted. *)
Lemma single_arc_arc_shape (bs : list bool) :
  single_arc bs -> arc_shape bs = true /\ In true bs /\ In false bs.
Proof.
  intros (n & m & k & Hn & Hm & Hk). unfold rot in Hk.
  assert (Hin : forall b, In b (repeat true n ++ repeat false m) -> In b bs).
  { intros b Hb. rewrite <- Hk in Hb. rewrite <- (firstn_skipn k bs).
    apply in_app_or in Hb. apply in_or_app. tauto. }
  split; [|split].
  - rewrite <- (firstn_skipn k bs).
    apply app_eq_app in Hk. destruct Hk as (l & [[H1 H2]|[H1 H2]]).
    + apply repeat_eq_app in H2.
      destruct H2 as (Hl & Hy & _).
      rewrite Hy, H1, Hl. apply shape_ftf.
    + apply repeat_eq_app in H1. destruct H1 as (Hx & Hl & _).
      rewrite H2, Hx, Hl. rewrite <- app_assoc. apply shape_tft.
  - apply Hin. apply in_or_app. left. destruct n; [lia|]. simpl. auto.
  - apply Hin. apply in_or_app. right. destruct m; [lia|]. simpl. auto.
Qed.

End Arc.

(** ** The diagram and its insertion state machine

    The member functions of [VoronoiDiagram] are declared in this header
    and defined elsewhere; what they do is taken from the specification,
    section by section.  The inline members are embedded from the header. *)

Module Diagram.
Import VQueue.
Local Open Scope nat_scope.

(** *** C++ [int] *)

Definition int_min : Z := (- 2 ^ 31)%Z.
Definition int_max : Z := (2 ^ 31 - 1)%Z.
Definition in_int (z : Z) : Prop := (int_min <= z <= int_max)%Z.

(** Reduction of an integer result to 32-bit two's complement. *)
Definition wrap_int (z : Z) : Z := ((z + 2 ^ 31) mod 2 ^ 32 - 2 ^ 31)%Z.

(** *** Data model (spec section 3) *)

(** Modelled from the spec: a position in the plane; [double] coordinates
    idealised as rationals. *)
Definition Point : Type := (Q * Q)%type.

(** Modelled from the spec: the status and type of a vertex, the incidence
    flag of a face and the variants of a site (section 3). *)
Inductive VoronoiVertexStatus : Type := UNDECIDED | IN | OUT | NEW.

Inductive VoronoiVertexType : Type :=
  OUTER | NORMAL | POINTSITE | ENDPOINT | SEPPOINT | APEX | SPLIT.

Inductive VoronoiFaceStatus : Type := INCIDENT | NONINCIDENT.

Inductive Site : Type :=
| PointSite (p : Point)
| LineSite (p1 p2 : Point).

(** Modelled from the spec: the vertex properties of [graph.hpp]: position,
    clearance radius, status, type and the monotonically assigned index;
    [in_queue] is the mark "queued" of section 4.3. *)
Record VoronoiVertex : Type := mkVertex {
  index : Z;
  status : VoronoiVertexStatus;
  vtype : VoronoiVertexType;
  position : Point;
  clearance : Q;
  in_queue : bool
}.

Definition HEFace : Type := nat.

(** Modelled from the spec: a face carries its generating site, its
    incidence flag and its boundary; the closed cycle of half-edges is
    given by the source vertices of its half-edges in [next] order, so that
    the half-edges of the face are the consecutive pairs of the cycle. *)
Record FaceProps : Type := mkFace {
  fsite : Site;
  fstatus : VoronoiFaceStatus;
  fcycle : list HEVertex
}.

(** Modelled from the spec: the half-edge graph as an arena; a handle is
    an index into the store, a deleted vertex leaves an empty cell, faces
    are never destroyed. *)
Record HEGraph : Type := mkGraph {
  vertices : list (option VoronoiVertex);
  faces : list FaceProps;
  (* SEPARATOR half-edges: the segment endpoint they leave and the
     point-site face they partition *)
  separators : list (HEVertex * HEFace)
}.

Definition is_IN (s : VoronoiVertexStatus) : bool :=
  match s with IN => true | _ => false end.
Definition is_OUT (s : VoronoiVertexStatus) : bool :=
  match s with OUT => true | _ => false end.
Definition is_UNDECIDED (s : VoronoiVertexStatus) : bool :=
  match s with UNDECIDED => true | _ => false end.

(** [g[v]] *)
Definition vertex (g : HEGraph) (v : HEVertex) : option VoronoiVertex :=
  nth v (vertices g) None.

Definition is_live (o : option VoronoiVertex) : bool :=
  match o with Some _ => true | None => false end.

(** Modelled from the spec: [g.num_vertices()] *)
Definition g_num_vertices (g : HEGraph) : Z :=
  Z.of_nat (length (filter is_live (vertices g))).

Definition status_of (g : HEGraph) (v : HEVertex) : VoronoiVertexStatus :=
  match vertex g v with Some x => status x | None => UNDECIDED end.

Definition update_vertex (f : VoronoiVertex -> VoronoiVertex) (v : HEVertex)
    (g : HEGraph) : HEGraph :=
  match vertex g v with
  | Some x => mkGraph (set v (Some (f x)) (vertices g)) (faces g)
                      (separators g)
  | None => g
  end.

Definition with_status (st : VoronoiVertexStatus) (x : VoronoiVertex)
  : VoronoiVertex :=
  mkVertex (index x) st (vtype x) (position x) (clearance x) (in_queue x).

Definition with_in_queue (b : bool) (x : VoronoiVertex) : VoronoiVertex :=
  mkVertex (index x) (status x) (vtype x) (position x) (clearance x) b.

Definition with_vtype (t : VoronoiVertexType) (x : VoronoiVertex)
  : VoronoiVertex :=
  mkVertex (index x) (status x) t (position x) (clearance x) (in_queue x).

(** [g[v].status = st] *)
Definition set_status (st : VoronoiVertexStatus) : HEVertex -> HEGraph -> HEGraph :=
  update_vertex (with_status st).

Definition face (g : HEGraph) (f : HEFace) : option FaceProps :=
  nth_error (faces g) f.

Definition cycle_of (g : HEGraph) (f : HEFace) : list HEVertex :=
  match face g f with Some p => fcycle p | None => [] end.

Definition update_face (h : FaceProps -> FaceProps) (f : HEFace) (g : HEGraph)
  : HEGraph :=
  match face g f with
  | Some p => mkGraph (vertices g) (set f (h p) (faces g)) (separators g)
  | None => g
  end.

Definition with_fstatus (st : VoronoiFaceStatus) (p : FaceProps) : FaceProps :=
  mkFace (fsite p) st (fcycle p).

Definition with_fcycle (c : list HEVertex) (p : FaceProps) : FaceProps :=
  mkFace (fsite p) (fstatus p) c.

Definition on_cycle (v : HEVertex) (c : list HEVertex) : bool :=
  existsb (Nat.eqb v) c.

(** The faces incident to [v]: those whose boundary passes through [v]. *)
Definition faces_of (g : HEGraph) (v : HEVertex) : list HEFace :=
  filter (fun f => on_cycle v (cycle_of g f)) (seq 0 (length (faces g))).

(** The half-edges of a boundary cycle, as (source, target) pairs. *)
Definition cycle_edges (c : list HEVertex) : list (HEVertex * HEVertex) :=
  combine c (Arc.rot 1 c).

Definition all_edges (g : HEGraph) : list (HEVertex * HEVertex) :=
  flat_map (fun p => cycle_edges (fcycle p)) (faces g).

(** The vertices joined to [v] by an edge. *)
Definition neighbors (g : HEGraph) (v : HEVertex) : list HEVertex :=
  nodup Nat.eq_dec
    (map snd (filter (fun e => fst e =? v) (all_edges g)) ++
     map fst (filter (fun e => snd e =? v) (all_edges g))).

(** *** The predicates C4 and C5 (spec section 4.3) *)

(** The IN-vertices of a boundary cycle, [v] included. *)
Definition in_flags (g : HEGraph) (v : HEVertex) (c : list HEVertex)
  : list bool :=
  map (fun u => (u =? v) || is_IN (status_of g u)) c.

(** Modelled from the spec: "for each face f incident to v, the
    IN-vertices of f (including v) induce a connected subgraph in f's
    boundary cycle". *)
Definition predicate_c4 (g : HEGraph) (v : HEVertex) : bool :=
  forallb (fun f => Arc.arc_shape (in_flags g v (cycle_of g f)))
          (faces_of g v).

(** Modelled from the spec: "for every incident face at least one OUT
    vertex remains after accepting v": every face incident to [v] has a
    vertex other than [v] whose status is OUT. *)
Definition predicate_c5 (g : HEGraph) (v : HEVertex) : bool :=
  forallb (fun f => existsb (fun u => negb (u =? v) && is_OUT (status_of g u))
                            (cycle_of g f))
          (faces_of g v).

(** *** The diagram *)

(** Modelled from the spec: the face grid of [facegrid.hpp]: the faces
    registered so far with the position of their site. *)
Record FaceGrid : Type := mkGrid {
  n_bins : Z;
  entries : list (HEFace * Point)
}.

(** The data members of [class VoronoiDiagram]; the three helper-class
    pointers are represented by the helpers' state ([fgrid]) or by the
    parameters of the section below. *)
Record VoronoiDiagram : Type := mkDiagram {
  fgrid : FaceGrid;
  g : HEGraph;
  far_radius : Q;
  num_psites : Z;
  num_lsites : Z;
  incident_faces : list HEFace;
  modified_vertices : list HEVertex;
  v0 : list HEVertex;
  vertexQueue : VertexQueue;
  vertex_map : list (Z * HEVertex)
}.

Definition with_g (x : HEGraph) (d : VoronoiDiagram) : VoronoiDiagram :=
  mkDiagram (fgrid d) x (far_radius d) (num_psites d) (num_lsites d)
            (incident_faces d) (modified_vertices d) (v0 d) (vertexQueue d)
            (vertex_map d).

Definition with_incident_faces (x : list HEFace) (d : VoronoiDiagram)
  : VoronoiDiagram :=
  mkDiagram (fgrid d) (g d) (far_radius d) (num_psites d) (num_lsites d)
            x (modified_vertices d) (v0 d) (vertexQueue d) (vertex_map d).

Definition with_modified_vertices (x : list HEVertex) (d : VoronoiDiagram)
  : VoronoiDiagram :=
  mkDiagram (fgrid d) (g d) (far_radius d) (num_psites d) (num_lsites d)
            (incident_faces d) x (v0 d) (vertexQueue d) (vertex_map d).

Definition with_v0 (x : list HEVertex) (d : VoronoiDiagram) : VoronoiDiagram :=
  mkDiagram (fgrid d) (g d) (far_radius d) (num_psites d) (num_lsites d)
            (incident_faces d) (modified_vertices d) x (vertexQueue d)
            (vertex_map d).

Definition with_vertexQueue (x : VertexQueue) (d : VoronoiDiagram)
  : VoronoiDiagram :=
  mkDiagram (fgrid d) (g d) (far_radius d) (num_psites d) (num_lsites d)
            (incident_faces d) (modified_vertices d) (v0 d) x (vertex_map d).

(** *** The flood fill (spec section 4.3) *)

Section Fill.
(** The in-circle predicate of section 4.6, an external collaborator:
    from the new site, the position and clearance radius of a vertex and
    the generator sites of its incident faces to a signed scalar. *)
Variable in_circle : Site -> Point -> Q -> list Site -> Q.

Definition sites_of (g : HEGraph) (v : HEVertex) : list Site :=
  map (fun f => match face g f with
                | Some p => fsite p
                | None => PointSite (0%Q, 0%Q)
                end) (faces_of g v).

Definition in_circle_at (g : HEGraph) (s : Site) (v : HEVertex)
    (x : VoronoiVertex) : Q :=
  in_circle s (position x) (clearance x) (sites_of g v).

Definition mark_face (d : VoronoiDiagram) (f : HEFace) : VoronoiDiagram :=
  with_incident_faces
    (if existsb (Nat.eqb f) (incident_faces d) then incident_faces d
     else incident_faces d ++ [f])
    (with_g (update_face (with_fstatus INCIDENT) f (g d)) d).

(** Modelled from the spec: "when v is marked IN, every face incident to
    v is marked INCIDENT and appended to incident_faces if not already
    there". *)
Definition mark_adjacent_faces (v : HEVertex) (s : Site) (d : VoronoiDiagram)
  : VoronoiDiagram :=
  fold_left mark_face (faces_of (g d) v) d.

(** Modelled from the spec: writing a status, and remembering the vertex for
    [reset_status] ([modified_vertices]: "in-vertices, out-vertices that need
    to be reset"). *)
Definition decide (st : VoronoiVertexStatus) (v : HEVertex) (d : VoronoiDiagram)
  : VoronoiDiagram :=
  with_modified_vertices (modified_vertices d ++ [v])
    (with_g (set_status st v (g d)) d).

(** Modelled from the spec: "mark v IN and add to v0". *)
Definition mark_vertex (v : HEVertex) (s : Site) (d : VoronoiDiagram)
  : VoronoiDiagram :=
  let d1 := decide IN v d in
  mark_adjacent_faces v s (with_v0 (v0 d1 ++ [v]) d1).

(** Modelled from the spec: "for every neighbor u of v that is still
    UNDECIDED, evaluate the in-circle predicate of u against s, push
    (u, det) onto the queue, and mark u as queued". *)
Definition push_neighbor (s : Site) (d : VoronoiDiagram) (u : HEVertex)
  : VoronoiDiagram :=
  match vertex (g d) u with
  | Some x =>
      if is_UNDECIDED (status x) && negb (in_queue x) then
        with_vertexQueue
          (vq_push (u, in_circle_at (g d) s u x) (vertexQueue d))
          (with_g (update_vertex (with_in_queue true) u (g d)) d)
      else d
  | None => d
  end.

(** Modelled from the spec: "pop the top vertex v.  If accepting v as IN
    would violate C4 or C5, mark it OUT instead.  Otherwise mark v IN and
    add to v0." *)
Definition decide_top (s : Site) (d : VoronoiDiagram) : VoronoiDiagram :=
  let v := fst (vq_top (vertexQueue d)) in
  let d1 := with_vertexQueue (vq_pop (vertexQueue d)) d in
  if predicate_c4 (g d1) v && predicate_c5 (g d1) v
  then mark_vertex v s d1
  else decide OUT v d1.

(** Modelled from the spec: one iteration of [augment_vertex_set]: decide the
    top vertex, then queue its undecided neighbors; [None] when the queue is
    empty. *)
Definition augment_step (s : Site) (d : VoronoiDiagram)
  : option VoronoiDiagram :=
  match vertexQueue d with
  | [] => None
  | _ :: _ =>
      let d2 := decide_top s d in
      Some (fold_left (push_neighbor s)
                      (neighbors (g d2) (fst (vq_top (vertexQueue d)))) d2)
  end.

(** Modelled from the spec: [augment_vertex_set(site)]: iterate until the
    queue drains. *)
Fixpoint augment_vertex_set (fuel : nat) (s : Site) (d : VoronoiDiagram)
  : VoronoiDiagram :=
  match fuel with
  | 0 => d
  | S fuel' =>
      match augment_step s d with
      | None => d
      | Some d' => augment_vertex_set fuel' s d'
      end
  end.

(** The state after exactly [n] iterations, if the queue lasts that long. *)
Fixpoint steps (n : nat) (s : Site) (d : VoronoiDiagram)
  : option VoronoiDiagram :=
  match n with
  | 0 => Some d
  | S n' =>
      match augment_step s d with
      | None => None
      | Some d' => steps n' s d'
      end
  end.

(** Each iteration takes one entry off the queue and queues only vertices
    not yet marked as queued, so this many iterations drain the queue. *)
Definition fill_fuel (d : VoronoiDiagram) : nat :=
  length (vertexQueue d) +
  length (filter (fun o => match o with
                           | Some x => negb (in_queue x)
                           | None => false
                           end) (vertices (g d))).

End Fill.

(** *** Plane geometry on rational points *)

Definition Qeqb (a b : Q) : bool := Qle_bool a b && Qle_bool b a.

Definition point_eqb (p q : Point) : bool :=
  Qeqb (fst p) (fst q) && Qeqb (snd p) (snd q).

(** Twice the signed area of the triangle [a], [b], [c]. *)
Definition cross (a b c : Point) : Q :=
  ((fst b - fst a) * (snd c - snd a) - (fst c - fst a) * (snd b - snd a))%Q.

Definition dotp (a b c : Point) : Q :=
  ((fst b - fst a) * (fst c - fst a) + (snd b - snd a) * (snd c - snd a))%Q.

(** Modelled from the spec: [|p| < R] *)
Definition inside_far_circle (p : Point) (R : Q) : bool :=
  Qltb 0 R && Qltb (fst p * fst p + snd p * snd p)%Q (R * R)%Q.

(** [c] lies strictly between [a] and [b] on the segment from [a] to [b]. *)
Definition in_interior (a b c : Point) : bool :=
  Qeqb (cross a b c) 0 && Qltb 0 (dotp a b c) && Qltb (dotp a b c) (dotp a b b).

(** The open segments [a b] and [c d] cross at a single point. *)
Definition segments_cross (a b c d : Point) : bool :=
  Qltb (cross a b c * cross a b d)%Q 0 && Qltb (cross c d a * cross c d b)%Q 0.

(** Modelled from the spec: [p.is_right(p1, p2)] of [point.hpp]. *)
Definition is_right (p p1 p2 : Point) : bool := Qltb (cross p1 p2 p) 0.

(** Modelled from the spec: [in_region(point)]: for a segment, the slab
    perpendicular to it. *)
Definition in_region (s : Site) (p : Point) : bool :=
  match s with
  | PointSite _ => true
  | LineSite a b => Qle_bool 0 (dotp a b p) && Qle_bool (dotp a b p) (dotp a b b)
  end.

Definition same_supporting_line (s t : Site) : bool :=
  match s, t with
  | LineSite a b, LineSite c d => Qeqb (cross a b c) 0 && Qeqb (cross a b d) 0
  | _, _ => false
  end.

(** *** Vertex and face creation *)



(** Modelled from the spec: [g.add_vertex(VoronoiVertex(pos, status, type))]:
    the new vertex takes the next cell of the store and the current value of
    the counter. *)
Definition add_vertex (st : VoronoiVertexStatus) (t : VoronoiVertexType)
    (pos : Point) (r : Q) (cg : Z * HEGraph) : HEVertex * (Z * HEGraph) :=
  let '(count, g) := cg in
  (length (vertices g),
   (wrap_int (count + 1),
    mkGraph (vertices g ++ [Some (mkVertex count st t pos r false)])
            (faces g) (separators g))).

Definition add_face_props (p : FaceProps) (g : HEGraph) : HEFace * HEGraph :=
  (length (faces g), mkGraph (vertices g) (faces g ++ [p]) (separators g)).

Definition grid_add (f : HEFace) (p : Point) (fg : FaceGrid) : FaceGrid :=
  mkGrid (n_bins fg) (entries fg ++ [(f, p)]).

Definition with_fgrid (x : FaceGrid) (d : VoronoiDiagram) : VoronoiDiagram :=
  mkDiagram x (g d) (far_radius d) (num_psites d) (num_lsites d)
            (incident_faces d) (modified_vertices d) (v0 d) (vertexQueue d)
            (vertex_map d).

Definition with_num_psites (x : Z) (d : VoronoiDiagram) : VoronoiDiagram :=
  mkDiagram (fgrid d) (g d) (far_radius d) x (num_lsites d)
            (incident_faces d) (modified_vertices d) (v0 d) (vertexQueue d)
            (vertex_map d).

Definition with_num_lsites (x : Z) (d : VoronoiDiagram) : VoronoiDiagram :=
  mkDiagram (fgrid d) (g d) (far_radius d) (num_psites d) x
            (incident_faces d) (modified_vertices d) (v0 d) (vertexQueue d)
            (vertex_map d).

Definition with_vertex_map (x : list (Z * HEVertex)) (d : VoronoiDiagram)
  : VoronoiDiagram :=
  mkDiagram (fgrid d) (g d) (far_radius d) (num_psites d) (num_lsites d)
            (incident_faces d) (modified_vertices d) (v0 d) (vertexQueue d) x.

(** *** Construction *)

(** Modelled from the spec: [initialize()], "three outer vertices and
    their edges framing the far circle" around the faces of the three
    initial generators.  The generators lie on the circle of radius [8 R],
    their faces meet at the origin, and the outer vertices close the three
    faces at distance beyond [R]. *)
Definition initialize (far : Q) (count : Z) : Z * HEGraph :=
  let R4 := (4 * far)%Q in
  let R8 := (8 * far)%Q in
  let cg0 := (count, mkGraph [] [] []) in
  let '(c, cg1) := add_vertex UNDECIDED NORMAL (0, 0)%Q R8 cg0 in
  let '(a1, cg2) := add_vertex UNDECIDED OUTER (R4, R4) R8 cg1 in
  let '(a2, cg3) := add_vertex UNDECIDED OUTER ((- R4)%Q, R4) R8 cg2 in
  let '(a3, (count', g3)) := add_vertex UNDECIDED OUTER (0%Q, (- R4)%Q) R8 cg3 in
  let '(_, g4) := add_face_props
                    (mkFace (PointSite (0%Q, R8)) NONINCIDENT [c; a1; a2]) g3 in
  let '(_, g5) := add_face_props
                    (mkFace (PointSite ((- R8)%Q, 0%Q)) NONINCIDENT [c; a2; a3])
                    g4 in
  let '(_, g6) := add_face_props
                    (mkFace (PointSite (R8, 0%Q)) NONINCIDENT [c; a3; a1]) g5 in
  (count', g6).

(** Modelled from the spec: [VoronoiDiagram(double far, unsigned int
    n_bins)]: the far radius, the face grid with its bin count, the three
    initial generators ([num_psites = 3], no line site) and empty scratch
    vectors. *)
Definition construct (far : Q) (bins : Z) (count : Z) : Z * VoronoiDiagram :=
  let '(count', g0) := initialize far count in
  (count',
   mkDiagram
     (mkGrid bins [(0, (0, 8 * far)%Q); (1, ((- (8 * far))%Q, 0%Q));
                   (2, ((8 * far)%Q, 0%Q))])
     g0 far 3%Z 0%Z [] [] [] [] []).

(** [VoronoiDiagram() {}]: the members of class type are default
    constructed (empty graph, vectors, queue and map); [far_radius],
    [num_psites] and [num_lsites] (and the three helper pointers) are not
    written, so their value after construction is whatever the storage
    held. *)
Definition default_constructed (d : VoronoiDiagram) : Prop :=
  g d = mkGraph [] [] [] /\ incident_faces d = [] /\
  modified_vertices d = [] /\ v0 d = [] /\ vertexQueue d = [] /\
  vertex_map d = [].

(** *** The inline accessors of the header *)

(** [double get_far_radius() const {return far_radius;}] *)
Definition get_far_radius (d : VoronoiDiagram) : Q := far_radius d.

(** [int num_point_sites() const {return num_psites-3;}] *)
Definition num_point_sites (d : VoronoiDiagram) : Z :=
  wrap_int (num_psites d - 3).

(** [int num_line_sites() const {return num_lsites;}] *)
Definition num_line_sites (d : VoronoiDiagram) : Z := num_lsites d.

(** [int num_vertices() const { return g.num_vertices()-num_point_sites(); }] *)
Definition num_vertices (d : VoronoiDiagram) : Z :=
  wrap_int (g_num_vertices (g d) - num_point_sites d).

(** *** Insertion (spec sections 4.2 to 4.5, 6 and 7) *)

(** Modelled from the spec: the error kinds an insertion recovers from.
    Section 4.3 decides every popped vertex, so the fill has no undecidable
    outcome; the post-insertion checker is an external debug aid. *)
Inductive InsertError : Type := InvalidSite | PositionerFailed.

Definition edge_eqb (e1 e2 : HEVertex * HEVertex) : bool :=
  (fst e1 =? fst e2) && (snd e1 =? snd e2).

Definition swap_edge (e : HEVertex * HEVertex) : HEVertex * HEVertex :=
  (snd e, fst e).

Definition position_of (g : HEGraph) (v : HEVertex) : Point :=
  match vertex g v with Some x => position x | None => (0, 0)%Q end.

Definition site_of (g : HEGraph) (f : HEFace) : Site :=
  match face g f with Some p => fsite p | None => PointSite (0, 0)%Q end.

(** The face whose boundary holds the half-edge [e]. *)
Definition face_with_edge (g : HEGraph) (e : HEVertex * HEVertex) : HEFace :=
  match find (fun f => existsb (edge_eqb e) (cycle_edges (cycle_of g f)))
             (seq 0 (length (faces g))) with
  | Some f => f
  | None => 0
  end.

(** The face generated by the point site at [p]. *)
Definition face_of_point (g : HEGraph) (p : Point) : HEFace :=
  match find (fun f => match site_of g f with
                       | PointSite q => point_eqb p q
                       | LineSite _ _ => false
                       end) (seq 0 (length (faces g))) with
  | Some f => f
  | None => 0
  end.

(** Modelled from the spec: [find_in_out_edges()]: the half-edges from an IN
    to an OUT vertex. *)
Definition find_in_out_edges (g : HEGraph) : list (HEVertex * HEVertex) :=
  filter (fun e => is_IN (status_of g (fst e)) && is_OUT (status_of g (snd e)))
         (all_edges g).

(** A boundary cycle with [q] placed on the edge between [u] and [w]. *)
Definition insert_on_edge (q : HEVertex) (e : HEVertex * HEVertex)
    (c : list HEVertex) : list HEVertex :=
  flat_map (fun ab => if edge_eqb ab e || edge_eqb ab (swap_edge e)
                      then [fst ab; q] else [fst ab])
           (cycle_edges c).

(** Modelled from the spec: [add_vertex_in_edge(v, e)]: both half-edges of the
    edge are split. *)
Definition add_vertex_in_edge (q : HEVertex) (e : HEVertex * HEVertex)
    (g : HEGraph) : HEGraph :=
  mkGraph (vertices g)
          (map (fun p => with_fcycle (insert_on_edge q e (fcycle p)) p) (faces g))
          (separators g).

(** Modelled from the spec: [repair_face(f)]: the IN portion of the cycle is
    replaced by the direct path between the NEW vertices that border it. *)
Definition repair_face (f : HEFace) (g : HEGraph) : HEGraph :=
  update_face
    (fun p => with_fcycle
                (filter (fun u => negb (is_IN (status_of g u))) (fcycle p)) p)
    f g.

Definition is_NEW (s : VoronoiVertexStatus) : bool :=
  match s with NEW => true | _ => false end.

(** The twins of the new half-edges of [f]: they border the new face. *)
Definition twin_edges (g : HEGraph) (f : HEFace) : list (HEVertex * HEVertex) :=
  map swap_edge
      (filter (fun e => is_NEW (status_of g (fst e)) &&
                        is_NEW (status_of g (snd e)))
              (cycle_edges (cycle_of g f))).

(** The cycle the half-edges [es] form, followed from the first one. *)
Fixpoint chain_from (fuel : nat) (es : list (HEVertex * HEVertex))
    (x : HEVertex) : list HEVertex :=
  match fuel with
  | 0 => []
  | S k => x :: match find (fun e => fst e =? x) es with
                | Some e => chain_from k es (snd e)
                | None => []
                end
  end.

Definition chain (es : list (HEVertex * HEVertex)) : list HEVertex :=
  match es with
  | [] => []
  | e :: _ => chain_from (length es) es (fst e)
  end.

(** Modelled from the spec: the boundary of a new face: the twins collected
    from the repaired faces, restricted by [keep]. *)
Definition close_face (keep : HEVertex * HEVertex -> bool) (newf : HEFace)
    (fs : list HEFace) (g : HEGraph) : HEGraph :=
  update_face
    (with_fcycle (chain (filter keep (flat_map (twin_edges g) fs)))) newf g.

Definition remove_vertex (g : HEGraph) (v : HEVertex) : HEGraph :=
  mkGraph (set v None (vertices g))
          (map (fun p => with_fcycle
                           (filter (fun u => negb (u =? v)) (fcycle p)) p)
               (faces g))
          (separators g).

(** Modelled from the spec: [remove_vertex_set()]: "delete all IN vertices and
    their incident edges"; the IN vertices are those collected in [v0]. *)
Definition remove_vertex_set (d : VoronoiDiagram) : VoronoiDiagram :=
  with_g (fold_left remove_vertex (v0 d) (g d)) d.

Definition reset_vertex (x : VoronoiVertex) : VoronoiVertex :=
  with_in_queue false (with_status UNDECIDED x).

(** Modelled from the spec: [reset_status()]: "return every touched vertex to
    UNDECIDED and every touched face to NONINCIDENT"; the scratch vectors are
    released. *)
Definition reset_status (d : VoronoiDiagram) : VoronoiDiagram :=
  let g1 := fold_left (fun g v => update_vertex reset_vertex v g)
                      (modified_vertices d) (g d) in
  let g2 := fold_left (fun g f => update_face (with_fstatus NONINCIDENT) f g)
                      (incident_faces d) g1 in
  mkDiagram (fgrid d) g2 (far_radius d) (num_psites d) (num_lsites d)
            [] [] [] [] (vertex_map d).

(** Modelled from the spec: scratch state is "cleared at start of each
    insertion". *)
Definition clear_scratch (d : VoronoiDiagram) : VoronoiDiagram :=
  mkDiagram (fgrid d) (g d) (far_radius d) (num_psites d) (num_lsites d)
            [] [] [] [] (vertex_map d).

(** Modelled from the spec: [p] is "coincident with an existing point
    site". *)
Definition coincident (p : Point) (g : HEGraph) : bool :=
  existsb (fun f => match fsite f with
                    | PointSite q => point_eqb p q
                    | LineSite _ _ => false
                    end) (faces g).

(** Modelled from the spec: the segment from [a] to [b] crosses an existing
    segment, or one of its endpoints lies in the interior of an existing
    segment. *)
Definition conflicts (a b : Point) (g : HEGraph) : bool :=
  existsb (fun f => match fsite f with
                    | PointSite _ => false
                    | LineSite c d =>
                        segments_cross a b c d || in_interior c d a
                        || in_interior c d b
                    end) (faces g).

Fixpoint lookup (k : Z) (m : list (Z * HEVertex)) : option HEVertex :=
  match m with
  | [] => None
  | (k', v) :: r => if (k =? k')%Z then Some v else lookup k r
  end.

Definition midpoint (a b : Point) : Point :=
  (((fst a + fst b) / 2)%Q, ((snd a + snd b) / 2)%Q).

Section Insertion.
(** The external collaborators of section 6. *)
Variable in_circle : Site -> Point -> Q -> list Site -> Q.
(** [grid_find_closest_face(query_point)] *)
Variable grid_find_closest_face : FaceGrid -> Point -> HEFace.
(** [position(face_a_site, face_b_site, new_site, hint_edge)], the hint
    edge given by the positions of its end points; [None] when the solver
    fails. *)
Variable positioner :
  Site -> Site -> Site -> Point -> Point -> option (Point * Q).
(** The root of [SplitPointError] on an edge, as a position: from the end
    points of the edge and the two points of the line. *)
Variable split_position : Point -> Point -> Point -> Point -> Point.

Definition predicate_at (g : HEGraph) (s : Site) (v : HEVertex) : Q :=
  match vertex g v with
  | Some x => in_circle_at in_circle g s v x
  | None => 0%Q
  end.

(** The key a seed is chosen by: the predicate for a point site, its
    magnitude for a segment. *)
Definition seed_key (g : HEGraph) (s : Site) (v : HEVertex) : Q :=
  match s with
  | PointSite _ => predicate_at g s v
  | LineSite _ _ => Qabs (predicate_at g s v)
  end.

(** Modelled from the spec: [find_seed_vertex(f, site)]: "scan vertices of f0,
    pick the one maximizing the in-circle predicate"; for a segment, among the
    vertices whose "in-region test against the segment is true". *)
Definition find_seed_vertex (g : HEGraph) (f : HEFace) (s : Site) : HEVertex :=
  match filter (fun u => in_region s (position_of g u)) (cycle_of g f) with
  | [] => hd 0 (cycle_of g f)
  | a :: r =>
      fold_left (fun best u => if Qltb (seed_key g s best) (seed_key g s u)
                               then u else best) r a
  end.

(** Modelled from the spec: "Set its status to IN; push it onto the queue
    keyed by |predicate|." *)
Definition seed (v : HEVertex) (s : Site) (d : VoronoiDiagram)
  : VoronoiDiagram :=
  let d1 := decide IN v d in
  with_vertexQueue
    (vq_push (v, predicate_at (g d) s v) (vertexQueue d1))
    (with_g (update_vertex (with_in_queue true) v (g d1)) d1).

(** Modelled from the spec: one NEW vertex on the edge [e], at the position
    the positioner computes from the two face sites bordering the edge and the
    new site. *)
Definition add_new_vertex (s : Site) (acc : Z * option VoronoiDiagram)
    (e : HEVertex * HEVertex) : Z * option VoronoiDiagram :=
  match acc with
  | (count, None) => (count, None)
  | (count, Some d) =>
      let fa := site_of (g d) (face_with_edge (g d) e) in
      let fb := site_of (g d) (face_with_edge (g d) (swap_edge e)) in
      match positioner fa fb s (position_of (g d) (fst e))
                       (position_of (g d) (snd e)) with
      | None => (count, None)
      | Some (pos, r) =>
          let '(q, (count', g1)) := add_vertex NEW NORMAL pos r (count, g d) in
          (count',
           Some (with_modified_vertices (modified_vertices d ++ [q])
                   (with_g (add_vertex_in_edge q e g1) d)))
      end
  end.

(** Modelled from the spec: [add_vertices(site)]: "for every edge with one IN
    and one OUT endpoint, create a NEW vertex on that edge". *)
Definition add_vertices (s : Site) (count : Z) (d : VoronoiDiagram)
  : Z * option VoronoiDiagram :=
  fold_left (add_new_vertex s) (find_in_out_edges (g d)) (count, Some d).

(** Modelled from the spec: [add_face(site)] *)
Definition add_face (s : Site) (d : VoronoiDiagram) : HEFace * VoronoiDiagram :=
  let '(f, g1) := add_face_props (mkFace s NONINCIDENT []) (g d) in
  (f, with_g g1 d).

(** Modelled from the spec: [add_separator(f, endp, s1, s2)]: a SEPARATOR
    half-edge leaves the segment endpoint and partitions the endpoint's
    point-site face. *)
Definition add_separator (f : HEFace) (endp : HEVertex) (s1 s2 : Site)
    (g : HEGraph) : HEGraph :=
  mkGraph (vertices g) (faces g) (separators g ++ [(endp, f)]).

(** Modelled from the spec: [find_split_edges(f, pt1, pt2)]: the edges of [f]
    whose end points lie on opposite sides of the line, the bracket the root
    finder needs. *)
Definition find_split_edges (g : HEGraph) (f : HEFace) (pt1 pt2 : Point)
  : list (HEVertex * HEVertex) :=
  filter (fun e => xorb (is_right (position_of g (fst e)) pt1 pt2)
                        (is_right (position_of g (snd e)) pt1 pt2))
         (cycle_edges (cycle_of g f)).

Definition add_split_on (pt1 pt2 : Point) (cg : Z * HEGraph)
    (e : HEVertex * HEVertex) : Z * HEGraph :=
  let g := snd cg in
  let pos := split_position (position_of g (fst e)) (position_of g (snd e))
                            pt1 pt2 in
  let '(q, (count', g1)) := add_vertex UNDECIDED SPLIT pos 0%Q cg in
  (count', add_vertex_in_edge q e g1).

(** Modelled from the spec: [add_split_vertex(f, s)]: a SPLIT vertex on each
    candidate edge. *)
Definition add_split_vertex (f : HEFace) (s : Site) (cg : Z * HEGraph)
  : Z * HEGraph :=
  match s with
  | PointSite _ => cg
  | LineSite pt1 pt2 =>
      fold_left (add_split_on pt1 pt2) (find_split_edges (snd cg) f pt1 pt2) cg
  end.

(** Modelled from the spec: steps 5 to 8 of section 4.2, shared by both
    insertions: repair every incident face, give the new faces their boundary,
    remove the IN vertices, reset. *)
Definition stitch (newf1 : HEFace) (newf2 : option HEFace)
    (keep : HEVertex * HEVertex -> bool) (d : VoronoiDiagram)
  : VoronoiDiagram :=
  let g1 := fold_left (fun g f => repair_face f g) (incident_faces d) (g d) in
  let g2 := close_face keep newf1 (incident_faces d) g1 in
  let g3 := match newf2 with
            | Some f2 => close_face (fun e => negb (keep e)) f2
                                    (incident_faces d) g2
            | None => g2
            end in
  reset_status (remove_vertex_set (with_g g3 d)).

(** Modelled from the spec: [int insert_point_site(const Point& p, int step)]
    of section 4.2, on the process state (the vertex counter and the
    diagram).  The site gets a POINTSITE vertex of its own, the one
    [num_vertices()] leaves out; its handle is the number of point sites
    inserted before it.  [step] has no effect and is left out. *)
Definition insert_point_site (p : Point) (cd : Z * VoronoiDiagram)
  : (InsertError + Z) * (Z * VoronoiDiagram) :=
  let '(count, d) := cd in
  if negb (inside_far_circle p (far_radius d)) || coincident p (g d)
  then (inl InvalidSite, cd)
  else
    let s := PointSite p in
    let d0 := clear_scratch d in
    let '(pv, (count1, g1)) :=
      add_vertex UNDECIDED POINTSITE p 0%Q (count, g d0) in
    let d1 := with_g g1 d0 in
    let f0 := grid_find_closest_face (fgrid d1) p in
    let d2 := seed (find_seed_vertex (g d1) f0 s) s d1 in
    let d3 := augment_vertex_set in_circle (fill_fuel d2) s d2 in
    match add_vertices s count1 d3 with
    | (count2, None) => (inl PositionerFailed, (count2, d))
    | (count2, Some d4) =>
        let '(newf, d5) := add_face s d4 in
        let d6 := stitch newf None (fun _ => true) d5 in
        let handle := num_point_sites d in
        (inr handle,
         (count2,
          with_vertex_map (vertex_map d ++ [(handle, pv)])
            (with_num_psites (wrap_int (num_psites d + 1))
               (with_fgrid (grid_add newf p (fgrid d6)) d6))))
    end.

(** Modelled from the spec: [bool insert_line_site(int idx1, int idx2, int
    step)] *)
Definition insert_line_site (idx1 idx2 : Z) (cd : Z * VoronoiDiagram)
  : bool * (Z * VoronoiDiagram) :=
  let '(count, d) := cd in
  match lookup idx1 (vertex_map d), lookup idx2 (vertex_map d) with
  | Some e1, Some e2 =>
      let p1 := position_of (g d) e1 in
      let p2 := position_of (g d) e2 in
      if (idx1 =? idx2)%Z || point_eqb p1 p2 || conflicts p1 p2 (g d)
      then (false, cd)
      else
        let s := LineSite p1 p2 in
        let d0 := clear_scratch d in
        let g1 := update_vertex (with_vtype ENDPOINT) e2
                    (update_vertex (with_vtype ENDPOINT) e1 (g d0)) in
        let d1 := with_g g1 d0 in
        let f1 := face_of_point (g d1) p1 in
        let f2 := face_of_point (g d1) p2 in
        let d2 := seed (find_seed_vertex (g d1) f1 s) s d1 in
        let d3 := augment_vertex_set in_circle (fill_fuel d2) s d2 in
        match add_vertices s count d3 with
        | (count2, None) => (false, (count2, d))
        | (count2, Some d4) =>
            let g5 := add_separator f2 e2 s s
                        (add_separator f1 e1 s s (g d4)) in
            let '(count3, g6) :=
              fold_left (fun cg f => add_split_vertex f s cg)
                        (filter (fun f => same_supporting_line (site_of g5 f) s)
                                (incident_faces d4))
                        (count2, g5) in
            let '(newf1, d7) := add_face s (with_g g6 d4) in
            let '(newf2, d8) := add_face s d7 in
            let d9 := stitch newf1 (Some newf2)
                        (fun e => is_right (position_of (g d8) (fst e)) p1 p2)
                        d8 in
            (true,
             (count3,
              with_num_lsites (wrap_int (num_lsites d + 1))
                (with_fgrid (grid_add newf2 (midpoint p1 p2)
                               (grid_add newf1 (midpoint p1 p2) (fgrid d9)))
                            d9)))
        end
  | _, _ => (false, cd)
  end.

End Insertion.

(** *** Sequences of insertions *)

Inductive Op : Type :=
| InsertPoint (p : Point)
| InsertLine (idx1 idx2 : Z).

Inductive Outcome : Type :=
| PointOutcome (r : InsertError + Z)
| LineOutcome (ok : bool).

Definition point_succeeded (o : Outcome) : bool :=
  match o with PointOutcome (inr _) => true | _ => false end.

Definition line_succeeded (o : Outcome) : bool :=
  match o with LineOutcome true => true | _ => false end.

Section Runs.
Variable in_circle : Site -> Point -> Q -> list Site -> Q.
Variable grid_find_closest_face : FaceGrid -> Point -> HEFace.
Variable positioner :
  Site -> Site -> Site -> Point -> Point -> option (Point * Q).
Variable split_position : Point -> Point -> Point -> Point -> Point.

Definition apply_op (op : Op) (cd : Z * VoronoiDiagram)
  : Outcome * (Z * VoronoiDiagram) :=
  match op with
  | InsertPoint p =>
      let '(r, cd') :=
        insert_point_site in_circle grid_find_closest_face positioner p cd in
      (PointOutcome r, cd')
  | InsertLine idx1 idx2 =>
      let '(ok, cd') :=
        insert_line_site in_circle positioner split_position idx1 idx2 cd in
      (LineOutcome ok, cd')
  end.

(** The outcomes of the calls, in order, and the final process state. *)
Fixpoint run (ops : list Op) (cd : Z * VoronoiDiagram)
  : list Outcome * (Z * VoronoiDiagram) :=
  match ops with
  | [] => ([], cd)
  | op :: r =>
      let '(o, cd1) := apply_op op cd in
      let '(os, cd2) := run r cd1 in
      (o :: os, cd2)
  end.

(** The process states of a run: before the first call and after each
    call, in order. *)
Fixpoint trace (ops : list Op) (cd : Z * VoronoiDiagram)
  : list (Z * VoronoiDiagram) :=
  match ops with
  | [] => [cd]
  | op :: r => cd :: trace r (snd (apply_op op cd))
  end.

End Runs.

(** *** A small instance of the collaborators

    Enough geometry to run insertions of point sites on concrete input:
    squared distances instead of distances. *)

Definition dist2 (a b : Point) : Q :=
  ((fst a - fst b) * (fst a - fst b) + (snd a - snd b) * (snd a - snd b))%Q.

(** Positive when the vertex is closer to the new site than its clearance
    radius [r]. *)
Definition toy_in_circle (s : Site) (pos : Point) (r : Q) (_ : list Site) : Q :=
  match s with
  | PointSite p => (r * r - dist2 pos p)%Q
  | LineSite a b => (r * r - dist2 pos (midpoint a b))%Q
  end.

(** The registered face whose site is nearest to the query point. *)
Definition toy_grid (fg : FaceGrid) (p : Point) : HEFace :=
  fst (fold_left (fun best e => if Qltb (dist2 (snd e) p) (dist2 (snd best) p)
                                then e else best)
                 (entries fg) (hd (0, p) (entries fg))).

Definition toy_positioner (fa fb s : Site) (a b : Point)
  : option (Point * Q) :=
  Some (midpoint a b, 1%Q).

Definition toy_split (a b pt1 pt2 : Point) : Point := midpoint a b.

(** Runs on a diagram of far radius 10, from a reset vertex counter. *)
Definition toy_run (ops : list Op) : list Outcome * (Z * VoronoiDiagram) :=
  run toy_in_circle toy_grid toy_positioner toy_split ops (construct 10 50 0).

(** Four point sites and the segment between the first two. *)
Definition toy_ops : list Op :=
  [InsertPoint (-1, 0)%Q; InsertPoint (1, 0)%Q; InsertPoint (0, -1)%Q;
   InsertPoint (0, 1)%Q; InsertLine 0 1].

(** A diagram of far radius 10 seeded for the site (1, 0). *)
Definition toy_seeded : VoronoiDiagram :=
  seed toy_in_circle 0 (PointSite (1, 0)%Q) (snd (construct 10 50 0)).

(** *** Reads after writes in the graph *)

Lemma nth_error_set_eq {A : Type} (i : nat) (x : A) (l : list A) :
  i < length l -> nth_error (set i x l) i = Some x.
Proof.
  revert i; induction l as [|a r IH]; intros [|i] H; simpl in *; try lia; auto.
  apply IH. lia.
Qed.

Lemma nth_error_set_neq {A : Type} (i j : nat) (x : A) (l : list A) :
  i <> j -> nth_error (set i x l) j = nth_error l j.
Proof.
  revert i j; induction l as [|a r IH]; intros [|i] [|j] H; simpl; auto;
    try congruence.
Qed.

Lemma vertex_live_lt (g : HEGraph) (v : HEVertex) (x : VoronoiVertex) :
  vertex g v = Some x -> v < length (vertices g).
Proof.
  unfold vertex. intros H.
  destruct (Nat.lt_ge_cases v (length (vertices g))) as [L|L]; auto.
  rewrite nth_overflow in H by exact L. discriminate.
Qed.

Lemma faces_update_vertex (f : VoronoiVertex -> VoronoiVertex) (v : HEVertex)
    (g : HEGraph) :
  faces (update_vertex f v g) = faces g.
Proof. unfold update_vertex. destruct (vertex g v); reflexivity. Qed.

Lemma vertex_update_same (f : VoronoiVertex -> VoronoiVertex) (v : HEVertex)
    (g : HEGraph) (x : VoronoiVertex) :
  vertex g v = Some x -> vertex (update_vertex f v g) v = Some (f x).
Proof.
  intros H. unfold update_vertex. rewrite H. unfold vertex. simpl.
  apply (get_set_eq None). apply (vertex_live_lt g v x H).
Qed.

Lemma vertex_update_other (f : VoronoiVertex -> VoronoiVertex)
    (v u : HEVertex) (g : HEGraph) :
  v <> u -> vertex (update_vertex f v g) u = vertex g u.
Proof.
  intros H. unfold update_vertex. destruct (vertex g v); auto.
  unfold vertex. simpl. apply (get_set_neq None). exact H.
Qed.

Lemma vertex_update_dead (f : VoronoiVertex -> VoronoiVertex) (v : HEVertex)
    (g : HEGraph) :
  vertex g v = None -> update_vertex f v g = g.
Proof. intros H. unfold update_vertex. rewrite H. reflexivity. Qed.

Lemma status_of_update (f : VoronoiVertex -> VoronoiVertex) (v u : HEVertex)
    (g : HEGraph) :
  (forall x, status (f x) = status x) ->
  status_of (update_vertex f v g) u = status_of g u.
Proof.
  intros Hf. unfold status_of.
  destruct (Nat.eq_dec v u) as [->|N].
  - destruct (vertex g u) as [x|] eqn:E.
    + rewrite (vertex_update_same f u g x E). apply Hf.
    + rewrite vertex_update_dead by exact E. rewrite E. reflexivity.
  - rewrite vertex_update_other by exact N. reflexivity.
Qed.

Lemma status_of_set_same (st : VoronoiVertexStatus) (v : HEVertex)
    (g : HEGraph) (x : VoronoiVertex) :
  vertex g v = Some x -> status_of (set_status st v g) v = st.
Proof.
  intros H. unfold status_of, set_status.
  rewrite (vertex_update_same _ v g x H). reflexivity.
Qed.

Lemma status_of_set_other (st : VoronoiVertexStatus) (v u : HEVertex)
    (g : HEGraph) :
  v <> u -> status_of (set_status st v g) u = status_of g u.
Proof.
  intros H. unfold status_of, set_status.
  rewrite vertex_update_other by exact H. reflexivity.
Qed.

Lemma cycle_of_update_vertex (f : VoronoiVertex -> VoronoiVertex)
    (v : HEVertex) (g : HEGraph) (k : HEFace) :
  cycle_of (update_vertex f v g) k = cycle_of g k.
Proof. unfold cycle_of, face. rewrite faces_update_vertex. reflexivity. Qed.

Lemma faces_of_update_vertex (f : VoronoiVertex -> VoronoiVertex)
    (v u : HEVertex) (g : HEGraph) :
  faces_of (update_vertex f v g) u = faces_of g u.
Proof.
  unfold faces_of. rewrite faces_update_vertex.
  apply filter_ext. intros k. rewrite cycle_of_update_vertex. reflexivity.
Qed.

Lemma neighbors_update_vertex (f : VoronoiVertex -> VoronoiVertex)
    (v u : HEVertex) (g : HEGraph) :
  neighbors (update_vertex f v g) u = neighbors g u.
Proof.
  unfold neighbors, all_edges. rewrite faces_update_vertex. reflexivity.
Qed.

Lemma vertices_update_face (h : FaceProps -> FaceProps) (k : HEFace)
    (g : HEGraph) :
  vertices (update_face h k g) = vertices g.
Proof. unfold update_face. destruct (face g k); reflexivity. Qed.

Lemma length_faces_update_face (h : FaceProps -> FaceProps) (k : HEFace)
    (g : HEGraph) :
  length (faces (update_face h k g)) = length (faces g).
Proof.
  unfold update_face. destruct (face g k); simpl; auto. apply length_set.
Qed.

Lemma face_lt (g : HEGraph) (k : HEFace) (p : FaceProps) :
  face g k = Some p -> k < length (faces g).
Proof. unfold face. intros H. apply nth_error_Some. congruence. Qed.

Lemma cycle_of_update_face (h : FaceProps -> FaceProps) (k k' : HEFace)
    (g : HEGraph) :
  (forall p, fcycle (h p) = fcycle p) ->
  cycle_of (update_face h k g) k' = cycle_of g k'.
Proof.
  intros Hh. unfold cycle_of, update_face.
  destruct (face g k) as [p|] eqn:E; auto.
  unfold face in *. simpl.
  destruct (Nat.eq_dec k k') as [->|N].
  - rewrite nth_error_set_eq by (apply nth_error_Some; congruence).
    rewrite E. apply Hh.
  - rewrite nth_error_set_neq by exact N. reflexivity.
Qed.

Lemma status_of_update_face (h : FaceProps -> FaceProps) (k : HEFace)
    (g : HEGraph) (u : HEVertex) :
  status_of (update_face h k g) u = status_of g u.
Proof. unfold status_of, vertex. rewrite vertices_update_face. reflexivity. Qed.

(** *** Invariants of the flood fill *)

(** The IN-vertices along a boundary cycle. *)
Definition is_in_flags (g : HEGraph) (c : list HEVertex) : list bool :=
  map (fun u => is_IN (status_of g u)) c.

(** On every face that has an IN vertex, the IN-vertices form a single
    contiguous arc of the boundary, and the boundary is not wholly IN. *)
Definition arcs_ok (g : HEGraph) : Prop :=
  forall k w, In w (cycle_of g k) -> status_of g w = IN ->
              Arc.single_arc (is_in_flags g (cycle_of g k)).

(** The queue is a heap without repeated vertices, and every queued vertex
    is alive, marked as queued and still UNDECIDED. *)
Definition queue_ok (d : VoronoiDiagram) : Prop :=
  reachable (vertexQueue d) /\
  NoDup (map fst (vertexQueue d)) /\
  forall e, In e (vertexQueue d) ->
            exists x, vertex (g d) (fst e) = Some x /\ in_queue x = true /\
                      status x = UNDECIDED.

(** The state the fill starts from: the seed alone is queued, and no other
    vertex is IN. *)
Definition seed_state (d : VoronoiDiagram) : Prop :=
  exists v h x, vertexQueue d = [(v, h)] /\ vertex (g d) v = Some x /\
                forall w, status_of (g d) w = IN -> w = v.

Definition fill_inv (d : VoronoiDiagram) : Prop :=
  (queue_ok d /\ arcs_ok (g d)) \/ seed_state d.

(** Two graphs with the same statuses and the same boundary cycles. *)
Definition same_marks (g g' : HEGraph) : Prop :=
  (forall u, status_of g' u = status_of g u) /\
  (forall k, cycle_of g' k = cycle_of g k).

Lemma same_marks_refl (g : HEGraph) : same_marks g g.
Proof. split; reflexivity. Qed.

Lemma same_marks_trans (g1 g2 g3 : HEGraph) :
  same_marks g1 g2 -> same_marks g2 g3 -> same_marks g1 g3.
Proof.
  intros [A1 B1] [A2 B2]. split; intros; [rewrite A2, A1|rewrite B2, B1];
    reflexivity.
Qed.

Lemma is_in_flags_same (g g' : HEGraph) (c : list HEVertex) :
  (forall u, status_of g' u = status_of g u) ->
  is_in_flags g' c = is_in_flags g c.
Proof.
  intros H. unfold is_in_flags. apply map_ext. intros u. rewrite H.
  reflexivity.
Qed.

Lemma arcs_ok_same (g g' : HEGraph) :
  same_marks g g' -> arcs_ok g -> arcs_ok g'.
Proof.
  intros [A B] H k w Hw Hs. rewrite B in *. rewrite A in Hs.
  rewrite (is_in_flags_same g g') by exact A. eapply H; eassumption.
Qed.

Lemma mark_face_frame (d : VoronoiDiagram) (f : HEFace) :
  vertices (g (mark_face d f)) = vertices (g d) /\
  same_marks (g d) (g (mark_face d f)) /\
  vertexQueue (mark_face d f) = vertexQueue d.
Proof.
  unfold mark_face; simpl. split; [apply vertices_update_face|].
  split; [|reflexivity]. split.
  - intros u. apply status_of_update_face.
  - intros k. apply cycle_of_update_face. reflexivity.
Qed.

Lemma mark_faces_frame (fs : list HEFace) (d : VoronoiDiagram) :
  vertices (g (fold_left mark_face fs d)) = vertices (g d) /\
  same_marks (g d) (g (fold_left mark_face fs d)) /\
  vertexQueue (fold_left mark_face fs d) = vertexQueue d.
Proof.
  revert d; induction fs as [|f r IH]; intros d; simpl.
  - split; [reflexivity|]. split; [apply same_marks_refl|reflexivity].
  - destruct (IH (mark_face d f)) as (V & M & Q).
    destruct (mark_face_frame d f) as (V' & M' & Q').
    split; [congruence|]. split; [|congruence].
    eapply same_marks_trans; eassumption.
Qed.

Section FillFacts.
Variable in_circle : Site -> Point -> Q -> list Site -> Q.

Lemma push_neighbor_marks (s : Site) (d : VoronoiDiagram) (u : HEVertex) :
  same_marks (g d) (g (push_neighbor in_circle s d u)).
Proof.
  unfold push_neighbor. destruct (vertex (g d) u) as [x|];
    [|apply same_marks_refl].
  destruct (_ && _); [|apply same_marks_refl]. simpl. split.
  - intros w. apply status_of_update. reflexivity.
  - intros k. apply cycle_of_update_vertex.
Qed.

Lemma push_neighbor_queue_ok (s : Site) (d : VoronoiDiagram) (u : HEVertex) :
  queue_ok d -> queue_ok (push_neighbor in_circle s d u).
Proof.
  intros (Hr & Hn & He). unfold push_neighbor.
  destruct (vertex (g d) u) as [x|] eqn:Ex; [|repeat split; assumption].
  destruct (is_UNDECIDED (status x) && negb (in_queue x)) eqn:Ec;
    [|repeat split; assumption].
  apply andb_prop in Ec. destruct Ec as [Eu Ef].
  apply negb_true_iff in Ef.
  assert (Hu : status x = UNDECIDED) by (destruct (status x); auto; discriminate).
  set (e := (u, in_circle_at in_circle (g d) s u x)).
  pose proof (push_perm abs_comparison no_pair (vertexQueue d) e) as P.
  fold (vq_push e (vertexQueue d)) in P.
  assert (Hnew : ~ In u (map fst (vertexQueue d))).
  { intros Hin. apply in_map_iff in Hin. destruct Hin as (e' & Hf & Hi).
    destruct (He e' Hi) as (x' & Hx' & Hq & _).
    rewrite Hf, Ex in Hx'. congruence. }
  unfold queue_ok; simpl. split; [apply reach_push; exact Hr|]. split.
  - apply (Permutation_NoDup (l := u :: map fst (vertexQueue d))).
    + apply Permutation_sym. apply (Permutation_map fst) in P. exact P.
    + constructor; assumption.
  - intros e' Hi. apply (Permutation_in _ P) in Hi.
    destruct Hi as [<-|Hi].
    + exists (with_in_queue true x). split; [|split; auto].
      apply vertex_update_same. exact Ex.
    + destruct (He e' Hi) as (x' & Hx' & Hq & Hs).
      exists x'. split; [|split; auto].
      rewrite vertex_update_other; auto.
      intros Heq. apply Hnew. apply in_map_iff. exists e'. auto.
Qed.

Lemma push_neighbors_spec (s : Site) (us : list HEVertex) (d : VoronoiDiagram) :
  queue_ok d ->
  queue_ok (fold_left (push_neighbor in_circle s) us d) /\
  same_marks (g d) (g (fold_left (push_neighbor in_circle s) us d)).
Proof.
  revert d; induction us as [|u r IH]; intros d Hq; simpl.
  - split; [exact Hq|apply same_marks_refl].
  - destruct (IH (push_neighbor in_circle s d u)) as [Q M].
    { apply push_neighbor_queue_ok. exact Hq. }
    split; [exact Q|].
    eapply same_marks_trans; [apply push_neighbor_marks|exact M].
Qed.

Lemma push_neighbors_marks (s : Site) (us : list HEVertex)
    (d : VoronoiDiagram) :
  same_marks (g d) (g (fold_left (push_neighbor in_circle s) us d)).
Proof.
  revert d; induction us as [|u r IH]; intros d; simpl.
  - apply same_marks_refl.
  - eapply same_marks_trans; [apply push_neighbor_marks|apply IH].
Qed.

End FillFacts.

(** *** Accepting and rejecting a vertex *)

Lemma in_flags_accepted (g : HEGraph) (v : HEVertex) (x : VoronoiVertex)
    (c : list HEVertex) :
  vertex g v = Some x ->
  is_in_flags (set_status IN v g) c = in_flags g v c.
Proof.
  intros Hx. unfold is_in_flags, in_flags. apply map_ext. intros u.
  destruct (Nat.eqb_spec u v) as [->|N].
  - rewrite (status_of_set_same IN v g x Hx). reflexivity.
  - rewrite status_of_set_other by congruence. reflexivity.
Qed.

Lemma in_flags_off_cycle (g : HEGraph) (st : VoronoiVertexStatus)
    (v : HEVertex) (c : list HEVertex) :
  ~ In v c -> is_in_flags (set_status st v g) c = is_in_flags g c.
Proof.
  intros Hv. unfold is_in_flags. apply map_ext_in. intros u Hu.
  rewrite status_of_set_other; auto. intros ->. contradiction.
Qed.

Lemma on_cycle_In (v : HEVertex) (c : list HEVertex) :
  on_cycle v c = true <-> In v c.
Proof.
  unfold on_cycle. rewrite existsb_exists. split.
  - intros (u & Hu & E). apply Nat.eqb_eq in E. subst. exact Hu.
  - intros H. exists v. split; auto. apply Nat.eqb_refl.
Qed.

Lemma faces_of_In (g : HEGraph) (v : HEVertex) (k : HEFace) :
  In v (cycle_of g k) -> In k (faces_of g v).
Proof.
  intros H. unfold faces_of. apply filter_In. split.
  - apply in_seq. split; [lia|]. simpl.
    unfold cycle_of in H. destruct (face g k) as [p|] eqn:E; [|destruct H].
    apply (face_lt g k p E).
  - apply on_cycle_In. exact H.
Qed.

(** C5 on one face incident to [v]: a vertex other than [v] of status
    OUT. *)
Lemma predicate_c5_out (g : HEGraph) (v : HEVertex) (k : HEFace) :
  predicate_c5 g v = true -> In v (cycle_of g k) ->
  exists u, In u (cycle_of g k) /\ u <> v /\ status_of g u = OUT.
Proof.
  intros H5 Hv. pose proof (faces_of_In g v k Hv) as Hk.
  unfold predicate_c5 in H5. rewrite forallb_forall in H5.
  specialize (H5 k Hk). apply existsb_exists in H5.
  destruct H5 as (u & Hu & E). apply andb_prop in E as [Hne Ho].
  exists u. split; [exact Hu|]. split.
  - intros ->. rewrite Nat.eqb_refl in Hne. discriminate.
  - destruct (status_of g u); try discriminate. reflexivity.
Qed.

(** What C4 and C5 give on one face incident to the accepted vertex. *)
Lemma accepted_face_arc (g : HEGraph) (v : HEVertex) (x : VoronoiVertex)
    (k : HEFace) :
  vertex g v = Some x ->
  predicate_c4 g v = true -> predicate_c5 g v = true ->
  In v (cycle_of g k) ->
  Arc.single_arc (is_in_flags (set_status IN v g) (cycle_of g k)).
Proof.
  intros Hx H4 H5 Hv.
  rewrite (in_flags_accepted g v x) by exact Hx.
  pose proof (faces_of_In g v k Hv) as Hk.
  unfold predicate_c4 in H4. rewrite forallb_forall in H4.
  destruct (predicate_c5_out g v k H5 Hv) as (u & Hu & Hne & Ho).
  apply Arc.arc_shape_single_arc.
  - apply H4. exact Hk.
  - unfold in_flags. apply in_map_iff. exists v. split; auto.
    rewrite Nat.eqb_refl. reflexivity.
  - unfold in_flags. apply in_map_iff. exists u. split; [|exact Hu].
    rewrite Ho. apply Nat.eqb_neq in Hne. rewrite Hne. reflexivity.
Qed.

Lemma accept_arcs_ok (g : HEGraph) (v : HEVertex) (x : VoronoiVertex) :
  vertex g v = Some x ->
  predicate_c4 g v = true -> predicate_c5 g v = true ->
  (forall k w, In w (cycle_of g k) -> status_of g w = IN -> w <> v ->
               Arc.single_arc (is_in_flags g (cycle_of g k))) ->
  arcs_ok (set_status IN v g).
Proof.
  intros Hx H4 H5 HP k w Hw Hs.
  unfold set_status in Hw |- *. rewrite cycle_of_update_vertex in *.
  fold (set_status IN v g) in *.
  destruct (in_dec Nat.eq_dec v (cycle_of g k)) as [Hv|Hv].
  - eapply accepted_face_arc; eassumption.
  - rewrite in_flags_off_cycle by exact Hv.
    assert (Hwv : w <> v) by (intros ->; contradiction).
    rewrite status_of_set_other in Hs by congruence.
    eapply HP; eassumption.
Qed.

Lemma reject_arcs_ok (g : HEGraph) (v : HEVertex) (x : VoronoiVertex) :
  vertex g v = Some x ->
  (forall k w, In w (cycle_of g k) -> status_of g w = IN -> w <> v ->
               Arc.single_arc (is_in_flags g (cycle_of g k))) ->
  status_of g v <> IN \/ (forall w, status_of g w = IN -> w = v) ->
  arcs_ok (set_status OUT v g).
Proof.
  intros Hx HP Hv k w Hw Hs.
  unfold set_status in Hw |- *. rewrite cycle_of_update_vertex in *.
  fold (set_status OUT v g) in *.
  assert (Hwv : w <> v).
  { intros ->. rewrite (status_of_set_same OUT v g x Hx) in Hs. discriminate. }
  rewrite status_of_set_other in Hs by congruence.
  destruct Hv as [Hv|Hv]; [|exfalso; apply Hwv, Hv, Hs].
  replace (is_in_flags (set_status OUT v g) (cycle_of g k))
    with (is_in_flags g (cycle_of g k)); [eapply HP; eassumption|].
  unfold is_in_flags. apply map_ext. intros u.
  destruct (Nat.eq_dec u v) as [->|N].
  - rewrite (status_of_set_same OUT v g x Hx).
    destruct (status_of g v); auto. congruence.
  - rewrite status_of_set_other by congruence. reflexivity.
Qed.

(** *** One iteration of the fill *)

(** What both kinds of state know about the vertex on top of the queue. *)
Definition step_pre (d : VoronoiDiagram) (v : HEVertex) : Prop :=
  (exists x, vertex (g d) v = Some x) /\
  reachable (vertexQueue d) /\
  NoDup (map fst (vertexQueue d)) /\
  (forall e, In e (vertexQueue d) -> fst e <> v ->
             exists x, vertex (g d) (fst e) = Some x /\ in_queue x = true /\
                       status x = UNDECIDED) /\
  (forall k w, In w (cycle_of (g d) k) -> status_of (g d) w = IN -> w <> v ->
               Arc.single_arc (is_in_flags (g d) (cycle_of (g d) k))) /\
  (status_of (g d) v <> IN \/ forall w, status_of (g d) w = IN -> w = v).

Lemma top_in_queue (q : VertexQueue) : q <> [] -> In (vq_top q) q.
Proof.
  intros H. unfold vq_top, top. apply get_in.
  destruct q; [congruence|simpl; lia].
Qed.

Lemma reachable_singleton (e : VertexDetPair) : reachable [e].
Proof.
  change [e] with (vq_push e []). apply reach_push, reach_empty.
Qed.

Lemma fill_inv_pre (d : VoronoiDiagram) :
  fill_inv d -> vertexQueue d <> [] ->
  step_pre d (fst (vq_top (vertexQueue d))).
Proof.
  intros [[(Hr & Hn & He) Ha]|(v & h & x & Eq & Hx & Ho)] Hq.
  - destruct (He _ (top_in_queue _ Hq)) as (x & Hx & Hf & Hs).
    split; [exists x; exact Hx|]. split; [exact Hr|]. split; [exact Hn|].
    split; [intros e Hi _; apply He; exact Hi|].
    split; [intros k w Hw Hs' _; eapply Ha; eassumption|].
    left. unfold status_of. rewrite Hx, Hs. discriminate.
  - unfold step_pre. rewrite Eq. simpl.
    split; [exists x; exact Hx|].
    split; [apply reachable_singleton|].
    split; [repeat constructor; simpl; tauto|].
    split; [intros e [<-|[]] N; simpl in N; congruence|].
    split; [intros k w _ Hs N; elim N; apply Ho; exact Hs|].
    right. exact Ho.
Qed.

Lemma pop_entries (q : VertexQueue) :
  reachable q -> q <> [] -> NoDup (map fst q) ->
  NoDup (map fst (vq_pop q)) /\
  forall e, In e (vq_pop q) -> In e q /\ fst e <> fst (vq_top q).
Proof.
  intros Hr Hq Hn.
  pose proof (proj2 (pop_spec abs_comparison no_pair abs_comparison_asym
                       abs_comparison_trans abs_comparison_negtrans q Hq
                       (reachable_is_heap q Hr))) as P.
  fold (vq_top q) in P. fold (vq_pop q) in P.
  assert (Hn' : NoDup (map fst (vq_top q :: vq_pop q))).
  { apply (Permutation_NoDup (l := map fst q)); auto.
    apply Permutation_sym, Permutation_map, P. }
  simpl in Hn'. inversion Hn' as [|a l Hni Hnd]; subst.
  split; [exact Hnd|]. intros e Hi. split.
  - apply (Permutation_in _ P). right. exact Hi.
  - intros E. apply Hni. rewrite <- E. apply in_map. exact Hi.
Qed.

Lemma decide_top_spec (s : Site) (d : VoronoiDiagram) :
  fill_inv d -> vertexQueue d <> [] ->
  let v := fst (vq_top (vertexQueue d)) in
  let d2 := decide_top s d in
  ((predicate_c4 (g d) v && predicate_c5 (g d) v = true /\
    status_of (g d2) v = IN) \/
   (predicate_c4 (g d) v && predicate_c5 (g d) v = false /\
    status_of (g d2) v = OUT)) /\
  queue_ok d2 /\ arcs_ok (g d2).
Proof.
  intros Hinv Hq v d2.
  destruct (fill_inv_pre d Hinv Hq) as ([x Hx] & Hr & Hn & He & HP & Ho).
  fold v in Hx, He, HP, Ho.
  destruct (pop_entries _ Hr Hq Hn) as [Hn' Hpop]. fold v in Hpop.
  assert (Hqueue : forall g' st,
             vertices g' = vertices (set_status st v (g d)) ->
             forall e, In e (vq_pop (vertexQueue d)) ->
             exists y, vertex g' (fst e) = Some y /\ in_queue y = true /\
                       status y = UNDECIDED).
  { intros g' st Hv e Hi. destruct (Hpop e Hi) as [Hi' Hne].
    destruct (He e Hi' Hne) as (y & Hy & Hf & Hs).
    exists y. split; [|split; auto].
    unfold vertex. rewrite Hv. fold (vertex (set_status st v (g d)) (fst e)).
    unfold set_status. rewrite vertex_update_other by congruence. exact Hy. }
  unfold d2, decide_top. fold v. cbn [g with_vertexQueue].
  destruct (predicate_c4 (g d) v && predicate_c5 (g d) v) eqn:Ec.
  - apply andb_prop in Ec. destruct Ec as [H4 H5].
    unfold mark_vertex, mark_adjacent_faces.
    match goal with
    | |- context [fold_left mark_face ?fs ?d0] =>
        destruct (mark_faces_frame fs d0) as (V & [Ms Mc] & Q);
        set (dm := fold_left mark_face fs d0) in *
    end.
    cbn [g with_v0 decide with_modified_vertices with_g vertexQueue
           with_vertexQueue] in V, Ms, Mc, Q.
    split; [|split].
    + left. split; [reflexivity|]. rewrite Ms.
      apply (status_of_set_same IN v (g d) x Hx).
    + split; [rewrite Q; apply reach_pop; assumption|].
      split; [rewrite Q; exact Hn'|].
      rewrite Q. apply (Hqueue (g dm) IN). exact V.
    + apply (arcs_ok_same (set_status IN v (g d))); [split; assumption|].
      eapply accept_arcs_ok; eassumption.
  - cbn [g decide with_modified_vertices with_g vertexQueue with_vertexQueue].
    split; [|split].
    + right. split; [reflexivity|].
      apply (status_of_set_same OUT v (g d) x Hx).
    + split; [apply reach_pop; assumption|]. split; [exact Hn'|].
      apply (Hqueue _ OUT). reflexivity.
    + eapply reject_arcs_ok; eassumption.
Qed.

(** Deciding the top vertex writes its status and nothing else that the
    predicates read. *)
Lemma decide_top_marks (s : Site) (d : VoronoiDiagram) :
  let v := fst (vq_top (vertexQueue d)) in
  same_marks
    (set_status (if predicate_c4 (g d) v && predicate_c5 (g d) v
                 then IN else OUT) v (g d))
    (g (decide_top s d)).
Proof.
  cbv zeta. unfold decide_top. cbn [g with_vertexQueue].
  destruct (predicate_c4 (g d) (fst (vq_top (vertexQueue d))) &&
            predicate_c5 (g d) (fst (vq_top (vertexQueue d)))).
  - unfold mark_vertex, mark_adjacent_faces.
    match goal with
    | |- context [fold_left mark_face ?fs ?d0] =>
        destruct (mark_faces_frame fs d0) as (_ & M & _)
    end.
    exact M.
  - apply same_marks_refl.
Qed.

Section FillSteps.
Variable in_circle : Site -> Point -> Q -> list Site -> Q.

Lemma augment_step_marks (s : Site) (d d' : VoronoiDiagram) :
  augment_step in_circle s d = Some d' ->
  let v := fst (vq_top (vertexQueue d)) in
  same_marks
    (set_status (if predicate_c4 (g d) v && predicate_c5 (g d) v
                 then IN else OUT) v (g d))
    (g d').
Proof.
  intros Hstep. cbv zeta. unfold augment_step in Hstep.
  destruct (vertexQueue d) as [|e q] eqn:Eq; [discriminate|].
  rewrite <- Eq in *. injection Hstep as <-.
  eapply same_marks_trans; [apply decide_top_marks|].
  apply push_neighbors_marks.
Qed.

Lemma augment_step_spec (s : Site) (d d' : VoronoiDiagram) :
  fill_inv d -> augment_step in_circle s d = Some d' ->
  let v := fst (vq_top (vertexQueue d)) in
  ((predicate_c4 (g d) v && predicate_c5 (g d) v = true /\
    status_of (g d') v = IN) \/
   (predicate_c4 (g d) v && predicate_c5 (g d) v = false /\
    status_of (g d') v = OUT)) /\
  queue_ok d' /\ arcs_ok (g d').
Proof.
  intros Hinv Hstep. cbv zeta.
  assert (Hq : vertexQueue d <> []).
  { intros E. unfold augment_step in Hstep. rewrite E in Hstep. discriminate. }
  unfold augment_step in Hstep.
  destruct (vertexQueue d) as [|e q] eqn:Eq; [congruence|].
  rewrite <- Eq in *. injection Hstep as <-.
  clear Eq e q.
  destruct (decide_top_spec s d Hinv Hq) as (Hv & Hqk & Ha).
  set (v := fst (vq_top (vertexQueue d))) in *.
  destruct (push_neighbors_spec in_circle s
              (neighbors (g (decide_top s d)) v) (decide_top s d) Hqk)
    as [Hqk' [Ms Mc]].
  split; [|split].
  - rewrite Ms. exact Hv.
  - exact Hqk'.
  - eapply arcs_ok_same; [split; eassumption|exact Ha].
Qed.

Lemma steps_fill_inv (n : nat) (s : Site) (d0 d : VoronoiDiagram) :
  fill_inv d0 -> steps in_circle n s d0 = Some d -> fill_inv d.
Proof.
  revert d0; induction n as [|n IH]; intros d0 Hinv H; simpl in H.
  - injection H as <-. exact Hinv.
  - destruct (augment_step in_circle s d0) as [d1|] eqn:E; [|discriminate].
    apply (IH d1); auto. left.
    apply (augment_step_spec s d0 d1 Hinv E).
Qed.

End FillSteps.

(** C1: in every iteration of [augment_vertex_set], from the seeded state
    on, the popped vertex [v] ends IN or OUT; it is IN only if C4 and C5
    both hold for it, and OUT whenever one of them fails.  When [v] is
    accepted, every face incident to [v] still has a vertex of status OUT
    after the iteration.  After the iteration, on every face that has an IN
    vertex the IN-vertices form a single contiguous arc of the boundary
    cycle and the boundary is not wholly IN. *)
Theorem flood_fill_respects_c4_c5
    (in_circle : Site -> Point -> Q -> list Site -> Q) (s : Site)
    (d0 d d' : VoronoiDiagram) (n : nat) :
  seed_state d0 ->
  steps in_circle n s d0 = Some d ->
  augment_step in_circle s d = Some d' ->
  let v := fst (vq_top (vertexQueue d)) in
  (status_of (g d') v = IN \/ status_of (g d') v = OUT) /\
  (status_of (g d') v = IN ->
   predicate_c4 (g d) v = true /\ predicate_c5 (g d) v = true) /\
  (predicate_c4 (g d) v = false \/ predicate_c5 (g d) v = false ->
   status_of (g d') v = OUT) /\
  (status_of (g d') v = IN ->
   forall k, In v (cycle_of (g d') k) ->
             exists u, In u (cycle_of (g d') k) /\ u <> v /\
                       status_of (g d') u = OUT) /\
  (forall k w, In w (cycle_of (g d') k) -> status_of (g d') w = IN ->
               Arc.single_arc (is_in_flags (g d') (cycle_of (g d') k))).
Proof.
  intros Hseed Hsteps Hstep v.
  assert (Hinv : fill_inv d).
  { eapply steps_fill_inv; [right; exact Hseed|exact Hsteps]. }
  destruct (augment_step_spec in_circle s d d' Hinv Hstep) as (Hv & _ & Ha).
  pose proof (augment_step_marks in_circle s d d' Hstep) as M.
  cbv zeta in M. fold v in Hv, M.
  split; [|split; [|split; [|split]]].
  - destruct Hv as [[_ H]|[_ H]]; auto.
  - intros Hin. destruct Hv as [[Hc _]|[_ Ho]].
    + apply andb_prop in Hc. exact Hc.
    + rewrite Ho in Hin. discriminate.
  - intros Hf. destruct Hv as [[Hc _]|[_ Ho]]; [|exact Ho].
    apply andb_prop in Hc. destruct Hc as [H4 H5].
    destruct Hf as [Hf|Hf]; congruence.
  - intros Hin k Hk. destruct Hv as [[Hc _]|[_ Ho]];
      [|rewrite Ho in Hin; discriminate].
    rewrite Hc in M. destruct M as [Ms Mc].
    apply andb_prop in Hc. destruct Hc as [_ H5].
    unfold set_status in Mc. rewrite Mc, cycle_of_update_vertex in *.
    destruct (predicate_c5_out (g d) v k H5 Hk) as (u & Hu & Hne & Ho).
    exists u. split; [exact Hu|]. split; [exact Hne|].
    rewrite Ms, status_of_set_other by congruence. exact Ho.
  - exact Ha.
Qed.

Lemma flood_fill_respects_c4_c5_witness :
  let s := PointSite (1, 0)%Q in
  let d := augment_vertex_set toy_in_circle 1 s toy_seeded in
  let d' := augment_vertex_set toy_in_circle 2 s toy_seeded in
  (seed_state toy_seeded /\
   steps toy_in_circle 1 s toy_seeded = Some d /\
   augment_step toy_in_circle s d = Some d') /\
  fst (vq_top (vertexQueue d)) = 3 /\
  status_of (g d') 3 = IN /\
  (exists u, In u (cycle_of (g d') 1) /\ u <> 3 /\ status_of (g d') u = OUT) /\
  Arc.single_arc (is_in_flags (g d') (cycle_of (g d') 1)).
Proof.
  intros s d d'.
  assert (H0 : seed_state toy_seeded).
  { exists 0, (6399 # 1)%Q,
      (mkVertex 0 IN NORMAL (0, 0)%Q (8 * 10)%Q true).
    split; [vm_compute; reflexivity|]. split; [reflexivity|].
    intros w Hw.
    destruct w as [|[|[|[|[|w]]]]]; try reflexivity;
      vm_compute in Hw; discriminate. }
  assert (H1 : steps toy_in_circle 1 s toy_seeded = Some d)
    by (vm_compute; reflexivity).
  assert (H2 : augment_step toy_in_circle s d = Some d')
    by (vm_compute; reflexivity).
  assert (Hv : fst (vq_top (vertexQueue d)) = 3) by (vm_compute; reflexivity).
  assert (Hs : status_of (g d') 3 = IN) by (vm_compute; reflexivity).
  assert (Hk : In 3 (cycle_of (g d') 1)) by (vm_compute; auto).
  split; [split; [exact H0|split; [exact H1|exact H2]]|].
  pose proof (flood_fill_respects_c4_c5 toy_in_circle s toy_seeded d d' 1
                H0 H1 H2) as T.
  cbv zeta in T. rewrite Hv in T. destruct T as (_ & _ & _ & Ho & Ha).
  split; [reflexivity|]. split; [exact Hs|].
  split; [exact (Ho Hs 1 Hk)|exact (Ha 1 3 Hk Hs)].
Defined.

(** *** The fill drains the queue *)

Lemma fold_left_preserves {A B C : Type} (f : A -> B -> A) (proj : A -> C) :
  (forall a b, proj (f a b) = proj a) ->
  forall l a, proj (fold_left f l a) = proj a.
Proof.
  intros H l; induction l as [|b r IH]; intros a; simpl; auto.
  rewrite IH. apply H.
Qed.

Definition unqueued (o : option VoronoiVertex) : bool :=
  match o with Some x => negb (in_queue x) | None => false end.

Lemma fill_fuel_unfold (d : VoronoiDiagram) :
  fill_fuel d
  = length (vertexQueue d) + length (filter unqueued (vertices (g d))).
Proof. reflexivity. Qed.

Lemma filter_set_same {A : Type} (P : A -> bool) (dflt a' : A) (i : nat)
    (l : list A) :
  i < length l -> P a' = P (nth i l dflt) ->
  length (filter P (set i a' l)) = length (filter P l).
Proof.
  revert i; induction l as [|a r IH]; intros [|i] Hi HP; simpl in *; try lia.
  - rewrite HP. destruct (P a); reflexivity.
  - destruct (P a); simpl; rewrite IH by (auto; lia); reflexivity.
Qed.

Lemma filter_set_drop {A : Type} (P : A -> bool) (dflt a' : A) (i : nat)
    (l : list A) :
  i < length l -> P (nth i l dflt) = true -> P a' = false ->
  S (length (filter P (set i a' l))) = length (filter P l).
Proof.
  revert i; induction l as [|a r IH]; intros [|i] Hi H1 H2; simpl in *;
    try lia.
  - rewrite H1, H2. reflexivity.
  - destruct (P a); simpl; rewrite <- (IH i) by (auto; lia); reflexivity.
Qed.

Lemma unqueued_update_keep (f : VoronoiVertex -> VoronoiVertex) (v : HEVertex)
    (g : HEGraph) :
  (forall x, in_queue (f x) = in_queue x) ->
  length (filter unqueued (vertices (update_vertex f v g)))
  = length (filter unqueued (vertices g)).
Proof.
  intros Hf. unfold update_vertex. destruct (vertex g v) as [x|] eqn:E; auto.
  cbn [vertices]. apply (filter_set_same unqueued None).
  - apply (vertex_live_lt g v x E).
  - unfold vertex in E. rewrite E. simpl. rewrite Hf. reflexivity.
Qed.

Lemma fill_fuel_decide_top (s : Site) (d : VoronoiDiagram) :
  reachable (vertexQueue d) -> vertexQueue d <> [] ->
  S (fill_fuel (decide_top s d)) = fill_fuel d.
Proof.
  intros Hr Hq.
  pose proof (proj2 (pop_spec abs_comparison no_pair abs_comparison_asym
                       abs_comparison_trans abs_comparison_negtrans
                       (vertexQueue d) Hq (reachable_is_heap _ Hr))) as P.
  apply Permutation_length in P. cbn [length] in P.
  fold (vq_pop (vertexQueue d)) in P.
  assert (E : length (vertexQueue (decide_top s d))
              = length (vq_pop (vertexQueue d)) /\
              length (filter unqueued (vertices (g (decide_top s d))))
              = length (filter unqueued (vertices (g d)))).
  { unfold decide_top. destruct (_ && _).
    - unfold mark_vertex, mark_adjacent_faces.
      match goal with
      | |- context [fold_left mark_face ?fs ?d0] =>
          destruct (mark_faces_frame fs d0) as (V & _ & Q)
      end.
      rewrite V, Q. cbn. split; [reflexivity|].
      apply unqueued_update_keep. reflexivity.
    - cbn. split; [reflexivity|]. apply unqueued_update_keep. reflexivity. }
  rewrite !fill_fuel_unfold. destruct E as [-> ->]. lia.
Qed.

Section Drain.
Variable in_circle : Site -> Point -> Q -> list Site -> Q.

Lemma fill_fuel_push_neighbor (s : Site) (d : VoronoiDiagram) (u : HEVertex) :
  fill_fuel (push_neighbor in_circle s d u) = fill_fuel d.
Proof.
  unfold push_neighbor. destruct (vertex (g d) u) as [x|] eqn:E; auto.
  destruct (is_UNDECIDED (status x) && negb (in_queue x)) eqn:Ec; auto.
  apply andb_prop in Ec. destruct Ec as [_ Ef].
  rewrite !fill_fuel_unfold. cbn [vertexQueue with_vertexQueue g with_g].
  pose proof (push_perm abs_comparison no_pair (vertexQueue d)
                (u, in_circle_at in_circle (g d) s u x)) as P.
  apply Permutation_length in P. cbn [length] in P.
  unfold vq_push. rewrite P.
  unfold update_vertex. rewrite E. cbn [vertices].
  rewrite <- (filter_set_drop unqueued None
                (Some (with_in_queue true x)) u (vertices (g d))).
  - lia.
  - apply (vertex_live_lt (g d) u x E).
  - unfold vertex in E. rewrite E. exact Ef.
  - reflexivity.
Qed.

Lemma augment_step_fuel (s : Site) (d d' : VoronoiDiagram) :
  fill_inv d -> augment_step in_circle s d = Some d' ->
  S (fill_fuel d') = fill_fuel d.
Proof.
  intros Hinv Hstep.
  assert (Hq : vertexQueue d <> []).
  { intros E. unfold augment_step in Hstep. rewrite E in Hstep. discriminate. }
  destruct (fill_inv_pre d Hinv Hq) as (_ & Hr & _).
  unfold augment_step in Hstep.
  destruct (vertexQueue d) as [|e q] eqn:Eq; [congruence|].
  rewrite <- Eq in *. injection Hstep as <-.
  rewrite (fold_left_preserves (push_neighbor in_circle s) fill_fuel)
    by (intros; apply fill_fuel_push_neighbor).
  apply fill_fuel_decide_top; assumption.
Qed.

(** With [fill_fuel] iterations [augment_vertex_set] leaves the queue
    empty. *)
Lemma augment_vertex_set_drains (n : nat) (s : Site) (d : VoronoiDiagram) :
  fill_inv d -> fill_fuel d <= n ->
  vertexQueue (augment_vertex_set in_circle n s d) = [].
Proof.
  revert d; induction n as [|n IH]; intros d Hinv Hn; cbn [augment_vertex_set].
  - rewrite fill_fuel_unfold in Hn.
    destruct (vertexQueue d); [reflexivity|simpl in Hn; lia].
  - destruct (augment_step in_circle s d) as [d1|] eqn:E.
    + apply IH.
      * left. apply (augment_step_spec in_circle s d d1 Hinv E).
      * pose proof (augment_step_fuel s d d1 Hinv E). lia.
    + unfold augment_step in E.
      destruct (vertexQueue d); [reflexivity|discriminate].
Qed.

(** The state [seed] produces from a diagram with no IN vertex and an
    empty queue is the one the fill starts from. *)
Lemma seed_gives_seed_state (v : HEVertex) (s : Site) (d : VoronoiDiagram)
    (x : VoronoiVertex) :
  vertex (g d) v = Some x -> vertexQueue d = [] ->
  (forall w, status_of (g d) w <> IN) ->
  seed_state (seed in_circle v s d).
Proof.
  intros Hx Hq Hn. unfold seed.
  exists v, (predicate_at in_circle (g d) s v),
    (with_in_queue true (with_status IN x)).
  cbn [vertexQueue with_vertexQueue decide with_modified_vertices with_g g].
  rewrite Hq. split; [reflexivity|]. split.
  - apply vertex_update_same. unfold set_status.
    apply vertex_update_same. exact Hx.
  - intros w Hw. destruct (Nat.eq_dec w v) as [->|N]; auto.
    rewrite status_of_update in Hw by reflexivity.
    rewrite status_of_set_other in Hw by congruence.
    elim (Hn w Hw).
Qed.

End Drain.

(** *** The accessors *)

Lemma wrap_int_id (z : Z) : in_int z -> wrap_int z = z.
Proof.
  unfold in_int, int_min, int_max, wrap_int. intros H.
  rewrite Z.mod_small by lia. lia.
Qed.

Lemma wrap_int_add (a b : Z) : wrap_int (wrap_int a + b) = wrap_int (a + b).
Proof.
  unfold wrap_int. f_equal.
  replace ((a + 2 ^ 31) mod 2 ^ 32 - 2 ^ 31 + b + 2 ^ 31)%Z
    with ((a + 2 ^ 31) mod 2 ^ 32 + b)%Z by lia.
  rewrite Zplus_mod_idemp_l. f_equal. lia.
Qed.

Lemma wrap_int_in_int (z : Z) : in_int (wrap_int z).
Proof.
  unfold in_int, int_min, int_max, wrap_int.
  pose proof (Z.mod_pos_bound (z + 2 ^ 31) (2 ^ 32) ltac:(lia)). lia.
Qed.

(** C9: [num_vertices()] is the number of graph vertices minus
    [num_point_sites()], that is [g.num_vertices() - (num_psites - 3)] in
    [int] arithmetic; whenever these differences are representable, it is
    exactly that number, and the graph holds exactly [num_point_sites()]
    vertices more than are reported. *)
Theorem num_vertices_excludes_point_sites (d : VoronoiDiagram) :
  num_vertices d = wrap_int (g_num_vertices (g d) - num_point_sites d) /\
  num_vertices d =
    wrap_int (g_num_vertices (g d) - wrap_int (num_psites d - 3)) /\
  (in_int (num_psites d - 3) ->
   in_int (g_num_vertices (g d) - (num_psites d - 3)) ->
   num_vertices d = (g_num_vertices (g d) - (num_psites d - 3))%Z /\
   (g_num_vertices (g d) - num_vertices d)%Z = num_point_sites d).
Proof.
  split; [reflexivity|]. split; [reflexivity|].
  intros H1 H2. unfold num_vertices, num_point_sites.
  rewrite (wrap_int_id _ H1). rewrite (wrap_int_id _ H2). lia.
Qed.

Lemma num_vertices_excludes_point_sites_witness :
  let d := mkDiagram (mkGrid 50 [])
             (mkGraph [Some (mkVertex 0 UNDECIDED NORMAL (0, 0)%Q 0%Q false);
                       None;
                       Some (mkVertex 2 UNDECIDED POINTSITE (1, 0)%Q 0%Q false)]
                      [] [])
             10%Q 4%Z 0%Z [] [] [] [] [] in
  (in_int (num_psites d - 3) /\
   in_int (g_num_vertices (g d) - (num_psites d - 3))) /\
  num_vertices d = 1%Z /\
  (g_num_vertices (g d) - num_vertices d)%Z = num_point_sites d.
Proof.
  intros d.
  assert (H1 : in_int (num_psites d - 3)) by (vm_compute; split; discriminate).
  assert (H2 : in_int (g_num_vertices (g d) - (num_psites d - 3)))
    by (vm_compute; split; discriminate).
  split; [split; assumption|].
  exact (proj2 (proj2 (num_vertices_excludes_point_sites d)) H1 H2).
Defined.

(** C10: the no-argument constructor writes none of [far_radius],
    [num_psites], [num_lsites]: whatever values the storage holds, a
    default-constructed diagram with these values exists, and the four
    accessors return what follows from them.  The two-argument constructor
    fixes them: the far radius given, no point site, no line site, the four
    initial Voronoi vertices. *)
Theorem default_constructor_leaves_scalars_unset :
  (forall (r : Q) (p l : Z),
     exists d, default_constructed d /\
               get_far_radius d = r /\
               num_point_sites d = wrap_int (p - 3) /\
               num_line_sites d = l /\
               num_vertices d = wrap_int (0 - wrap_int (p - 3))) /\
  (forall (far : Q) (bins count : Z),
     get_far_radius (snd (construct far bins count)) = far /\
     num_point_sites (snd (construct far bins count)) = 0%Z /\
     num_line_sites (snd (construct far bins count)) = 0%Z /\
     num_vertices (snd (construct far bins count)) = 4%Z).
Proof.
  split.
  - intros r p l.
    exists (mkDiagram (mkGrid 0 []) (mkGraph [] [] []) r p l [] [] [] [] []).
    repeat split; reflexivity.
  - intros far bins count. repeat split; reflexivity.
Qed.

(** *** Rejected insertions *)

Lemma Qeqb_eq (a b : Q) : Qeqb a b = true <-> a == b.
Proof.
  unfold Qeqb. rewrite andb_true_iff, !Qle_bool_iff. split.
  - intros [H1 H2]. apply Qle_antisym; assumption.
  - intros H. rewrite H. split; apply Qle_refl.
Qed.

Lemma point_eqb_eq (p q : Point) :
  point_eqb p q = true <-> fst p == fst q /\ snd p == snd q.
Proof. unfold point_eqb. rewrite andb_true_iff, !Qeqb_eq. tauto. Qed.

Lemma outside_far_circle (p : Point) (R : Q) :
  (R * R <= fst p * fst p + snd p * snd p)%Q -> inside_far_circle p R = false.
Proof.
  intros H. unfold inside_far_circle. apply andb_false_iff. right.
  apply Qltb_ge. exact H.
Qed.

Lemma coincident_true (p q : Point) (f : FaceProps) (g : HEGraph) :
  In f (faces g) -> fsite f = PointSite q ->
  fst p == fst q -> snd p == snd q -> coincident p g = true.
Proof.
  intros Hf Hs Hx Hy. unfold coincident. apply existsb_exists.
  exists f. split; [exact Hf|]. rewrite Hs. apply point_eqb_eq. auto.
Qed.

Lemma conflicts_true (a b c e : Point) (f : FaceProps) (g : HEGraph) :
  In f (faces g) -> fsite f = LineSite c e ->
  segments_cross a b c e = true \/ in_interior c e a = true \/
  in_interior c e b = true ->
  conflicts a b g = true.
Proof.
  intros Hf Hs H. unfold conflicts. apply existsb_exists.
  exists f. split; [exact Hf|]. rewrite Hs.
  destruct H as [-> | [-> | ->]]; rewrite ?orb_true_r; reflexivity.
Qed.

Section Rejected.
Variable in_circle : Site -> Point -> Q -> list Site -> Q.
Variable grid_find_closest_face : FaceGrid -> Point -> HEFace.
Variable positioner :
  Site -> Site -> Site -> Point -> Point -> option (Point * Q).
Variable split_position : Point -> Point -> Point -> Point -> Point.

Lemma insert_point_rejected (p : Point) (count : Z) (d : VoronoiDiagram) :
  inside_far_circle p (far_radius d) = false \/ coincident p (g d) = true ->
  insert_point_site in_circle grid_find_closest_face positioner p (count, d)
  = (inl InvalidSite, (count, d)).
Proof.
  intros H. unfold insert_point_site.
  replace (negb (inside_far_circle p (far_radius d)) || coincident p (g d))
    with true; [reflexivity|].
  destruct H as [-> | ->]; [reflexivity|]. rewrite orb_true_r. reflexivity.
Qed.

Lemma insert_line_rejected (idx1 idx2 : Z) (count : Z) (d : VoronoiDiagram) :
  (forall e1 e2, lookup idx1 (vertex_map d) = Some e1 ->
                 lookup idx2 (vertex_map d) = Some e2 ->
                 (idx1 =? idx2)%Z = true \/
                 point_eqb (position_of (g d) e1) (position_of (g d) e2) = true \/
                 conflicts (position_of (g d) e1) (position_of (g d) e2) (g d)
                 = true) ->
  insert_line_site in_circle positioner split_position idx1 idx2 (count, d)
  = (false, (count, d)).
Proof.
  intros H. unfold insert_line_site.
  destruct (lookup idx1 (vertex_map d)) as [e1|]; [|reflexivity].
  destruct (lookup idx2 (vertex_map d)) as [e2|]; [|reflexivity].
  destruct (H e1 e2 eq_refl eq_refl) as [-> | [-> | ->]];
    rewrite ?orb_true_r; reflexivity.
Qed.

End Rejected.

(** C3: an insertion whose precondition is violated reports failure and
    returns the process state it was given: a point on or outside the far
    circle, a point coincident with an existing point site, a segment
    between a point and itself or between coincident points, a segment
    that crosses an existing segment or has an endpoint inside one. *)
Theorem invalid_site_leaves_diagram_unchanged
    (in_circle : Site -> Point -> Q -> list Site -> Q)
    (grid_find_closest_face : FaceGrid -> Point -> HEFace)
    (positioner : Site -> Site -> Site -> Point -> Point -> option (Point * Q))
    (split_position : Point -> Point -> Point -> Point -> Point)
    (count : Z) (d : VoronoiDiagram) :
  (forall p,
     (far_radius d * far_radius d <= fst p * fst p + snd p * snd p)%Q ->
     insert_point_site in_circle grid_find_closest_face positioner p (count, d)
     = (inl InvalidSite, (count, d))) /\
  (forall p q f,
     In f (faces (g d)) -> fsite f = PointSite q ->
     fst p == fst q -> snd p == snd q ->
     insert_point_site in_circle grid_find_closest_face positioner p (count, d)
     = (inl InvalidSite, (count, d))) /\
  (forall idx,
     insert_line_site in_circle positioner split_position idx idx (count, d)
     = (false, (count, d))) /\
  (forall idx1 idx2 e1 e2,
     lookup idx1 (vertex_map d) = Some e1 ->
     lookup idx2 (vertex_map d) = Some e2 ->
     fst (position_of (g d) e1) == fst (position_of (g d) e2) ->
     snd (position_of (g d) e1) == snd (position_of (g d) e2) ->
     insert_line_site in_circle positioner split_position idx1 idx2 (count, d)
     = (false, (count, d))) /\
  (forall idx1 idx2 e1 e2 f c e,
     lookup idx1 (vertex_map d) = Some e1 ->
     lookup idx2 (vertex_map d) = Some e2 ->
     In f (faces (g d)) -> fsite f = LineSite c e ->
     segments_cross (position_of (g d) e1) (position_of (g d) e2) c e = true \/
     in_interior c e (position_of (g d) e1) = true \/
     in_interior c e (position_of (g d) e2) = true ->
     insert_line_site in_circle positioner split_position idx1 idx2 (count, d)
     = (false, (count, d))).
Proof.
  split; [|split; [|split; [|split]]].
  - intros p H. apply insert_point_rejected. left.
    apply outside_far_circle. exact H.
  - intros p q f Hf Hs Hx Hy. apply insert_point_rejected. right.
    eapply coincident_true; eassumption.
  - intros idx. apply insert_line_rejected. intros e1 e2 _ _. left.
    apply Z.eqb_refl.
  - intros idx1 idx2 e1 e2 H1 H2 Hx Hy. apply insert_line_rejected.
    intros e1' e2' H1' H2'. right. left.
    rewrite H1 in H1'. rewrite H2 in H2'.
    injection H1' as <-. injection H2' as <-.
    apply point_eqb_eq. auto.
  - intros idx1 idx2 e1 e2 f c e H1 H2 Hf Hs Hc. apply insert_line_rejected.
    intros e1' e2' H1' H2'. right. right.
    rewrite H1 in H1'. rewrite H2 in H2'.
    injection H1' as <-. injection H2' as <-.
    eapply conflicts_true; eassumption.
Qed.

Lemma invalid_site_leaves_diagram_unchanged_witness :
  let count := fst (snd (toy_run toy_ops)) in
  let d := snd (snd (toy_run toy_ops)) in
  ((far_radius d * far_radius d <= 10 * 10 + 0 * 0)%Q /\
   insert_point_site toy_in_circle toy_grid toy_positioner (10, 0)%Q (count, d)
   = (inl InvalidSite, (count, d))) /\
  ((In (mkFace (PointSite (1, 0)%Q) NONINCIDENT (fcycle (nth 4 (faces (g d))
          (mkFace (PointSite (1, 0)%Q) NONINCIDENT [])))) (faces (g d)) /\
    1 == 1 /\ 0 == 0) /\
   insert_point_site toy_in_circle toy_grid toy_positioner (1, 0)%Q (count, d)
   = (inl InvalidSite, (count, d))) /\
  ((lookup 2 (vertex_map d) = Some 13 /\ lookup 3 (vertex_map d) = Some 19 /\
    segments_cross (position_of (g d) 13) (position_of (g d) 19)
                   (-1, 0)%Q (1, 0)%Q = true) /\
   insert_line_site toy_in_circle toy_positioner toy_split 2 3 (count, d)
   = (false, (count, d))).
Proof.
  intros count d.
  pose proof (invalid_site_leaves_diagram_unchanged toy_in_circle toy_grid
                toy_positioner toy_split count d) as (T1 & T2 & _ & _ & T5).
  assert (H1 : (far_radius d * far_radius d <= 10 * 10 + 0 * 0)%Q)
    by (vm_compute; discriminate).
  assert (H2 : In (mkFace (PointSite (1, 0)%Q) NONINCIDENT
                     (fcycle (nth 4 (faces (g d))
                        (mkFace (PointSite (1, 0)%Q) NONINCIDENT []))))
                  (faces (g d))).
  { vm_compute. do 4 right. left. reflexivity. }
  assert (H3 : In (mkFace (LineSite (-1, 0)%Q (1, 0)%Q) NONINCIDENT
                     (fcycle (nth 7 (faces (g d))
                        (mkFace (PointSite (1, 0)%Q) NONINCIDENT []))))
                  (faces (g d))).
  { vm_compute. do 7 right. left. reflexivity. }
  assert (L2 : lookup 2 (vertex_map d) = Some 13) by (vm_compute; reflexivity).
  assert (L3 : lookup 3 (vertex_map d) = Some 19) by (vm_compute; reflexivity).
  assert (Hc : segments_cross (position_of (g d) 13) (position_of (g d) 19)
                              (-1, 0)%Q (1, 0)%Q = true)
    by (vm_compute; reflexivity).
  split; [split; [exact H1|exact (T1 (10, 0)%Q H1)]|].
  split.
  - split; [split; [exact H2|split; reflexivity]|].
    exact (T2 (1, 0)%Q (1, 0)%Q _ H2 eq_refl
              (Qeq_refl 1) (Qeq_refl 0)).
  - split; [split; [exact L2|split; [exact L3|exact Hc]]|].
    exact (T5 2%Z 3%Z 13 19 _ (-1, 0)%Q (1, 0)%Q L2 L3 H3 eq_refl
              (or_introl Hc)).
Defined.

(** *** The members an insertion step leaves alone *)

(** The face grid, the far radius, the two counters and the handle map:
    only the last step of a successful insertion writes them. *)
Definition scalars (d : VoronoiDiagram)
  : FaceGrid * Q * Z * Z * list (Z * HEVertex) :=
  (fgrid d, far_radius d, num_psites d, num_lsites d, vertex_map d).

Lemma scalars_mark_vertex (v : HEVertex) (s : Site) (d : VoronoiDiagram) :
  scalars (mark_vertex v s d) = scalars d.
Proof.
  unfold mark_vertex, mark_adjacent_faces.
  rewrite (fold_left_preserves mark_face scalars); reflexivity.
Qed.

Lemma scalars_decide_top (s : Site) (d : VoronoiDiagram) :
  scalars (decide_top s d) = scalars d.
Proof.
  unfold decide_top. destruct (_ && _).
  - rewrite scalars_mark_vertex. reflexivity.
  - reflexivity.
Qed.

Section ScalarFacts.
Variable in_circle : Site -> Point -> Q -> list Site -> Q.
Variable positioner :
  Site -> Site -> Site -> Point -> Point -> option (Point * Q).
Variable split_position : Point -> Point -> Point -> Point -> Point.

Lemma scalars_push_neighbor (s : Site) (d : VoronoiDiagram) (u : HEVertex) :
  scalars (push_neighbor in_circle s d u) = scalars d.
Proof.
  unfold push_neighbor. destruct (vertex (g d) u); [|reflexivity].
  destruct (_ && _); reflexivity.
Qed.

Lemma scalars_augment_step (s : Site) (d d' : VoronoiDiagram) :
  augment_step in_circle s d = Some d' -> scalars d' = scalars d.
Proof.
  unfold augment_step. destruct (vertexQueue d); [discriminate|].
  intros H. injection H as <-.
  rewrite (fold_left_preserves (push_neighbor in_circle s) scalars)
    by (intros; apply scalars_push_neighbor).
  apply scalars_decide_top.
Qed.

Lemma scalars_augment_vertex_set (fuel : nat) (s : Site) (d : VoronoiDiagram) :
  scalars (augment_vertex_set in_circle fuel s d) = scalars d.
Proof.
  revert d; induction fuel as [|n IH]; intros d; simpl; auto.
  destruct (augment_step in_circle s d) as [d1|] eqn:E; auto.
  rewrite IH. eapply scalars_augment_step; eassumption.
Qed.

Lemma scalars_add_new_vertex (s : Site) (acc : Z * option VoronoiDiagram)
    (e : HEVertex * HEVertex) (x : FaceGrid * Q * Z * Z * list (Z * HEVertex)) :
  (forall d, snd acc = Some d -> scalars d = x) ->
  forall d', snd (add_new_vertex positioner s acc e) = Some d' ->
             scalars d' = x.
Proof.
  destruct acc as [count [d|]]; simpl; intros H d' H'; [|discriminate].
  destruct (positioner _ _ _ _ _) as [[pos r]|]; [|discriminate].
  simpl in H'. injection H' as <-. apply (H d). reflexivity.
Qed.

Lemma scalars_add_vertices (s : Site) (count : Z) (d d' : VoronoiDiagram) :
  snd (add_vertices positioner s count d) = Some d' -> scalars d' = scalars d.
Proof.
  unfold add_vertices.
  assert (G : forall es acc x,
             (forall d0, snd acc = Some d0 -> scalars d0 = x) ->
             forall d1, snd (fold_left (add_new_vertex positioner s) es acc)
                        = Some d1 -> scalars d1 = x).
  { induction es as [|e r IH]; intros acc x H d1 H1; simpl in H1.
    - apply H. exact H1.
    - eapply IH; [|exact H1]. intros d0. apply scalars_add_new_vertex. exact H. }
  apply G. simpl. intros d0 E. injection E as <-. reflexivity.
Qed.

Lemma scalars_stitch (f1 : HEFace) (f2 : option HEFace)
    (keep : HEVertex * HEVertex -> bool) (d : VoronoiDiagram) :
  scalars (stitch f1 f2 keep d) = scalars d.
Proof. reflexivity. Qed.

Lemma scalars_seed (v : HEVertex) (s : Site) (d : VoronoiDiagram) :
  scalars (seed in_circle v s d) = scalars d.
Proof. reflexivity. Qed.

End ScalarFacts.

(** *** The counters across insertions *)

Section Counters.
Variable in_circle : Site -> Point -> Q -> list Site -> Q.
Variable grid_find_closest_face : FaceGrid -> Point -> HEFace.
Variable positioner :
  Site -> Site -> Site -> Point -> Point -> option (Point * Q).
Variable split_position : Point -> Point -> Point -> Point -> Point.

Lemma insert_point_counters (p : Point) (cd : Z * VoronoiDiagram) :
  let res := insert_point_site in_circle grid_find_closest_face positioner
                               p cd in
  match fst res with
  | inr h => num_psites (snd (snd res)) = wrap_int (num_psites (snd cd) + 1)
             /\ h = num_point_sites (snd cd)
             /\ num_lsites (snd (snd res)) = num_lsites (snd cd)
             /\ far_radius (snd (snd res)) = far_radius (snd cd)
  | inl _ => snd (snd res) = snd cd
  end.
Proof.
  destruct cd as [count d]. unfold insert_point_site.
  destruct (negb _ || _); [reflexivity|].
  cbv zeta. cbn [add_vertex].
  match goal with
  | |- context [add_vertices positioner ?s ?c ?d3] =>
      destruct (add_vertices positioner s c d3) as [c2 [d4|]] eqn:E
  end; [|reflexivity].
  pose proof (scalars_add_vertices positioner _ _ _ _
                (f_equal snd E : snd _ = Some d4)) as S.
  rewrite scalars_augment_vertex_set in S.
  unfold scalars in S. simpl in S.
  injection S as Hg Hf Hp Hl Hm.
  unfold add_face, add_face_props. cbn.
  repeat split; auto.
Qed.

Lemma insert_line_counters (idx1 idx2 : Z) (cd : Z * VoronoiDiagram) :
  let res := insert_line_site in_circle positioner split_position
                              idx1 idx2 cd in
  if fst res
  then num_lsites (snd (snd res)) = wrap_int (num_lsites (snd cd) + 1)
       /\ num_psites (snd (snd res)) = num_psites (snd cd)
       /\ far_radius (snd (snd res)) = far_radius (snd cd)
  else snd (snd res) = snd cd.
Proof.
  destruct cd as [count d]. unfold insert_line_site.
  destruct (lookup idx1 (vertex_map d)) as [e1|]; [|reflexivity].
  destruct (lookup idx2 (vertex_map d)) as [e2|]; [|reflexivity].
  destruct (_ || _); [reflexivity|].
  cbv zeta.
  match goal with
  | |- context [add_vertices positioner ?s ?c ?d3] =>
      destruct (add_vertices positioner s c d3) as [c2 [d4|]] eqn:E
  end; [|reflexivity].
  pose proof (scalars_add_vertices positioner _ _ _ _
                (f_equal snd E : snd _ = Some d4)) as S.
  rewrite scalars_augment_vertex_set in S.
  unfold scalars in S. simpl in S.
  injection S as Hg Hf Hp Hl Hm.
  match goal with
  | |- context [fold_left ?f ?l ?a] => destruct (fold_left f l a) as [c3 g6]
  end.
  unfold add_face, add_face_props. cbn.
  repeat split; auto.
Qed.

Definition point_successes (os : list Outcome) : Z :=
  Z.of_nat (length (filter point_succeeded os)).

Definition line_successes (os : list Outcome) : Z :=
  Z.of_nat (length (filter line_succeeded os)).

Lemma run_counters (ops : list Op) (cd : Z * VoronoiDiagram) :
  let res := run in_circle grid_find_closest_face positioner split_position
                 ops cd in
  wrap_int (num_psites (snd (snd res)))
  = wrap_int (num_psites (snd cd) + point_successes (fst res)) /\
  wrap_int (num_lsites (snd (snd res)))
  = wrap_int (num_lsites (snd cd) + line_successes (fst res)) /\
  (in_int (num_lsites (snd cd)) -> in_int (num_lsites (snd (snd res)))) /\
  far_radius (snd (snd res)) = far_radius (snd cd).
Proof.
  revert cd; induction ops as [|op r IH]; intros cd; cbn [run].
  - cbn. rewrite !Z.add_0_r. auto.
  - destruct (apply_op in_circle grid_find_closest_face positioner
                split_position op cd) as [o cd1] eqn:E1.
    specialize (IH cd1).
    destruct (run in_circle grid_find_closest_face positioner split_position
                r cd1) as [os cd2] eqn:E2.
    cbn [fst snd] in *. destruct IH as (IHp & IHl & IHi & IHf).
    unfold point_successes, line_successes in *. cbn [filter].
    destruct op as [p|idx1 idx2]; cbn [apply_op] in E1.
    + pose proof (insert_point_counters p cd) as C. cbv zeta in C.
      destruct (insert_point_site in_circle grid_find_closest_face positioner
                  p cd) as [res cd1'].
      injection E1 as <- <-. cbn [fst snd point_succeeded line_succeeded] in *.
      destruct res as [err|h].
      * rewrite C in *. auto.
      * destruct C as (Cp & _ & Cl & Cf).
        rewrite Cl, Cf in *. split; [|auto].
        rewrite IHp, Cp. rewrite wrap_int_add. f_equal.
        cbn [length]. lia.
    + pose proof (insert_line_counters idx1 idx2 cd) as C. cbv zeta in C.
      destruct (insert_line_site in_circle positioner split_position
                  idx1 idx2 cd) as [ok cd1'].
      injection E1 as <- <-. cbn [fst snd point_succeeded line_succeeded] in *.
      destruct ok.
      * destruct C as (Cl & Cp & Cf).
        rewrite Cp, Cf in *. split; [exact IHp|]. split; [|split; auto].
        -- rewrite IHl, Cl. rewrite wrap_int_add. f_equal.
           cbn [length]. lia.
        -- intros _. apply IHi. rewrite Cl. apply wrap_int_in_int.
      * rewrite C in *. auto.
Qed.

End Counters.

(** C5: after any sequence of insertions on a constructed diagram,
    [num_point_sites()] is the number of successful [insert_point_site]
    calls and [num_line_sites()] the number of successful
    [insert_line_site] calls, in [int] arithmetic: the numbers themselves
    as long as they do not exceed [INT_MAX]. *)
Theorem counters_count_successful_insertions
    (in_circle : Site -> Point -> Q -> list Site -> Q)
    (grid_find_closest_face : FaceGrid -> Point -> HEFace)
    (positioner : Site -> Site -> Site -> Point -> Point -> option (Point * Q))
    (split_position : Point -> Point -> Point -> Point -> Point)
    (far : Q) (bins count : Z) (ops : list Op) :
  let res := run in_circle grid_find_closest_face positioner split_position
                 ops (construct far bins count) in
  num_point_sites (snd (snd res)) = wrap_int (point_successes (fst res)) /\
  num_line_sites (snd (snd res)) = wrap_int (line_successes (fst res)) /\
  ((point_successes (fst res) <= int_max)%Z ->
   num_point_sites (snd (snd res)) = point_successes (fst res)) /\
  ((line_successes (fst res) <= int_max)%Z ->
   num_line_sites (snd (snd res)) = line_successes (fst res)).
Proof.
  intros res.
  destruct (run_counters in_circle grid_find_closest_face positioner
              split_position ops (construct far bins count))
    as (Hp & Hl & Hi & _).
  fold res in Hp, Hl, Hi.
  assert (Ep : num_point_sites (snd (snd res))
               = wrap_int (point_successes (fst res))).
  { unfold num_point_sites.
    replace (num_psites (snd (snd res)) - 3)%Z
      with (num_psites (snd (snd res)) + (-3))%Z by lia.
    rewrite <- (wrap_int_add (num_psites (snd (snd res)))).
    rewrite Hp. rewrite wrap_int_add. f_equal.
    change (num_psites (snd (construct far bins count))) with 3%Z. lia. }
  assert (El : num_line_sites (snd (snd res))
               = wrap_int (line_successes (fst res))).
  { unfold num_line_sites.
    rewrite <- (wrap_int_id (num_lsites (snd (snd res)))).
    - rewrite Hl. reflexivity.
    - apply Hi. vm_compute. split; discriminate. }
  split; [exact Ep|]. split; [exact El|]. split.
  - intros H. rewrite Ep. apply wrap_int_id.
    unfold in_int, int_min, point_successes in *. lia.
  - intros H. rewrite El. apply wrap_int_id.
    unfold in_int, int_min, line_successes in *. lia.
Qed.

Lemma counters_count_successful_insertions_witness :
  let res := run toy_in_circle toy_grid toy_positioner toy_split
                 (toy_ops ++ [InsertPoint (10, 0)%Q; InsertLine 2 3])
                 (construct 10 50 0) in
  ((point_successes (fst res) <= int_max)%Z /\
   (line_successes (fst res) <= int_max)%Z) /\
  (num_point_sites (snd (snd res)) = point_successes (fst res) /\
   point_successes (fst res) = 4%Z) /\
  (num_line_sites (snd (snd res)) = line_successes (fst res) /\
   line_successes (fst res) = 1%Z).
Proof.
  pose proof (counters_count_successful_insertions toy_in_circle toy_grid
                toy_positioner toy_split 10 50 0
                (toy_ops ++ [InsertPoint (10, 0)%Q; InsertLine 2 3])) as T.
  intros res. fold res in T. cbv zeta in T.
  destruct T as (_ & _ & Tp & Tl).
  assert (Hp : (point_successes (fst res) <= int_max)%Z)
    by (vm_compute; discriminate).
  assert (Hl : (line_successes (fst res) <= int_max)%Z)
    by (vm_compute; discriminate).
  split; [split; assumption|]. split.
  - split; [exact (Tp Hp)|vm_compute; reflexivity].
  - split; [exact (Tl Hl)|vm_compute; reflexivity].
Defined.


(** *** Status flags across an insertion *)

(** Between insertions: every vertex UNDECIDED, every face NONINCIDENT. *)
Definition settled (g : HEGraph) : Prop :=
  (forall v x, vertex g v = Some x -> status x = UNDECIDED) /\
  (forall f p, face g f = Some p -> fstatus p = NONINCIDENT).

(** During an insertion: every vertex that is not UNDECIDED is recorded in
    [modified_vertices], every INCIDENT face in [incident_faces]. *)
Definition tracked (d : VoronoiDiagram) : Prop :=
  (forall v x, vertex (g d) v = Some x -> status x <> UNDECIDED ->
               In v (modified_vertices d)) /\
  (forall f p, face (g d) f = Some p -> fstatus p <> NONINCIDENT ->
               In f (incident_faces d)).

(** [g'] has no flag set that [g] has not: a vertex of [g'] is UNDECIDED or
    has the status it has in [g], and likewise for faces. *)
Definition quiet (g g' : HEGraph) : Prop :=
  (forall v x', vertex g' v = Some x' ->
                status x' = UNDECIDED \/
                exists x, vertex g v = Some x /\ status x = status x') /\
  (forall f p', face g' f = Some p' ->
                fstatus p' = NONINCIDENT \/
                exists p, face g f = Some p /\ fstatus p = fstatus p').

Lemma quiet_refl (g : HEGraph) : quiet g g.
Proof. split; intros k y H; right; exists y; auto. Qed.

Lemma quiet_trans (g1 g2 g3 : HEGraph) :
  quiet g1 g2 -> quiet g2 g3 -> quiet g1 g3.
Proof.
  intros [V1 F1] [V2 F2]. split.
  - intros v x3 H3. destruct (V2 v x3 H3) as [U|(x2 & H2 & E2)]; auto.
    destruct (V1 v x2 H2) as [U|(x1 & H1 & E1)].
    + left. congruence.
    + right. exists x1. split; congruence.
  - intros f p3 H3. destruct (F2 f p3 H3) as [U|(p2 & H2 & E2)]; auto.
    destruct (F1 f p2 H2) as [U|(p1 & H1 & E1)].
    + left. congruence.
    + right. exists p1. split; congruence.
Qed.

Lemma tracked_quiet (d d' : VoronoiDiagram) :
  tracked d -> quiet (g d) (g d') ->
  incl (modified_vertices d) (modified_vertices d') ->
  incl (incident_faces d) (incident_faces d') ->
  tracked d'.
Proof.
  intros [TV TF] [QV QF] IV IF. split.
  - intros v x' H N. destruct (QV v x' H) as [U|(x & Hx & E)]; [congruence|].
    apply IV. apply (TV v x Hx). congruence.
  - intros f p' H N. destruct (QF f p' H) as [U|(p & Hp & E)]; [congruence|].
    apply IF. apply (TF f p Hp). congruence.
Qed.

Lemma settled_tracked (d : VoronoiDiagram) : settled (g d) -> tracked d.
Proof.
  intros [SV SF]. split.
  - intros v x H N. elim N. eapply SV; eassumption.
  - intros f p H N. elim N. eapply SF; eassumption.
Qed.

Lemma face_update_face_same (h : FaceProps -> FaceProps) (k : HEFace)
    (g : HEGraph) (p : FaceProps) :
  face g k = Some p -> face (update_face h k g) k = Some (h p).
Proof.
  intros H. unfold update_face. rewrite H. unfold face. simpl.
  apply nth_error_set_eq. apply (face_lt g k p H).
Qed.

Lemma face_update_face_other (h : FaceProps -> FaceProps) (k k' : HEFace)
    (g : HEGraph) :
  k <> k' -> face (update_face h k g) k' = face g k'.
Proof.
  intros N. unfold update_face. destruct (face g k); auto.
  unfold face. simpl. apply nth_error_set_neq. exact N.
Qed.

Lemma face_update_vertex (f : VoronoiVertex -> VoronoiVertex) (v : HEVertex)
    (g : HEGraph) (k : HEFace) :
  face (update_vertex f v g) k = face g k.
Proof. unfold face. rewrite faces_update_vertex. reflexivity. Qed.

Lemma vertex_update_face (h : FaceProps -> FaceProps) (k : HEFace)
    (g : HEGraph) (v : HEVertex) :
  vertex (update_face h k g) v = vertex g v.
Proof. unfold vertex. rewrite vertices_update_face. reflexivity. Qed.

Lemma quiet_update_vertex (f : VoronoiVertex -> VoronoiVertex) (v : HEVertex)
    (g : HEGraph) :
  (forall x, status (f x) = status x) -> quiet g (update_vertex f v g).
Proof.
  intros Hf. split.
  - intros u x' H. right.
    destruct (Nat.eq_dec v u) as [->|N].
    + destruct (vertex g u) as [x|] eqn:E.
      * rewrite (vertex_update_same f u g x E) in H. injection H as <-.
        exists x. auto.
      * rewrite vertex_update_dead in H by exact E. congruence.
    + rewrite vertex_update_other in H by exact N. exists x'. auto.
  - intros k p' H. right. rewrite face_update_vertex in H. exists p'. auto.
Qed.

Lemma quiet_update_face (h : FaceProps -> FaceProps) (k : HEFace)
    (g : HEGraph) :
  (forall p, fstatus (h p) = fstatus p) -> quiet g (update_face h k g).
Proof.
  intros Hh. split.
  - intros u x' H. right. rewrite vertex_update_face in H. exists x'. auto.
  - intros k' p' H. right.
    destruct (Nat.eq_dec k k') as [->|N].
    + destruct (face g k') as [p|] eqn:E.
      * rewrite (face_update_face_same h k' g p E) in H. injection H as <-.
        exists p. auto.
      * unfold update_face in H. rewrite E in H. congruence.
    + rewrite face_update_face_other in H by exact N. exists p'. auto.
Qed.

Lemma quiet_faces_map (h : FaceProps -> FaceProps) (g : HEGraph)
    (vs : list (option VoronoiVertex)) (sp : list (HEVertex * HEFace)) :
  (forall p, fstatus (h p) = fstatus p) ->
  (forall v x, nth v vs None = Some x -> vertex g v = Some x) ->
  quiet g (mkGraph vs (map h (faces g)) sp).
Proof.
  intros Hh Hv. split.
  - intros v x' H. right. exists x'. split; auto.
  - intros k p' H. right. unfold face in H. simpl in H.
    rewrite nth_error_map in H.
    destruct (nth_error (faces g) k) as [p|] eqn:E; [|discriminate].
    injection H as <-. exists p. auto.
Qed.

Lemma quiet_add_vertex_in_edge (q : HEVertex) (e : HEVertex * HEVertex)
    (g : HEGraph) :
  quiet g (add_vertex_in_edge q e g).
Proof. apply quiet_faces_map; auto. Qed.

Lemma quiet_remove_vertex (g : HEGraph) (v : HEVertex) :
  quiet g (remove_vertex g v).
Proof.
  apply quiet_faces_map; auto.
  intros u x H. destruct (Nat.eq_dec v u) as [->|N].
  - destruct (Nat.lt_ge_cases u (length (vertices g))) as [L|L].
    + rewrite (get_set_eq None u None (vertices g) L : nth u _ None = None)
        in H. discriminate.
    + rewrite nth_overflow in H by (rewrite length_set; exact L).
      discriminate.
  - rewrite (get_set_neq None v u None (vertices g) N : nth u _ None = _)
      in H. exact H.
Qed.

Lemma vertex_app (g : HEGraph) (y : VoronoiVertex) (v : HEVertex)
    (x : VoronoiVertex) (fs : list FaceProps) (sp : list (HEVertex * HEFace)) :
  vertex (mkGraph (vertices g ++ [Some y]) fs sp) v = Some x ->
  vertex g v = Some x \/ (v = length (vertices g) /\ x = y).
Proof.
  unfold vertex. simpl. intros H.
  destruct (Nat.lt_ge_cases v (length (vertices g))) as [L|L].
  - rewrite app_nth1 in H by exact L. auto.
  - rewrite app_nth2 in H by exact L.
    destruct (v - length (vertices g)) as [|k] eqn:E; simpl in H.
    + right. split; [lia|congruence].
    + destruct k; discriminate.
Qed.

Lemma face_app (g : HEGraph) (q : FaceProps) (k : HEFace) (p : FaceProps)
    (vs : list (option VoronoiVertex)) (sp : list (HEVertex * HEFace)) :
  face (mkGraph vs (faces g ++ [q]) sp) k = Some p ->
  face g k = Some p \/ (k = length (faces g) /\ p = q).
Proof.
  unfold face. simpl. intros H.
  destruct (Nat.lt_ge_cases k (length (faces g))) as [L|L].
  - rewrite nth_error_app1 in H by exact L. auto.
  - rewrite nth_error_app2 in H by exact L.
    destruct (k - length (faces g)) as [|j] eqn:E; simpl in H.
    + right. split; [lia|congruence].
    + destruct j; discriminate.
Qed.

Lemma quiet_add_vertex_undecided (t : VoronoiVertexType) (pos : Point) (r : Q)
    (count : Z) (g : HEGraph) :
  quiet g (snd (snd (add_vertex UNDECIDED t pos r (count, g)))).
Proof.
  simpl. split.
  - intros v x' H. apply vertex_app in H. destruct H as [H|[_ ->]].
    + right. exists x'. auto.
    + left. reflexivity.
  - intros k p' H. right. exists p'. auto.
Qed.

Lemma quiet_add_face (s : Site) (c : list HEVertex) (g : HEGraph) :
  quiet g (snd (add_face_props (mkFace s NONINCIDENT c) g)).
Proof.
  simpl. split.
  - intros v x' H. right. exists x'. auto.
  - intros k p' H. apply face_app in H. destruct H as [H|[_ ->]].
    + right. exists p'. auto.
    + left. reflexivity.
Qed.

Lemma tracked_decide (st : VoronoiVertexStatus) (v : HEVertex)
    (d : VoronoiDiagram) :
  tracked d -> tracked (decide st v d).
Proof.
  intros [TV TF]. split; cbn [g decide with_modified_vertices with_g
                               modified_vertices incident_faces].
  - intros u x' H N. apply in_or_app.
    destruct (Nat.eq_dec v u) as [->|Ne]; [right; left; reflexivity|].
    left. unfold set_status in H.
    rewrite vertex_update_other in H by exact Ne. eapply TV; eassumption.
  - intros k p H N. unfold set_status in H. rewrite face_update_vertex in H.
    eapply TF; eassumption.
Qed.

Lemma tracked_mark_face (d : VoronoiDiagram) (f : HEFace) :
  tracked d -> tracked (mark_face d f).
Proof.
  intros [TV TF]. unfold mark_face. split;
    cbn [g with_incident_faces with_g modified_vertices incident_faces].
  - intros u x' H N. rewrite vertex_update_face in H. eapply TV; eassumption.
  - intros k p H N.
    assert (Hin : In k (incident_faces d) -> 
                  In k (if existsb (Nat.eqb f) (incident_faces d)
                        then incident_faces d else incident_faces d ++ [f])).
    { intros Hi. destruct (existsb _ _); auto. apply in_or_app. auto. }
    destruct (Nat.eq_dec f k) as [->|Ne].
    + destruct (existsb (Nat.eqb k) (incident_faces d)) eqn:E.
      * apply existsb_exists in E. destruct E as (k' & Hk' & E).
        apply Nat.eqb_eq in E. subst. exact Hk'.
      * apply in_or_app. right. left. reflexivity.
    + rewrite face_update_face_other in H by exact Ne.
      apply Hin. eapply TF; eassumption.
Qed.

Lemma fold_left_invariant {A B : Type} (P : A -> Prop) (f : A -> B -> A) :
  (forall a b, P a -> P (f a b)) ->
  forall l a, P a -> P (fold_left f l a).
Proof.
  intros H l; induction l as [|b r IH]; intros a Ha; simpl; auto.
Qed.

Lemma tracked_mark_vertex (v : HEVertex) (s : Site) (d : VoronoiDiagram) :
  tracked d -> tracked (mark_vertex v s d).
Proof.
  intros T. unfold mark_vertex, mark_adjacent_faces.
  apply fold_left_invariant; [apply tracked_mark_face|].
  pose proof (tracked_decide IN v d T) as [TV TF]. split; assumption.
Qed.

Lemma tracked_decide_top (s : Site) (d : VoronoiDiagram) :
  tracked d -> tracked (decide_top s d).
Proof.
  intros T. unfold decide_top.
  assert (T1 : tracked (with_vertexQueue (vq_pop (vertexQueue d)) d))
    by exact T.
  destruct (_ && _).
  - apply tracked_mark_vertex. exact T1.
  - apply tracked_decide. exact T1.
Qed.

Section TrackedFill.
Variable in_circle : Site -> Point -> Q -> list Site -> Q.

Lemma tracked_push_neighbor (s : Site) (d : VoronoiDiagram) (u : HEVertex) :
  tracked d -> tracked (push_neighbor in_circle s d u).
Proof.
  intros T. unfold push_neighbor. destruct (vertex (g d) u); auto.
  destruct (_ && _); auto.
  eapply tracked_quiet; [exact T| |apply incl_refl|apply incl_refl].
  apply quiet_update_vertex. reflexivity.
Qed.

Lemma tracked_augment_step (s : Site) (d d' : VoronoiDiagram) :
  tracked d -> augment_step in_circle s d = Some d' -> tracked d'.
Proof.
  intros T. unfold augment_step. destruct (vertexQueue d); [discriminate|].
  intros H. injection H as <-.
  apply fold_left_invariant; [intros; apply tracked_push_neighbor; auto|].
  apply tracked_decide_top. exact T.
Qed.

Lemma tracked_augment_vertex_set (fuel : nat) (s : Site) (d : VoronoiDiagram) :
  tracked d -> tracked (augment_vertex_set in_circle fuel s d).
Proof.
  revert d; induction fuel as [|n IH]; intros d T; simpl; auto.
  destruct (augment_step in_circle s d) as [d1|] eqn:E; auto.
  apply IH. eapply tracked_augment_step; eassumption.
Qed.

Lemma tracked_seed (v : HEVertex) (s : Site) (d : VoronoiDiagram) :
  tracked d -> tracked (seed in_circle v s d).
Proof.
  intros T. unfold seed.
  eapply tracked_quiet; [apply (tracked_decide IN v d T)| | |];
    [|apply incl_refl|apply incl_refl].
  apply quiet_update_vertex. reflexivity.
Qed.

End TrackedFill.

(** [reset_status] returns the graph to the state between insertions. *)
Lemma reset_vertices (l : list HEVertex) (g : HEGraph) (u : HEVertex)
    (x' : VoronoiVertex) :
  vertex (fold_left (fun g v => update_vertex reset_vertex v g) l g) u
  = Some x' ->
  status x' = UNDECIDED \/ (~ In u l /\ vertex g u = Some x').
Proof.
  revert g; induction l as [|a r IH]; intros g H; simpl in H.
  - right. auto.
  - destruct (IH _ H) as [U|[Hn Hv]]; auto.
    destruct (Nat.eq_dec a u) as [->|Ne].
    + left. destruct (vertex g u) as [x|] eqn:E.
      * rewrite (vertex_update_same _ u g x E) in Hv. injection Hv as <-.
        reflexivity.
      * rewrite vertex_update_dead in Hv by exact E. congruence.
    + right. rewrite vertex_update_other in Hv by exact Ne.
      split; auto. intros [E|E]; auto.
Qed.

Lemma reset_faces (l : list HEFace) (g : HEGraph) (k : HEFace)
    (p' : FaceProps) :
  face (fold_left (fun g f => update_face (with_fstatus NONINCIDENT) f g) l g) k
  = Some p' ->
  fstatus p' = NONINCIDENT \/ (~ In k l /\ face g k = Some p').
Proof.
  revert g; induction l as [|a r IH]; intros g H; simpl in H.
  - right. auto.
  - destruct (IH _ H) as [U|[Hn Hv]]; auto.
    destruct (Nat.eq_dec a k) as [->|Ne].
    + left. destruct (face g k) as [p|] eqn:E.
      * rewrite (face_update_face_same _ k g p E) in Hv. injection Hv as <-.
        reflexivity.
      * unfold update_face in Hv. rewrite E in Hv. congruence.
    + right. rewrite face_update_face_other in Hv by exact Ne.
      split; auto. intros [E|E]; auto.
Qed.

Lemma reset_faces_vertex (l : list HEFace) (g : HEGraph) (u : HEVertex) :
  vertex (fold_left (fun g f => update_face (with_fstatus NONINCIDENT) f g) l g)
         u = vertex g u.
Proof.
  revert g; induction l as [|a r IH]; intros g; simpl; auto.
  rewrite IH. apply vertex_update_face.
Qed.

Lemma reset_vertices_face (l : list HEVertex) (g : HEGraph) (k : HEFace) :
  face (fold_left (fun g v => update_vertex reset_vertex v g) l g) k
  = face g k.
Proof.
  revert g; induction l as [|a r IH]; intros g; simpl; auto.
  rewrite IH. apply face_update_vertex.
Qed.

Lemma settled_reset_status (d : VoronoiDiagram) :
  tracked d -> settled (g (reset_status d)).
Proof.
  intros [TV TF]. unfold reset_status. cbn [g]. split.
  - intros u x' H. rewrite reset_faces_vertex in H.
    apply reset_vertices in H. destruct H as [U|[Hn Hv]]; auto.
    destruct (status x') eqn:E; auto; elim Hn; apply (TV u x' Hv); congruence.
  - intros k p' H. apply reset_faces in H. destruct H as [U|[Hn Hv]]; auto.
    rewrite reset_vertices_face in Hv.
    destruct (fstatus p') eqn:E; auto. elim Hn. apply (TF k p' Hv). congruence.
Qed.

Lemma quiet_fold {B : Type} (f : HEGraph -> B -> HEGraph) :
  (forall g b, quiet g (f g b)) ->
  forall l g, quiet g (fold_left f l g).
Proof.
  intros H l; induction l as [|b r IH]; intros g; simpl.
  - apply quiet_refl.
  - eapply quiet_trans; [apply H|apply IH].
Qed.

Lemma settled_stitch (f1 : HEFace) (f2 : option HEFace)
    (keep : HEVertex * HEVertex -> bool) (d : VoronoiDiagram) :
  tracked d -> settled (g (stitch f1 f2 keep d)).
Proof.
  intros T. unfold stitch. apply settled_reset_status.
  eapply tracked_quiet; [exact T| |apply incl_refl|apply incl_refl].
  unfold remove_vertex_set. cbn [g with_g v0].
  eapply quiet_trans; [|apply quiet_fold; apply quiet_remove_vertex].
  assert (Q1 : quiet (g d) (fold_left (fun g f => repair_face f g)
                                      (incident_faces d) (g d))).
  { apply quiet_fold. intros g0 k. unfold repair_face.
    apply quiet_update_face. reflexivity. }
  assert (Q2 : forall kp k g0, quiet g0 (close_face kp k (incident_faces d) g0)).
  { intros kp k g0. unfold close_face. apply quiet_update_face. reflexivity. }
  destruct f2 as [k2|].
  - eapply quiet_trans; [exact Q1|].
    eapply quiet_trans; [apply Q2|apply Q2].
  - eapply quiet_trans; [exact Q1|apply Q2].
Qed.

Section TrackedInsertion.
Variable in_circle : Site -> Point -> Q -> list Site -> Q.
Variable grid_find_closest_face : FaceGrid -> Point -> HEFace.
Variable positioner :
  Site -> Site -> Site -> Point -> Point -> option (Point * Q).
Variable split_position : Point -> Point -> Point -> Point -> Point.

Lemma tracked_add_new_vertex (s : Site) (acc : Z * option VoronoiDiagram)
    (e : HEVertex * HEVertex) :
  (forall d, snd acc = Some d -> tracked d) ->
  forall d', snd (add_new_vertex positioner s acc e) = Some d' -> tracked d'.
Proof.
  destruct acc as [count [d|]]; simpl; intros H d' H'; [|discriminate].
  destruct (positioner _ _ _ _ _) as [[pos r]|]; [|discriminate].
  simpl in H'. injection H' as <-.
  destruct (H d eq_refl) as [TV TF]. split;
    cbn [g with_modified_vertices with_g modified_vertices incident_faces].
  - intros u x' Hu N. apply in_or_app.
    unfold add_vertex_in_edge, vertex in Hu. cbn [vertices] in Hu.
    apply (vertex_app (g d) _ u x' (faces (g d)) (separators (g d))) in Hu.
    destruct Hu as [Hu|[-> _]]; [left; eapply TV; eassumption|].
    right. left. reflexivity.
  - intros k p Hk N. unfold add_vertex_in_edge, face in Hk.
    cbn [faces] in Hk. rewrite nth_error_map in Hk.
    destruct (nth_error (faces (g d)) k) as [p0|] eqn:E; [|discriminate].
    injection Hk as <-. apply (TF k p0 E). exact N.
Qed.

Lemma tracked_add_vertices (s : Site) (count : Z) (d d' : VoronoiDiagram) :
  tracked d -> snd (add_vertices positioner s count d) = Some d' -> tracked d'.
Proof.
  intros T. unfold add_vertices.
  assert (G : forall es acc,
             (forall d0, snd acc = Some d0 -> tracked d0) ->
             forall d1, snd (fold_left (add_new_vertex positioner s) es acc)
                        = Some d1 -> tracked d1).
  { induction es as [|e r IH]; intros acc H d1 H1; simpl in H1.
    - apply H. exact H1.
    - eapply IH; [|exact H1]. intros d0. apply tracked_add_new_vertex. exact H. }
  apply G. simpl. intros d0 E. injection E as <-. exact T.
Qed.

Lemma tracked_add_face (s : Site) (d : VoronoiDiagram) :
  tracked d -> tracked (snd (add_face s d)).
Proof.
  intros T. unfold add_face. cbn.
  eapply tracked_quiet; [exact T| |apply incl_refl|apply incl_refl].
  apply (quiet_add_face s [] (g d)).
Qed.

Lemma quiet_add_split_vertex (f : HEFace) (s : Site) (cg : Z * HEGraph) :
  quiet (snd cg) (snd (add_split_vertex split_position f s cg)).
Proof.
  unfold add_split_vertex. destruct s as [p|pt1 pt2]; [apply quiet_refl|].
  generalize (find_split_edges (snd cg) f pt1 pt2). intros es.
  revert cg; induction es as [|e r IH]; intros cg; simpl; [apply quiet_refl|].
  eapply quiet_trans; [|apply IH].
  destruct cg as [c g0]. unfold add_split_on. cbn.
  eapply quiet_trans;
    [apply (quiet_add_vertex_undecided SPLIT
              (split_position (position_of g0 (fst e))
                 (position_of g0 (snd e)) pt1 pt2) 0%Q c g0)|].
  apply quiet_add_vertex_in_edge.
Qed.

Lemma quiet_add_split_vertices (s : Site) (fs : list HEFace)
    (cg : Z * HEGraph) :
  quiet (snd cg)
        (snd (fold_left (fun cg f => add_split_vertex split_position f s cg)
                        fs cg)).
Proof.
  revert cg; induction fs as [|f r IH]; intros cg; simpl; [apply quiet_refl|].
  eapply quiet_trans; [apply quiet_add_split_vertex|apply IH].
Qed.

Lemma insert_point_settled (p : Point) (cd : Z * VoronoiDiagram) :
  settled (g (snd cd)) ->
  settled (g (snd (snd (insert_point_site in_circle grid_find_closest_face
                                          positioner p cd)))).
Proof.
  destruct cd as [count d]. intros S. unfold insert_point_site.
  destruct (negb _ || _); [exact S|].
  cbv zeta. cbn [add_vertex].
  match goal with
  | |- context [add_vertices positioner ?s ?c ?d3] =>
      assert (T3 : tracked d3);
      [|destruct (add_vertices positioner s c d3) as [c2 [d4|]] eqn:E]
  end.
  - apply tracked_augment_vertex_set. apply tracked_seed.
    eapply tracked_quiet;
      [apply (settled_tracked (clear_scratch d)); exact S| |
       apply incl_refl|apply incl_refl].
    apply (quiet_add_vertex_undecided POINTSITE p 0%Q count (g d)).
  - pose proof (tracked_add_vertices _ _ _ _ T3
                  (f_equal snd E : snd _ = Some d4)) as T4.
    pose proof (tracked_add_face (PointSite p) d4 T4) as T5.
    destruct (add_face (PointSite p) d4) as [newf d5].
    cbn [snd g with_vertex_map with_num_psites with_fgrid] in *.
    apply settled_stitch. exact T5.
  - exact S.
Qed.

Lemma insert_line_settled (idx1 idx2 : Z) (cd : Z * VoronoiDiagram) :
  settled (g (snd cd)) ->
  settled (g (snd (snd (insert_line_site in_circle positioner split_position
                                         idx1 idx2 cd)))).
Proof.
  destruct cd as [count d]. intros S. unfold insert_line_site.
  destruct (lookup idx1 (vertex_map d)) as [e1|]; [|exact S].
  destruct (lookup idx2 (vertex_map d)) as [e2|]; [|exact S].
  destruct (_ || _); [exact S|].
  cbv zeta.
  match goal with
  | |- context [add_vertices positioner ?s ?c ?d3] =>
      assert (T3 : tracked d3);
      [|destruct (add_vertices positioner s c d3) as [c2 [d4|]] eqn:E]
  end.
  - apply tracked_augment_vertex_set. apply tracked_seed.
    eapply tracked_quiet;
      [apply (settled_tracked (clear_scratch d)); exact S| |
       apply incl_refl|apply incl_refl].
    cbn [g with_g clear_scratch].
    eapply quiet_trans; apply quiet_update_vertex; reflexivity.
  - pose proof (tracked_add_vertices _ _ _ _ T3
                  (f_equal snd E : snd _ = Some d4)) as T4.
    match goal with
    | |- context [fold_left ?f ?l ?a] =>
        pose proof (quiet_add_split_vertices (LineSite (position_of (g d) e1)
                                                (position_of (g d) e2)) l a)
          as Q6;
        destruct (fold_left f l a) as [c3 g6]
    end.
    cbn [snd] in Q6.
    assert (T6 : tracked (with_g g6 d4)).
    { eapply tracked_quiet; [exact T4| |apply incl_refl|apply incl_refl].
      cbn [g with_g].
      eapply quiet_trans; [|exact Q6].
      unfold add_separator. split; intros k y H; right; exists y; auto. }
    match goal with
    | |- context [add_face ?s0 (with_g g6 d4)] =>
        pose proof (tracked_add_face s0 _ T6) as T7;
        destruct (add_face s0 (with_g g6 d4)) as [newf1 d7];
        cbn [snd] in T7;
        pose proof (tracked_add_face s0 _ T7) as T8;
        destruct (add_face s0 d7) as [newf2 d8]
    end.
    cbn [snd g with_num_lsites with_fgrid] in *.
    apply settled_stitch. exact T8.
  - exact S.
Qed.

Lemma run_settled (ops : list Op) (cd : Z * VoronoiDiagram) :
  settled (g (snd cd)) ->
  settled (g (snd (snd (run in_circle grid_find_closest_face positioner
                            split_position ops cd)))).
Proof.
  revert cd; induction ops as [|op r IH]; intros cd S; cbn [run].
  - exact S.
  - destruct (apply_op in_circle grid_find_closest_face positioner
                split_position op cd) as [o cd1] eqn:E1.
    specialize (IH cd1).
    destruct (run in_circle grid_find_closest_face positioner split_position
                r cd1) as [os cd2].
    cbn [snd] in *. apply IH.
    destruct op as [p|idx1 idx2]; cbn [apply_op] in E1.
    + pose proof (insert_point_settled p cd S) as S1.
      destruct (insert_point_site in_circle grid_find_closest_face positioner
                  p cd) as [res cd1'].
      injection E1 as _ <-. exact S1.
    + pose proof (insert_line_settled idx1 idx2 cd S) as S1.
      destruct (insert_line_site in_circle positioner split_position
                  idx1 idx2 cd) as [ok cd1'].
      injection E1 as _ <-. exact S1.
Qed.

End TrackedInsertion.

(** C4: on a constructed diagram, after every sequence of insertions
    (completed or rejected) every vertex of the diagram has status
    UNDECIDED and every face has incidence NONINCIDENT. *)
Theorem status_reset_between_insertions
    (in_circle : Site -> Point -> Q -> list Site -> Q)
    (grid_find_closest_face : FaceGrid -> Point -> HEFace)
    (positioner : Site -> Site -> Site -> Point -> Point -> option (Point * Q))
    (split_position : Point -> Point -> Point -> Point -> Point)
    (far : Q) (bins count : Z) (ops : list Op) :
  let d := snd (snd (run in_circle grid_find_closest_face positioner
                         split_position ops (construct far bins count))) in
  (forall v x, vertex (g d) v = Some x -> status x = UNDECIDED) /\
  (forall f p, face (g d) f = Some p -> fstatus p = NONINCIDENT).
Proof.
  apply run_settled. cbn. split.
  - intros v x H. unfold vertex in H. cbn in H.
    destruct v as [|[|[|[|[|v]]]]]; cbn in H; try discriminate;
      injection H as <-; reflexivity.
  - intros f p H. unfold face in H. cbn in H.
    destruct f as [|[|[|[|f]]]]; cbn in H; try discriminate;
      injection H as <-; reflexivity.
Qed.

(** *** The vertex counter and the diagram

    No step of an insertion reads a vertex index; the indices are the only
    trace the static counter leaves in a diagram. *)

(** A vertex with its index moved by [delta]. *)
Definition shift_vertex (delta : Z) (x : VoronoiVertex) : VoronoiVertex :=
  mkVertex (wrap_int (index x + delta)) (status x) (vtype x) (position x)
           (clearance x) (in_queue x).

Definition shift_graph (delta : Z) (g : HEGraph) : HEGraph :=
  mkGraph (map (option_map (shift_vertex delta)) (vertices g)) (faces g)
          (separators g).

(** The diagram with every vertex index moved by [delta]. *)
Definition shift_diagram (delta : Z) (d : VoronoiDiagram) : VoronoiDiagram :=
  with_g (shift_graph delta (g d)) d.

(** The process state of a run whose counter started [delta] higher. *)
Definition shift_state (delta : Z) (cd : Z * VoronoiDiagram)
  : Z * VoronoiDiagram :=
  (wrap_int (fst cd + delta), shift_diagram delta (snd cd)).

Section Shift.
Variable delta : Z.

Lemma vertex_shift (g : HEGraph) (v : HEVertex) :
  vertex (shift_graph delta g) v = option_map (shift_vertex delta) (vertex g v).
Proof.
  unfold vertex, shift_graph. cbn [vertices].
  apply (map_nth (option_map (shift_vertex delta)) (vertices g) None v).
Qed.

Lemma status_of_shift (g : HEGraph) : status_of (shift_graph delta g) = status_of g.
Proof.
  apply functional_extensionality. intros v. unfold status_of.
  rewrite vertex_shift. destruct (vertex g v); reflexivity.
Qed.

Lemma position_of_shift (g : HEGraph) : position_of (shift_graph delta g) = position_of g.
Proof.
  apply functional_extensionality. intros v. unfold position_of.
  rewrite vertex_shift. destruct (vertex g v); reflexivity.
Qed.

Lemma face_shift (g : HEGraph) : face (shift_graph delta g) = face g.
Proof. reflexivity. Qed.

Lemma cycle_of_shift (g : HEGraph) : cycle_of (shift_graph delta g) = cycle_of g.
Proof. reflexivity. Qed.

Lemma faces_of_shift (g : HEGraph) : faces_of (shift_graph delta g) = faces_of g.
Proof. reflexivity. Qed.

Lemma neighbors_shift (g : HEGraph) : neighbors (shift_graph delta g) = neighbors g.
Proof. reflexivity. Qed.

Lemma in_flags_shift (g : HEGraph) : in_flags (shift_graph delta g) = in_flags g.
Proof.
  apply functional_extensionality. intros v. unfold in_flags.
  rewrite status_of_shift. reflexivity.
Qed.

Lemma predicate_c4_shift (g : HEGraph) (v : HEVertex) :
  predicate_c4 (shift_graph delta g) v = predicate_c4 g v.
Proof. unfold predicate_c4. rewrite in_flags_shift. reflexivity. Qed.

Lemma predicate_c5_shift (g : HEGraph) (v : HEVertex) :
  predicate_c5 (shift_graph delta g) v = predicate_c5 g v.
Proof.
  unfold predicate_c5. rewrite status_of_shift, cycle_of_shift, faces_of_shift.
  reflexivity.
Qed.

Lemma set_map {A B : Type} (f : A -> B) (i : nat) (x : A) (l : list A) :
  map f (set i x l) = set i (f x) (map f l).
Proof.
  revert i; induction l as [|a r IH]; intros [|i]; simpl; auto.
  f_equal. apply IH.
Qed.

Lemma update_vertex_shift (f : VoronoiVertex -> VoronoiVertex) (v : HEVertex)
    (g : HEGraph) :
  (forall x, f (shift_vertex delta x) = shift_vertex delta (f x)) ->
  update_vertex f v (shift_graph delta g) = shift_graph delta (update_vertex f v g).
Proof.
  intros Hf. unfold update_vertex. rewrite vertex_shift.
  destruct (vertex g v) as [x|]; [|reflexivity].
  cbn [option_map]. unfold shift_graph. cbn [vertices faces separators].
  rewrite set_map. cbn [option_map]. rewrite Hf. reflexivity.
Qed.

Lemma set_status_shift (st : VoronoiVertexStatus) (v : HEVertex) (g : HEGraph) :
  set_status st v (shift_graph delta g) = shift_graph delta (set_status st v g).
Proof. apply update_vertex_shift. reflexivity. Qed.

Lemma update_face_shift (h : FaceProps -> FaceProps) (k : HEFace)
    (g : HEGraph) :
  update_face h k (shift_graph delta g) = shift_graph delta (update_face h k g).
Proof.
  unfold update_face. rewrite face_shift. destruct (face g k); reflexivity.
Qed.

Lemma add_vertex_shift (st : VoronoiVertexStatus) (t : VoronoiVertexType)
    (pos : Point) (r : Q) (c : Z) (g : HEGraph) :
  add_vertex st t pos r (wrap_int (c + delta), shift_graph delta g)
  = (fst (add_vertex st t pos r (c, g)),
     (wrap_int (fst (snd (add_vertex st t pos r (c, g))) + delta),
      shift_graph delta (snd (snd (add_vertex st t pos r (c, g)))))).
Proof.
  unfold add_vertex. cbn [fst snd]. unfold shift_graph.
  cbn [vertices faces separators].
  rewrite length_map, map_app, !wrap_int_add.
  replace (c + delta + 1)%Z with (c + 1 + delta)%Z by lia. reflexivity.
Qed.

Lemma fold_left_commute {A B : Type} (S : A -> A) (f : A -> B -> A) :
  (forall a b, f (S a) b = S (f a b)) ->
  forall l a, fold_left f l (S a) = S (fold_left f l a).
Proof.
  intros H l; induction l as [|b r IH]; intros a; simpl; auto.
  rewrite H. apply IH.
Qed.

Lemma mark_face_shift (d : VoronoiDiagram) (f : HEFace) :
  mark_face (shift_diagram delta d) f = shift_diagram delta (mark_face d f).
Proof.
  unfold mark_face, shift_diagram. cbn.
  rewrite update_face_shift. reflexivity.
Qed.

Lemma decide_shift (st : VoronoiVertexStatus) (v : HEVertex)
    (d : VoronoiDiagram) :
  decide st v (shift_diagram delta d) = shift_diagram delta (decide st v d).
Proof.
  unfold decide, shift_diagram. cbn. rewrite set_status_shift. reflexivity.
Qed.

Lemma mark_vertex_shift (v : HEVertex) (s : Site) (d : VoronoiDiagram) :
  mark_vertex v s (shift_diagram delta d)
  = shift_diagram delta (mark_vertex v s d).
Proof.
  unfold mark_vertex, mark_adjacent_faces. rewrite decide_shift.
  change (with_v0 (v0 (shift_diagram delta (decide IN v d)) ++ [v])
                  (shift_diagram delta (decide IN v d)))
    with (shift_diagram delta (with_v0 (v0 (decide IN v d) ++ [v])
                                       (decide IN v d))).
  change (faces_of (g (shift_diagram delta ?x)) v) with (faces_of (g x) v).
  apply (fold_left_commute (shift_diagram delta) mark_face mark_face_shift).
Qed.

Lemma decide_top_shift (s : Site) (d : VoronoiDiagram) :
  decide_top s (shift_diagram delta d) = shift_diagram delta (decide_top s d).
Proof.
  unfold decide_top. cbn [vertexQueue shift_diagram with_g g with_vertexQueue].
  rewrite predicate_c4_shift, predicate_c5_shift.
  destruct (_ && _).
  - apply (mark_vertex_shift _ s (with_vertexQueue (vq_pop (vertexQueue d)) d)).
  - apply (decide_shift OUT _ (with_vertexQueue (vq_pop (vertexQueue d)) d)).
Qed.

Lemma fill_fuel_shift (d : VoronoiDiagram) :
  fill_fuel (shift_diagram delta d) = fill_fuel d.
Proof.
  unfold fill_fuel. cbn. f_equal.
  induction (vertices (g d)) as [|o r IH]; simpl; auto.
  destruct o as [x|]; simpl; [|exact IH].
  destruct (in_queue x); simpl; auto.
Qed.

Section ShiftFill.
Variable in_circle : Site -> Point -> Q -> list Site -> Q.

Lemma push_neighbor_shift (s : Site) (d : VoronoiDiagram) (u : HEVertex) :
  push_neighbor in_circle s (shift_diagram delta d) u
  = shift_diagram delta (push_neighbor in_circle s d u).
Proof.
  unfold push_neighbor. cbn [g shift_diagram with_g].
  rewrite vertex_shift. destruct (vertex (g d) u) as [x|]; [|reflexivity].
  cbn [option_map shift_vertex status in_queue].
  destruct (_ && _); [|reflexivity].
  cbn. rewrite update_vertex_shift by reflexivity. reflexivity.
Qed.

Lemma augment_step_shift (s : Site) (d : VoronoiDiagram) :
  augment_step in_circle s (shift_diagram delta d)
  = option_map (shift_diagram delta) (augment_step in_circle s d).
Proof.
  unfold augment_step. cbn [vertexQueue shift_diagram with_g].
  destruct (vertexQueue d) as [|e q] eqn:Eq; [reflexivity|].
  cbn [option_map]. f_equal.
  change (mkDiagram (fgrid d) (shift_graph delta (g d)) (far_radius d)
                    (num_psites d) (num_lsites d) (incident_faces d)
                    (modified_vertices d) (v0 d) (vertexQueue d)
                    (vertex_map d))
    with (shift_diagram delta d).
  rewrite decide_top_shift.
  change (neighbors (g (shift_diagram delta ?x))) with (neighbors (g x)).
  apply (fold_left_commute (shift_diagram delta) (push_neighbor in_circle s)).
  intros a b. apply push_neighbor_shift.
Qed.

Lemma augment_vertex_set_shift (fuel : nat) (s : Site) (d : VoronoiDiagram) :
  augment_vertex_set in_circle fuel s (shift_diagram delta d)
  = shift_diagram delta (augment_vertex_set in_circle fuel s d).
Proof.
  revert d; induction fuel as [|n IH]; intros d; simpl; auto.
  rewrite augment_step_shift.
  destruct (augment_step in_circle s d) as [d1|]; simpl; auto.
Qed.

Lemma predicate_at_shift (g : HEGraph) (s : Site) :
  predicate_at in_circle (shift_graph delta g) s = predicate_at in_circle g s.
Proof.
  apply functional_extensionality. intros v. unfold predicate_at.
  rewrite vertex_shift. destruct (vertex g v); reflexivity.
Qed.

Lemma find_seed_vertex_shift (g : HEGraph) (f : HEFace) (s : Site) :
  find_seed_vertex in_circle (shift_graph delta g) f s
  = find_seed_vertex in_circle g f s.
Proof.
  unfold find_seed_vertex, seed_key.
  rewrite position_of_shift, predicate_at_shift. reflexivity.
Qed.

Lemma seed_shift (v : HEVertex) (s : Site) (d : VoronoiDiagram) :
  seed in_circle v s (shift_diagram delta d)
  = shift_diagram delta (seed in_circle v s d).
Proof.
  unfold seed. rewrite decide_shift.
  cbn [g shift_diagram with_g vertexQueue].
  rewrite predicate_at_shift.
  rewrite update_vertex_shift by reflexivity. reflexivity.
Qed.

End ShiftFill.

Lemma find_in_out_edges_shift (g : HEGraph) :
  find_in_out_edges (shift_graph delta g) = find_in_out_edges g.
Proof. unfold find_in_out_edges. rewrite status_of_shift. reflexivity. Qed.

Lemma repair_face_shift (f : HEFace) (g : HEGraph) :
  repair_face f (shift_graph delta g) = shift_graph delta (repair_face f g).
Proof.
  unfold repair_face. rewrite status_of_shift. apply update_face_shift.
Qed.

Lemma twin_edges_shift (g : HEGraph) :
  twin_edges (shift_graph delta g) = twin_edges g.
Proof.
  apply functional_extensionality. intros f. unfold twin_edges.
  rewrite status_of_shift. reflexivity.
Qed.

Lemma close_face_shift (keep : HEVertex * HEVertex -> bool) (newf : HEFace)
    (fs : list HEFace) (g : HEGraph) :
  close_face keep newf fs (shift_graph delta g)
  = shift_graph delta (close_face keep newf fs g).
Proof.
  unfold close_face. rewrite twin_edges_shift. apply update_face_shift.
Qed.

Lemma remove_vertex_shift (g : HEGraph) (v : HEVertex) :
  remove_vertex (shift_graph delta g) v = shift_graph delta (remove_vertex g v).
Proof.
  unfold remove_vertex, shift_graph. cbn [vertices faces separators].
  rewrite set_map. reflexivity.
Qed.

Lemma reset_status_shift (d : VoronoiDiagram) :
  reset_status (shift_diagram delta d) = shift_diagram delta (reset_status d).
Proof.
  unfold reset_status, shift_diagram. cbn.
  rewrite (fold_left_commute (shift_graph delta)
             (fun g v => update_vertex reset_vertex v g))
    by (intros; apply update_vertex_shift; reflexivity).
  rewrite (fold_left_commute (shift_graph delta)
             (fun g f => update_face (with_fstatus NONINCIDENT) f g))
    by (intros; apply update_face_shift).
  reflexivity.
Qed.

Lemma remove_vertex_set_shift (d : VoronoiDiagram) :
  remove_vertex_set (shift_diagram delta d)
  = shift_diagram delta (remove_vertex_set d).
Proof.
  unfold remove_vertex_set, shift_diagram. cbn.
  rewrite (fold_left_commute (shift_graph delta) remove_vertex)
    by (intros; apply remove_vertex_shift).
  reflexivity.
Qed.

Lemma stitch_shift (f1 : HEFace) (f2 : option HEFace)
    (keep : HEVertex * HEVertex -> bool) (d : VoronoiDiagram) :
  stitch f1 f2 keep (shift_diagram delta d)
  = shift_diagram delta (stitch f1 f2 keep d).
Proof.
  unfold stitch. cbn [g incident_faces shift_diagram with_g].
  rewrite (fold_left_commute (shift_graph delta) (fun g f => repair_face f g))
    by (intros; apply repair_face_shift).
  rewrite close_face_shift.
  set (g2 := close_face keep f1 (incident_faces d)
               (fold_left (fun g f => repair_face f g) (incident_faces d)
                          (g d))).
  assert (E : match f2 with
              | Some k => close_face (fun e => negb (keep e)) k
                                     (incident_faces d) (shift_graph delta g2)
              | None => shift_graph delta g2
              end
              = shift_graph delta
                  match f2 with
                  | Some k => close_face (fun e => negb (keep e)) k
                                         (incident_faces d) g2
                  | None => g2
                  end).
  { destruct f2; [apply close_face_shift|reflexivity]. }
  rewrite E.
  match goal with
  | |- reset_status (remove_vertex_set (with_g (shift_graph delta ?g3) _)) = _ =>
      change (reset_status (remove_vertex_set
                (shift_diagram delta (with_g g3 d)))
              = shift_diagram delta
                  (reset_status (remove_vertex_set (with_g g3 d))))
  end.
  rewrite remove_vertex_set_shift. apply reset_status_shift.
Qed.

Section ShiftInsertion.
Variable in_circle : Site -> Point -> Q -> list Site -> Q.
Variable grid_find_closest_face : FaceGrid -> Point -> HEFace.
Variable positioner :
  Site -> Site -> Site -> Point -> Point -> option (Point * Q).
Variable split_position : Point -> Point -> Point -> Point -> Point.

Definition shift_acc (acc : Z * option VoronoiDiagram)
  : Z * option VoronoiDiagram :=
  (wrap_int (fst acc + delta), option_map (shift_diagram delta) (snd acc)).

Lemma add_new_vertex_shift (s : Site) (acc : Z * option VoronoiDiagram)
    (e : HEVertex * HEVertex) :
  add_new_vertex positioner s (shift_acc acc) e
  = shift_acc (add_new_vertex positioner s acc e).
Proof.
  destruct acc as [c [d|]]; [|reflexivity].
  unfold add_new_vertex, shift_acc. cbn [fst snd option_map].
  cbn [g shift_diagram with_g].
  rewrite position_of_shift.
  change (site_of (shift_graph delta (g d))) with (site_of (g d)).
  change (face_with_edge (shift_graph delta (g d)))
    with (face_with_edge (g d)).
  destruct (positioner _ _ _ _ _) as [[pos r]|]; [|reflexivity].
  rewrite add_vertex_shift. unfold add_vertex. cbn [fst snd option_map].
  reflexivity.
Qed.

Lemma add_vertices_shift (s : Site) (c : Z) (d : VoronoiDiagram) :
  add_vertices positioner s (wrap_int (c + delta)) (shift_diagram delta d)
  = shift_acc (add_vertices positioner s c d).
Proof.
  unfold add_vertices. cbn [g shift_diagram with_g].
  rewrite find_in_out_edges_shift.
  apply (fold_left_commute shift_acc (add_new_vertex positioner s)
           (add_new_vertex_shift s) _ (c, Some d)).
Qed.

Definition shift_cg (cg : Z * HEGraph) : Z * HEGraph :=
  (wrap_int (fst cg + delta), shift_graph delta (snd cg)).

Lemma add_split_on_shift (pt1 pt2 : Point) (cg : Z * HEGraph)
    (e : HEVertex * HEVertex) :
  add_split_on split_position pt1 pt2 (shift_cg cg) e
  = shift_cg (add_split_on split_position pt1 pt2 cg e).
Proof.
  destruct cg as [c g0]. unfold add_split_on, shift_cg. cbn [fst snd].
  rewrite position_of_shift, add_vertex_shift. reflexivity.
Qed.

Lemma add_split_vertex_shift (f : HEFace) (s : Site) (cg : Z * HEGraph) :
  add_split_vertex split_position f s (shift_cg cg)
  = shift_cg (add_split_vertex split_position f s cg).
Proof.
  unfold add_split_vertex. destruct s as [p|pt1 pt2]; [reflexivity|].
  replace (find_split_edges (snd (shift_cg cg)) f pt1 pt2)
    with (find_split_edges (snd cg) f pt1 pt2).
  - apply (fold_left_commute shift_cg (add_split_on split_position pt1 pt2)).
    intros a b. apply add_split_on_shift.
  - unfold find_split_edges, shift_cg. cbn [snd].
    rewrite position_of_shift. reflexivity.
Qed.

Lemma add_face_shift (s : Site) (d : VoronoiDiagram) :
  add_face s (shift_diagram delta d)
  = (fst (add_face s d), shift_diagram delta (snd (add_face s d))).
Proof. reflexivity. Qed.

Lemma insert_point_site_shift (p : Point) (cd : Z * VoronoiDiagram) :
  insert_point_site in_circle grid_find_closest_face positioner p
                    (shift_state delta cd)
  = (fst (insert_point_site in_circle grid_find_closest_face positioner p cd),
     shift_state delta
       (snd (insert_point_site in_circle grid_find_closest_face positioner
                               p cd))).
Proof.
  destruct cd as [c d]. unfold shift_state at 1. cbn [fst snd].
  unfold insert_point_site.
  change (far_radius (shift_diagram delta d)) with (far_radius d).
  change (coincident p (g (shift_diagram delta d))) with (coincident p (g d)).
  destruct (negb _ || _); [reflexivity|].
  cbv zeta.
  change (g (clear_scratch (shift_diagram delta d)))
    with (shift_graph delta (g (clear_scratch d))).
  rewrite add_vertex_shift.
  destruct (add_vertex UNDECIDED POINTSITE p 0%Q (c, g (clear_scratch d)))
    as [pv [c1 g1]].
  cbn [fst snd].
  change (with_g (shift_graph delta g1) (clear_scratch (shift_diagram delta d)))
    with (shift_diagram delta (with_g g1 (clear_scratch d))).
  change (fgrid (shift_diagram delta (with_g g1 (clear_scratch d))))
    with (fgrid (with_g g1 (clear_scratch d))).
  change (g (shift_diagram delta (with_g g1 (clear_scratch d))))
    with (shift_graph delta (g (with_g g1 (clear_scratch d)))).
  rewrite find_seed_vertex_shift.
  rewrite seed_shift, fill_fuel_shift, augment_vertex_set_shift.
  rewrite add_vertices_shift.
  match goal with
  | |- context [add_vertices positioner ?s ?c1 ?d3] =>
      destruct (add_vertices positioner s c1 d3) as [c2 [d4|]]
  end; [|reflexivity].
  unfold shift_acc. cbn [fst snd option_map].
  rewrite add_face_shift.
  destruct (add_face (PointSite p) d4) as [newf d5]. cbn [fst snd].
  rewrite stitch_shift. reflexivity.
Qed.

Lemma insert_line_site_shift (idx1 idx2 : Z) (cd : Z * VoronoiDiagram) :
  insert_line_site in_circle positioner split_position idx1 idx2
                   (shift_state delta cd)
  = (fst (insert_line_site in_circle positioner split_position idx1 idx2 cd),
     shift_state delta
       (snd (insert_line_site in_circle positioner split_position
                              idx1 idx2 cd))).
Proof.
  destruct cd as [c d]. unfold shift_state at 1. cbn [fst snd].
  unfold insert_line_site.
  change (vertex_map (shift_diagram delta d)) with (vertex_map d).
  destruct (lookup idx1 (vertex_map d)) as [e1|]; [|reflexivity].
  destruct (lookup idx2 (vertex_map d)) as [e2|]; [|reflexivity].
  change (g (shift_diagram delta d)) with (shift_graph delta (g d)).
  rewrite position_of_shift.
  change (conflicts ?a ?b (shift_graph delta (g d)))
    with (conflicts a b (g d)).
  destruct (_ || _); [reflexivity|].
  cbv zeta.
  set (p1 := position_of (g d) e1). set (p2 := position_of (g d) e2).
  change (g (clear_scratch (shift_diagram delta d)))
    with (shift_graph delta (g (clear_scratch d))).
  rewrite !update_vertex_shift by reflexivity.
  set (g1 := update_vertex (with_vtype ENDPOINT) e2
               (update_vertex (with_vtype ENDPOINT) e1 (g (clear_scratch d)))).
  change (with_g (shift_graph delta g1) (clear_scratch (shift_diagram delta d)))
    with (shift_diagram delta (with_g g1 (clear_scratch d))).
  set (d1 := with_g g1 (clear_scratch d)).
  change (face_of_point (g (shift_diagram delta d1)))
    with (face_of_point (g d1)).
  change (g (shift_diagram delta d1)) with (shift_graph delta (g d1)).
  rewrite find_seed_vertex_shift.
  rewrite seed_shift, fill_fuel_shift, augment_vertex_set_shift.
  rewrite add_vertices_shift.
  match goal with
  | |- context [add_vertices positioner ?s ?c1 ?d3] =>
      destruct (add_vertices positioner s c1 d3) as [c2 [d4|]]
  end; [|reflexivity].
  unfold shift_acc. cbn [fst snd option_map].
  change (incident_faces (shift_diagram delta d4)) with (incident_faces d4).
  set (s := LineSite p1 p2).
  set (g5 := add_separator (face_of_point (g d1) p2) e2 s s
               (add_separator (face_of_point (g d1) p1) e1 s s (g d4))).
  change (add_separator (face_of_point (g d1) p2) e2 s s
            (add_separator (face_of_point (g d1) p1) e1 s s
               (g (shift_diagram delta d4))))
    with (shift_graph delta g5).
  change (site_of (shift_graph delta g5)) with (site_of g5).
  change (wrap_int (c2 + delta), shift_graph delta g5)
    with (shift_cg (c2, g5)).
  rewrite (fold_left_commute shift_cg
             (fun cg f => add_split_vertex split_position f s cg))
    by (intros; apply add_split_vertex_shift).
  match goal with
  | |- context [fold_left ?f ?l (c2, g5)] =>
      destruct (fold_left f l (c2, g5)) as [c3 g6]
  end.
  unfold shift_cg. cbn [fst snd].
  change (with_g (shift_graph delta g6) (shift_diagram delta d4))
    with (shift_diagram delta (with_g g6 d4)).
  rewrite add_face_shift.
  destruct (add_face s (with_g g6 d4)) as [newf1 d7]. cbn [fst snd].
  rewrite add_face_shift.
  destruct (add_face s d7) as [newf2 d8]. cbn [fst snd].
  change (g (shift_diagram delta d8)) with (shift_graph delta (g d8)).
  rewrite position_of_shift.
  rewrite stitch_shift. reflexivity.
Qed.

Lemma apply_op_shift (op : Op) (cd : Z * VoronoiDiagram) :
  apply_op in_circle grid_find_closest_face positioner split_position op
           (shift_state delta cd)
  = (fst (apply_op in_circle grid_find_closest_face positioner split_position
                   op cd),
     shift_state delta
       (snd (apply_op in_circle grid_find_closest_face positioner
                      split_position op cd))).
Proof.
  destruct op as [p|idx1 idx2]; cbn [apply_op].
  - rewrite insert_point_site_shift.
    destruct (insert_point_site in_circle grid_find_closest_face positioner
                p cd) as [r cd']. reflexivity.
  - rewrite insert_line_site_shift.
    destruct (insert_line_site in_circle positioner split_position
                idx1 idx2 cd) as [ok cd']. reflexivity.
Qed.

Lemma run_shift (ops : list Op) (cd : Z * VoronoiDiagram) :
  run in_circle grid_find_closest_face positioner split_position ops
      (shift_state delta cd)
  = (fst (run in_circle grid_find_closest_face positioner split_position
              ops cd),
     shift_state delta
       (snd (run in_circle grid_find_closest_face positioner split_position
                 ops cd))).
Proof.
  revert cd; induction ops as [|op r IH]; intros cd; cbn [run].
  - reflexivity.
  - rewrite apply_op_shift.
    destruct (apply_op in_circle grid_find_closest_face positioner
                split_position op cd) as [o cd1]. cbn [fst snd].
    rewrite IH.
    destruct (run in_circle grid_find_closest_face positioner split_position
                r cd1) as [os cd2]. reflexivity.
Qed.

End ShiftInsertion.

Lemma construct_shift (far : Q) (bins c : Z) :
  construct far bins (wrap_int (c + delta))
  = shift_state delta (construct far bins c).
Proof.
  unfold construct, initialize.
  change (mkGraph [] [] []) with (shift_graph delta (mkGraph [] [] [])) at 1.
  rewrite add_vertex_shift.
  destruct (add_vertex UNDECIDED NORMAL (0, 0)%Q (8 * far)%Q
              (c, mkGraph [] [] [])) as [a0 cg1]. cbn [fst snd].
  destruct cg1 as [c1 g1]. cbn [fst snd].
  rewrite add_vertex_shift.
  destruct (add_vertex UNDECIDED OUTER (4 * far, 4 * far)%Q (8 * far)%Q
              (c1, g1)) as [a1 [c2 g2]]. cbn [fst snd].
  rewrite add_vertex_shift.
  destruct (add_vertex UNDECIDED OUTER (- (4 * far), 4 * far)%Q (8 * far)%Q
              (c2, g2)) as [a2 [c3 g3]]. cbn [fst snd].
  rewrite add_vertex_shift.
  destruct (add_vertex UNDECIDED OUTER (0, - (4 * far))%Q (8 * far)%Q
              (c3, g3)) as [a3 [c4 g4]]. cbn [fst snd].
  reflexivity.
Qed.

End Shift.

(** Starting the vertex counter elsewhere shifts the vertex indices and
    nothing else: the handles and results returned, the topology, the
    statuses and the counters of the two runs agree after every prefix, and
    the runs are equal when the counter is reset first. *)
Lemma runs_agree_up_to_vertex_counter
    (in_circle : Site -> Point -> Q -> list Site -> Q)
    (grid_find_closest_face : FaceGrid -> Point -> HEFace)
    (positioner : Site -> Site -> Site -> Point -> Point -> option (Point * Q))
    (split_position : Point -> Point -> Point -> Point -> Point)
    (far : Q) (bins : Z) (ops : list Op) (count1 count2 : Z) (k : nat) :
  in_int count2 ->
  let run1 := run in_circle grid_find_closest_face positioner split_position
                  (firstn k ops) (construct far bins count1) in
  let run2 := run in_circle grid_find_closest_face positioner split_position
                  (firstn k ops) (construct far bins count2) in
  fst run2 = fst run1 /\
  snd run2 = shift_state (count2 - count1) (snd run1) /\
  faces (g (snd (snd run2))) = faces (g (snd (snd run1))) /\
  (forall v, vertex (g (snd (snd run2))) v
             = option_map (shift_vertex (count2 - count1))
                          (vertex (g (snd (snd run1))) v)) /\
  scalars (snd (snd run2)) = scalars (snd (snd run1)).
Proof.
  intros Hc run1 run2.
  assert (E : run2 = (fst run1, shift_state (count2 - count1) (snd run1))).
  { unfold run2, run1. rewrite <- run_shift. rewrite <- construct_shift.
    replace (count1 + (count2 - count1))%Z with count2 by lia.
    rewrite (wrap_int_id count2 Hc). reflexivity. }
  rewrite E. cbn [fst snd].
  split; [reflexivity|]. split; [reflexivity|]. split; [reflexivity|].
  split; [intros v; apply vertex_shift|reflexivity].
Qed.

(** *** Runs and their prefixes *)

Section Prefixes.
Variable in_circle : Site -> Point -> Q -> list Site -> Q.
Variable grid_find_closest_face : FaceGrid -> Point -> HEFace.
Variable positioner :
  Site -> Site -> Site -> Point -> Point -> option (Point * Q).
Variable split_position : Point -> Point -> Point -> Point -> Point.



(** The state at position [k] of the trace is the state the run of the
    first [k] calls ends in. *)
Lemma trace_nth (k : nat) (ops : list Op) (cd : Z * VoronoiDiagram) :
  k <= length ops ->
  nth_error (trace in_circle grid_find_closest_face positioner split_position
                   ops cd) k
  = Some (snd (run in_circle grid_find_closest_face positioner split_position
                   (firstn k ops) cd)).
Proof.
  revert k cd. induction ops as [|op r IH]; intros k cd Hk.
  - destruct k; [reflexivity|simpl in Hk; lia].
  - destruct k as [|k]; [reflexivity|].
    cbn [trace firstn run nth_error].
    destruct (apply_op in_circle grid_find_closest_face positioner
                split_position op cd) as [o cd1]. cbn [snd].
    rewrite IH by (simpl in Hk; lia).
    destruct (run in_circle grid_find_closest_face positioner split_position
                  (firstn k r) cd1) as [os cd2]. reflexivity.
Qed.

End Prefixes.



Lemma status_reset_between_insertions_witness :
  let d := snd (snd (run toy_in_circle toy_grid toy_positioner toy_split
                         toy_ops (construct 10 50 0))) in
  (vertex (g d) 4
   = Some (mkVertex 4 UNDECIDED ENDPOINT (-1, 0)%Q 0%Q false) /\
   face (g d) 7
   = Some (mkFace (LineSite (-1, 0)%Q (1, 0)%Q) NONINCIDENT
                  (cycle_of (g d) 7))) /\
  status (mkVertex 4 UNDECIDED ENDPOINT (-1, 0)%Q 0%Q false) = UNDECIDED /\
  fstatus (mkFace (LineSite (-1, 0)%Q (1, 0)%Q) NONINCIDENT (cycle_of (g d) 7))
  = NONINCIDENT.
Proof.
  pose proof (status_reset_between_insertions toy_in_circle toy_grid
                toy_positioner toy_split 10 50 0 toy_ops) as T.
  intros d. fold d in T. cbv zeta in T. destruct T as [TV TF].
  assert (Hv : vertex (g d) 4
               = Some (mkVertex 4 UNDECIDED ENDPOINT (-1, 0)%Q 0%Q false))
    by (vm_compute; reflexivity).
  assert (Hf : face (g d) 7
               = Some (mkFace (LineSite (-1, 0)%Q (1, 0)%Q) NONINCIDENT
                              (cycle_of (g d) 7)))
    by (vm_compute; reflexivity).
  split; [split; assumption|].
  split; [exact (TV 4 _ Hv)|exact (TF 7 _ Hf)].
Defined.

End Diagram.
